(** * A shallow embedding of the peer-to-peer file sharing engine

    The development follows [src/file_sharing/protocol.py] and
    [src/file_sharing/peer.py]: the piece store ([FileManager]), the neighbor
    session ([PeerConnection]), the message processor, the two unchoke
    schedulers and the termination detector ([Peer]).

    Python integers are [Z] (or [nat] where the source obtains them from
    [range] or from an unsigned [struct.unpack]); [bytes] and [bytearray]
    are lists of byte values; lists updated by index use stdpp's lookup and
    insert with the [IndexError] of the source written out; the [set] of
    requested pieces is a [gset]; the registry [dict] is an association list
    in insertion order whose values are references into a store of session
    objects.  Exceptions are carried by a small error monad. *)

From Stdlib Require Import ZArith Lia.
From stdpp Require Import base tactics option list sorting gmap.

Local Open Scope Z_scope.
Local Open Scope nat_scope.

(** ** Exceptions *)

Inductive exn : Type :=
  | IndexError        (* list index out of range *)
  | StructError       (* struct.error of pack / unpack *)
  | ConnectionError   (* raised by read_n_bytes on end of stream *)
  | OSError           (* socket and file errors (IOError is OSError) *)
  | ValueError        (* an argument outside what a built-in accepts *)
  | SystemExit (code : Z).   (* sys.exit(code) *)

Inductive res (A : Type) : Type :=
  | Ret (a : A)
  | Raise (e : exn).
Arguments Ret {A} a.
Arguments Raise {A} e.

#[global] Instance res_ret : MRet res := fun A a => Ret a.
#[global] Instance res_bind : MBind res := fun A B f m =>
  match m with
  | Ret a => f a
  | Raise e => Raise e
  end.

#[global] Instance exn_eq_dec : EqDecision exn.
Proof. solve_decision. Defined.

(** [l[i]] for a non-negative index. *)
Definition list_get {A} (l : list A) (i : nat) : res A :=
  match l !! i with
  | Some x => Ret x
  | None => Raise IndexError
  end.

(** [l[i] = x] for a non-negative index. *)
Definition list_set {A} (l : list A) (i : nat) (x : A) : res (list A) :=
  if decide (i < length l) then Ret (<[i:=x]> l) else Raise IndexError.

(** A loop [for i in xs: acc = body(acc, i)] whose body may raise. *)
Fixpoint for_each {A S} (body : S → A → res S) (xs : list A) (s : S) : res S :=
  match xs with
  | [] => Ret s
  | x :: xs' => s' ← body s x; for_each body xs' s'
  end.

(** ** protocol.py *)

Module Protocol.

Definition MSG_CHOKE : Z := 0.
Definition MSG_UNCHOKE : Z := 1.
Definition MSG_INTERESTED : Z := 2.
Definition MSG_NOT_INTERESTED : Z := 3.
Definition MSG_HAVE : Z := 4.
Definition MSG_BITFIELD : Z := 5.
Definition MSG_REQUEST : Z := 6.
Definition MSG_PIECE : Z := 7.

  (** [struct.pack('!I', n)]: four bytes, most significant first. *)
Definition pack_I (n : Z) : res (list Z) :=
    if decide (0 ≤ n < 2 ^ 32)%Z
    then Ret [ (n / 2 ^ 24) `mod` 256; (n / 2 ^ 16) `mod` 256;
               (n / 2 ^ 8) `mod` 256; n `mod` 256 ]%Z
    else Raise StructError.

  (** [struct.pack('!IB', n, b)]. *)
Definition pack_IB (n b : Z) : res (list Z) :=
    hd ← pack_I n;
    if decide (0 ≤ b ≤ 255)%Z then Ret (hd ++ [b]) else Raise StructError.

  (** [struct.unpack('!I', data)[0]]: the buffer must hold exactly 4 bytes. *)
Definition unpack_I (data : list Z) : res nat :=
    match data with
    | [b3; b2; b1; b0] =>
        Ret (Z.to_nat (((b3 * 256 + b2) * 256 + b1) * 256 + b0))
    | _ => Raise StructError
    end.

End Protocol.
Import Protocol.

(** ** The piece store: class FileManager *)

(** [math.ceil(a / b)] on the non-negative integers the configuration
    holds ([b] positive): the ceiling of the exact quotient.  Python
    divides in floating point and rounds the quotient once the sizes reach
    2^53; what depends on the number of pieces takes the exact ceiling as a
    hypothesis on the store. *)
Definition ceil_div (a b : Z) : Z := (- ((- a) / b))%Z.

Record FileManager : Type := mkFileManager {
  file_size : Z;
  piece_size : Z;
  num_pieces : nat;
  bitfield : list Z;
  (** contents of [file_path]; [None] when the file cannot be opened *)
  disk : option (list Z);
  requested_pieces : gset nat;
}.

Definition FileManager_init (has_file : bool) (fsize psize : Z)
    (seed_file : option (list Z)) : FileManager :=
  let n := Z.to_nat (ceil_div fsize psize) in
  {| file_size := fsize;
     piece_size := psize;
     num_pieces := n;
     bitfield := if has_file then replicate n 1%Z else replicate n 0%Z;
     disk := if has_file then seed_file else Some [];
     requested_pieces := ∅ |}.

Definition has_piece (fm : FileManager) (index : nat) : res bool :=
  b ← list_get (bitfield fm) index; Ret (bool_decide (b = 1%Z)).

(** [all(self.bitfield)]: every entry is truthy. *)
Definition has_complete_file (fm : FileManager) : bool :=
  forallb (fun b => negb (b =? 0)%Z) (bitfield fm).

(** One iteration of the packing loop of [get_bitfield_bytes]. *)
Definition pack_bit (bits : list Z) (bf_bytes : list Z) (i : nat)
    : res (list Z) :=
  b ← list_get bits i;
  if decide (b = 1%Z) then
    let byte_index := i / 8 in
    let bit_offset := (7 - Z.of_nat (i mod 8))%Z in
    old ← list_get bf_bytes byte_index;
    list_set bf_bytes byte_index (Z.lor old (Z.shiftl 1 bit_offset))
  else Ret bf_bytes.

Definition encode_bits (n : nat) (bits : list Z) : res (list Z) :=
  let num_bytes := Z.to_nat (ceil_div (Z.of_nat n) 8) in
  for_each (pack_bit bits) (seq 0 n) (replicate num_bytes 0%Z).

Definition get_bitfield_bytes (fm : FileManager) : res (list Z) :=
  encode_bits (num_pieces fm) (bitfield fm).

(** One iteration of the loop of [update_bitfield_from_bytes]. *)
Definition unpack_bit (bf_data : list Z) (neighbor_bitfield : list Z)
    (i : nat) : list Z :=
  let byte_index := i / 8 in
  let bit_offset := (7 - Z.of_nat (i mod 8))%Z in
  match bf_data !! byte_index with
  | Some byte =>
      if decide (Z.land (Z.shiftr byte bit_offset) 1 = 0%Z)
      then neighbor_bitfield
      else <[i:=1%Z]> neighbor_bitfield
  | None => neighbor_bitfield
  end.

Definition decode_bits (n : nat) (bf_data : list Z) : list Z :=
  foldl (unpack_bit bf_data) (replicate n 0%Z) (seq 0 n).

Definition update_bitfield_from_bytes (fm : FileManager) (bf_data : list Z)
    : list Z :=
  decode_bits (num_pieces fm) bf_data.

(** A bitmap: entries 0 or 1. *)
Definition is_bitmap (bits : list Z) : Prop :=
  Forall (fun b => b = 0%Z ∨ b = 1%Z) bits.


(** Ten pieces of which the first and the last are held. *)
Definition roundtrip_example : FileManager :=
  {| file_size := 100; piece_size := 10; num_pieces := 10;
     bitfield := [1; 0; 0; 0; 0; 0; 0; 0; 0; 1]%Z;
     disk := Some []; requested_pieces := ∅ |}.

(** [f.seek(offset); f.read(size)] on a file opened "rb": a negative
    offset is refused with [OSError]; the size -1 reads to the end and a
    size below -1 is refused with [ValueError]. *)
Definition file_read (content : list Z) (offset size : Z) : res (list Z) :=
  if decide (offset < 0)%Z then Raise OSError
  else
    let rest := drop (Z.to_nat offset) content in
    if decide (size < -1)%Z then Raise ValueError
    else if decide (size = -1)%Z then Ret rest
    else Ret (take (Z.to_nat size) rest).

(** [f.seek(offset); f.write(data)] on a file opened "r+b": the bytes
    replace what is stored from [offset] on, the file grows when needed and
    a gap after the old end reads as zeros. *)
Definition file_write (content : list Z) (offset : Z) (data : list Z)
    : res (list Z) :=
  if decide (offset < 0)%Z then Raise OSError
  else
    let o := Z.to_nat offset in
    Ret (take o content ++ replicate (o - length content) 0%Z ++ data
           ++ drop (o + length data) content).

Definition read_piece (fm : FileManager) (index : nat)
    : res (option (list Z)) :=
  h ← has_piece fm index;
  if negb h then Ret None
  else
    let offset := (Z.of_nat index * piece_size fm)%Z in
    let current_piece_size :=
      Z.min (piece_size fm) (file_size fm - offset) in
    match disk fm with
    | None => Ret None                       (* open fails: IOError *)
    | Some content =>
        match file_read content offset current_piece_size with
        | Ret data => Ret (Some data)
        | Raise OSError => Ret None          (* except IOError *)
        | Raise e => Raise e
        end
    end.

Definition set_disk (d : option (list Z)) (fm : FileManager) : FileManager :=
  {| file_size := file_size fm; piece_size := piece_size fm;
     num_pieces := num_pieces fm; bitfield := bitfield fm;
     disk := d; requested_pieces := requested_pieces fm |}.

Definition set_bitfield (b : list Z) (fm : FileManager) : FileManager :=
  {| file_size := file_size fm; piece_size := piece_size fm;
     num_pieces := num_pieces fm; bitfield := b;
     disk := disk fm; requested_pieces := requested_pieces fm |}.

Definition set_requested_pieces (r : gset nat) (fm : FileManager)
    : FileManager :=
  {| file_size := file_size fm; piece_size := piece_size fm;
     num_pieces := num_pieces fm; bitfield := bitfield fm;
     disk := disk fm; requested_pieces := r |}.

(** [write_piece] returns the store it leaves behind together with its
    outcome: the file is written before the bitfield is indexed, so an
    [IndexError] leaves the written bytes on disk. *)
Definition write_piece (fm : FileManager) (index : nat) (data : list Z)
    : FileManager * res bool :=
  let offset := (Z.of_nat index * piece_size fm)%Z in
  match disk fm with
  | None => (fm, Ret false)                  (* open fails: IOError *)
  | Some content =>
      match file_write content offset data with
      | Raise _ => (fm, Ret false)           (* except IOError *)
      | Ret content' =>
          let fm1 := set_disk (Some content') fm in
          match list_set (bitfield fm1) index 1%Z with
          | Raise e => (fm1, Raise e)
          | Ret bits =>
              let fm2 := set_bitfield bits fm1 in
              let fm3 :=
                if decide (index ∈ requested_pieces fm2)
                then set_requested_pieces (requested_pieces fm2 ∖ {[index]}) fm2
                else fm2 in
              (fm3, Ret true)
          end
      end
  end.

(** The length the data model gives the last piece. *)
Definition last_piece_length (fm : FileManager) : Z :=
  (file_size fm - (Z.of_nat (num_pieces fm) - 1) * piece_size fm)%Z.

(** ** The neighbor session: class PeerConnection *)

Record Socket : Type := mkSocket {
  sock_closed : bool;   (* close() was called on this end *)
  sock_broken : bool;   (* the transport failed or the other end left *)
}.

(** [socket.sendall(data)]: the new socket state, or [OSError]. *)
Definition sendall (s : Socket) (data : list Z) : res Socket :=
  if sock_closed s || sock_broken s then Raise OSError else Ret s.

Record PeerConnection : Type := mkPeerConnection {
  socket : Socket;
  neighbor_id : Z;
  am_choking : bool;
  am_interested : bool;
  peer_choking : bool;
  peer_interested : bool;
  neighbor_bitfield : list Z;
  download_rate : Z;
  downloaded_bytes_interval : Z;
  (** set only by the optimistic timer; [None] while the attribute is absent *)
  is_optimistic : option bool;
}.

Definition PeerConnection_init (s : Socket) (nid : Z) (n : nat)
    : PeerConnection :=
  {| socket := s; neighbor_id := nid;
     am_choking := true; am_interested := false;
     peer_choking := true; peer_interested := false;
     neighbor_bitfield := replicate n 0%Z;
     download_rate := 0; downloaded_bytes_interval := 0;
     is_optimistic := None |}.

#[global] Instance PeerConnection_inhabited : Inhabited PeerConnection :=
  populate (PeerConnection_init (mkSocket true true) 0 0).

Definition set_socket (s : Socket) (c : PeerConnection) : PeerConnection :=
  {| socket := s; neighbor_id := neighbor_id c;
     am_choking := am_choking c; am_interested := am_interested c;
     peer_choking := peer_choking c; peer_interested := peer_interested c;
     neighbor_bitfield := neighbor_bitfield c;
     download_rate := download_rate c;
     downloaded_bytes_interval := downloaded_bytes_interval c;
     is_optimistic := is_optimistic c |}.

Definition set_am_choking (b : bool) (c : PeerConnection) : PeerConnection :=
  {| socket := socket c; neighbor_id := neighbor_id c;
     am_choking := b; am_interested := am_interested c;
     peer_choking := peer_choking c; peer_interested := peer_interested c;
     neighbor_bitfield := neighbor_bitfield c;
     download_rate := download_rate c;
     downloaded_bytes_interval := downloaded_bytes_interval c;
     is_optimistic := is_optimistic c |}.

Definition set_am_interested (b : bool) (c : PeerConnection)
    : PeerConnection :=
  {| socket := socket c; neighbor_id := neighbor_id c;
     am_choking := am_choking c; am_interested := b;
     peer_choking := peer_choking c; peer_interested := peer_interested c;
     neighbor_bitfield := neighbor_bitfield c;
     download_rate := download_rate c;
     downloaded_bytes_interval := downloaded_bytes_interval c;
     is_optimistic := is_optimistic c |}.

Definition set_peer_choking (b : bool) (c : PeerConnection)
    : PeerConnection :=
  {| socket := socket c; neighbor_id := neighbor_id c;
     am_choking := am_choking c; am_interested := am_interested c;
     peer_choking := b; peer_interested := peer_interested c;
     neighbor_bitfield := neighbor_bitfield c;
     download_rate := download_rate c;
     downloaded_bytes_interval := downloaded_bytes_interval c;
     is_optimistic := is_optimistic c |}.

Definition set_peer_interested (b : bool) (c : PeerConnection)
    : PeerConnection :=
  {| socket := socket c; neighbor_id := neighbor_id c;
     am_choking := am_choking c; am_interested := am_interested c;
     peer_choking := peer_choking c; peer_interested := b;
     neighbor_bitfield := neighbor_bitfield c;
     download_rate := download_rate c;
     downloaded_bytes_interval := downloaded_bytes_interval c;
     is_optimistic := is_optimistic c |}.

Definition set_neighbor_bitfield (nb : list Z) (c : PeerConnection)
    : PeerConnection :=
  {| socket := socket c; neighbor_id := neighbor_id c;
     am_choking := am_choking c; am_interested := am_interested c;
     peer_choking := peer_choking c; peer_interested := peer_interested c;
     neighbor_bitfield := nb;
     download_rate := download_rate c;
     downloaded_bytes_interval := downloaded_bytes_interval c;
     is_optimistic := is_optimistic c |}.

Definition set_downloaded_bytes_interval (z : Z) (c : PeerConnection)
    : PeerConnection :=
  {| socket := socket c; neighbor_id := neighbor_id c;
     am_choking := am_choking c; am_interested := am_interested c;
     peer_choking := peer_choking c; peer_interested := peer_interested c;
     neighbor_bitfield := neighbor_bitfield c;
     download_rate := download_rate c;
     downloaded_bytes_interval := z;
     is_optimistic := is_optimistic c |}.

Definition set_is_optimistic (o : option bool) (c : PeerConnection)
    : PeerConnection :=
  {| socket := socket c; neighbor_id := neighbor_id c;
     am_choking := am_choking c; am_interested := am_interested c;
     peer_choking := peer_choking c; peer_interested := peer_interested c;
     neighbor_bitfield := neighbor_bitfield c;
     download_rate := download_rate c;
     downloaded_bytes_interval := downloaded_bytes_interval c;
     is_optimistic := o |}.

(** [PeerConnection.send_message]: the header is packed before the [try];
    whatever [sendall] raises is caught and printed.  Next to the session
    the result names the frame handed to [sendall] and tells whether the
    call returned. *)
Definition send_message (c : PeerConnection) (msg_type : Z)
    (payload : list Z) : res (PeerConnection * (list Z * bool)) :=
  let packet_len := (1 + Z.of_nat (length payload))%Z in
  header ← pack_IB packet_len msg_type;
  match sendall (socket c) (header ++ payload) with
  | Ret s => Ret (set_socket s c, (header ++ payload, true))
  | Raise _ => Ret (c, (header ++ payload, false))
  end.

(** [PeerConnection.close]. *)
Definition close (c : PeerConnection) : PeerConnection :=
  set_socket (mkSocket true (sock_broken (socket c))) c.

(** ** Randomness

    [random.choice] and [random.shuffle] consume draws of the generator's
    [randbelow]; a cycle receives the draws it will consume as a list (an
    exhausted list answers 0). *)

Definition randbelow (n : nat) (draws : list nat) : nat * list nat :=
  match draws with
  | [] => (0, [])
  | r :: draws' => (r mod n, draws')
  end.

(** [random.choice(xs)] for a non-empty [xs]: [xs[randbelow(len(xs))]]. *)
Definition choice {A} (xs : list A) (draws : list nat) : option A :=
  xs !! (randbelow (length xs) draws).1.

(** [x[i], x[j] = x[j], x[i]]. *)
Definition swap {A} (x : list A) (i j : nat) : list A :=
  match x !! i, x !! j with
  | Some a, Some b => <[j:=a]> (<[i:=b]> x)
  | _, _ => x
  end.

(** [random.shuffle(x)]:
    [for i in reversed(range(1, len(x))): j = randbelow(i + 1); swap i j]. *)
Fixpoint shuffle_from {A} (i : nat) (draws : list nat) (x : list A)
    : list A :=
  match i with
  | 0 => x
  | S i' =>
      let (j, draws') := randbelow (i + 1) draws in
      shuffle_from i' draws' (swap x i j)
  end.

Definition shuffle {A} (draws : list nat) (x : list A) : list A :=
  shuffle_from (length x - 1) draws x.

(** The draws a shuffle of [i + 1] items consumes when each is in the range
    of its [randbelow]: one below [i + 1], one below [i], ..., one below 2. *)
Fixpoint draws_for (i : nat) (draws : list nat) : Prop :=
  match i, draws with
  | 0, [] => True
  | S i', r :: rest => r < i + 1 ∧ draws_for i' rest
  | _, _ => False
  end.

(** ** Built-in list operations *)

(** [xs[:k]]; a negative [k] counts from the end. *)
Definition slice_to {A} (k : Z) (xs : list A) : list A :=
  if decide (0 ≤ k)%Z then take (Z.to_nat k) xs
  else take (length xs - Z.to_nat (- k)) xs.

(** [xs.sort(key=key, reverse=True)]: the sort is stable, and stays so under
    [reverse=True]: items with equal keys keep their original order. *)
Fixpoint insert_desc {A} (key : A → Z) (x : A) (xs : list A) : list A :=
  match xs with
  | [] => [x]
  | y :: ys =>
      if decide (key y ≤ key x)%Z then x :: y :: ys
      else y :: insert_desc key x ys
  end.

Definition sort_desc {A} (key : A → Z) (xs : list A) : list A :=
  foldr (insert_desc key) [] xs.

(** Descending by key. *)
Definition sorted_desc {A} (key : A → Z) (xs : list A) : Prop :=
  StronglySorted (fun a b => key b ≤ key a)%Z xs.

(** Items with equal keys stand in [ys] in the order they have in [xs]. *)
Definition ties_in_order {A} (key : A → Z) (xs ys : list A) : Prop :=
  ∀ v, filter (fun a => key a = v) ys = filter (fun a => key a = v) xs.

(** [d[k] = v] on a dict kept in insertion order. *)
Fixpoint dict_set {V} (d : list (Z * V)) (k : Z) (v : V) : list (Z * V) :=
  match d with
  | [] => [(k, v)]
  | (k', v') :: d' =>
      if decide (k' = k) then (k, v) :: d' else (k', v') :: dict_set d' k v
  end.

Definition dict_values {V} (d : list (Z * V)) : list V := d.*2.

(** [sum(bits)]. *)
Definition sum_list (bits : list Z) : Z := foldr Z.add 0%Z bits.

(** ** The peer: class Peer *)

Inductive log_line : Type :=
  | log_tcp_connect (nid : Z)
  | log_tcp_connected (nid : Z)
  | log_change_preferred_neighbors (ids : list Z)
  | log_change_optimistically_unchoked (nid : Z)
  | log_unchoked (nid : Z)
  | log_choked (nid : Z)
  | log_receive_have (nid : Z) (piece_index : nat)
  | log_receive_interested (nid : Z)
  | log_receive_not_interested (nid : Z)
  | log_download_piece (nid : Z) (piece_index : nat) (total : Z)
  | log_download_complete.

(** The three tests of the termination detector. *)
Inductive check : Type :=
  | CheckLocalComplete       (* self.file_manager.has_complete_file() *)
  | CheckNeighborsComplete   (* the loop over self.connections.values() *)
  | CheckSessionCount.       (* len(self.connections) == len(peers) - 1 *)

(** What a run does, in program order.  Sessions are named by their
    position in the store of session objects. *)
Inductive event : Type :=
  | EvSendall (c : nat) (data : list Z) (ok : bool)
      (* conn.socket.sendall(data), and whether it returned *)
  | EvLog (l : log_line)
  | EvAcquire                (* entering [with self.connections_lock] *)
  | EvRelease                (* leaving it *)
  | EvCheck (what : check)
  | EvClose (c : nat)        (* conn.close() *)
  | EvCloseServer.           (* self.server_socket.close() *)

Record Peer : Type := mkPeer {
  peer_id : Z;
  (** config.common['NumberOfPreferredNeighbors'] *)
  preferred_count : Z;
  (** the peer ids of config.peers, in file order *)
  config_peers : list Z;
  file_manager : FileManager;
  (** every PeerConnection object created so far *)
  sessions : list PeerConnection;
  (** self.connections: neighbor id ↦ session object *)
  connections : list (Z * nat);
  server_socket : option Socket;
  running : bool;
  trace : list event;
}.

Definition set_file_manager (fm : FileManager) (p : Peer) : Peer :=
  {| peer_id := peer_id p; preferred_count := preferred_count p;
     config_peers := config_peers p; file_manager := fm;
     sessions := sessions p; connections := connections p;
     server_socket := server_socket p; running := running p;
     trace := trace p |}.

Definition set_sessions (ss : list PeerConnection) (p : Peer) : Peer :=
  {| peer_id := peer_id p; preferred_count := preferred_count p;
     config_peers := config_peers p; file_manager := file_manager p;
     sessions := ss; connections := connections p;
     server_socket := server_socket p; running := running p;
     trace := trace p |}.

Definition set_connections (d : list (Z * nat)) (p : Peer) : Peer :=
  {| peer_id := peer_id p; preferred_count := preferred_count p;
     config_peers := config_peers p; file_manager := file_manager p;
     sessions := sessions p; connections := d;
     server_socket := server_socket p; running := running p;
     trace := trace p |}.

Definition set_server_socket (s : option Socket) (p : Peer) : Peer :=
  {| peer_id := peer_id p; preferred_count := preferred_count p;
     config_peers := config_peers p; file_manager := file_manager p;
     sessions := sessions p; connections := connections p;
     server_socket := s; running := running p;
     trace := trace p |}.

Definition set_running (b : bool) (p : Peer) : Peer :=
  {| peer_id := peer_id p; preferred_count := preferred_count p;
     config_peers := config_peers p; file_manager := file_manager p;
     sessions := sessions p; connections := connections p;
     server_socket := server_socket p; running := b;
     trace := trace p |}.

Definition emit (e : event) (p : Peer) : Peer :=
  {| peer_id := peer_id p; preferred_count := preferred_count p;
     config_peers := config_peers p; file_manager := file_manager p;
     sessions := sessions p; connections := connections p;
     server_socket := server_socket p; running := running p;
     trace := trace p ++ [e] |}.

Definition Peer_init (pid k : Z) (peers : list Z) (has_file : bool)
    (fsize psize : Z) (seed_file : option (list Z)) : Peer :=
  {| peer_id := pid; preferred_count := k; config_peers := peers;
     file_manager := FileManager_init has_file fsize psize seed_file;
     sessions := []; connections := [];
     server_socket := None; running := true; trace := [] |}.

(** *** Methods as state transformers that may raise *)

Definition M (A : Type) : Type := Peer → Peer * res A.

#[global] Instance M_ret : MRet M := fun A a p => (p, Ret a).
#[global] Instance M_bind : MBind M := fun A B f m p =>
  match m p with
  | (p', Ret a) => f a p'
  | (p', Raise e) => (p', Raise e)
  end.

Definition lift {A} (r : res A) : M A := fun p => (p, r).
Definition get_peer : M Peer := fun p => (p, Ret p).
Definition modify (f : Peer → Peer) : M unit := fun p => (f p, Ret tt).
Definition log (l : log_line) : M unit := modify (emit (EvLog l)).

(** The session object behind a reference, and an update of it in place. *)
Definition conn (c : nat) : M PeerConnection :=
  fun p => (p, Ret (sessions p !!! c)).
Definition update_conn (c : nat) (f : PeerConnection → PeerConnection)
    : M unit :=
  modify (fun p => set_sessions (alter f c (sessions p)) p).

(** [with self.connections_lock: body]: released on every way out. *)
Definition with_lock {A} (body : M A) : M A := fun p =>
  let (p', r) := body (emit EvAcquire p) in (emit EvRelease p', r).

(** [for x in xs: body(x)]. *)
Fixpoint for_in {A} (xs : list A) (body : A → M unit) : M unit :=
  match xs with
  | [] => mret tt
  | x :: xs' => _ ← body x; for_in xs' body
  end.

(** [conn.send_message(msg_type, payload)] on the session [c]. *)
Definition send (c : nat) (msg_type : Z) (payload : list Z) : M unit :=
  s ← conn c;
  r ← lift (send_message s msg_type payload);
  modify (fun p =>
    emit (EvSendall c r.2.1 r.2.2)
         (set_sessions (<[c:=r.1]> (sessions p)) p)).

(** The loop shared by the BITFIELD handler and [check_interest]: is there
    an [i] with [neighbor_bitfield[i] == 1 and not has_piece(i)]?  The scan
    stops at the first one. *)
Fixpoint scan_interest (fm : FileManager) (nb : list Z) (idxs : list nat)
    : res bool :=
  match idxs with
  | [] => Ret false
  | i :: rest =>
      x ← list_get nb i;
      if decide (x = 1%Z) then
        h ← has_piece fm i;
        if negb h then Ret true else scan_interest fm nb rest
      else scan_interest fm nb rest
  end.

Definition check_interest (c : nat) : M unit :=
  p ← get_peer;
  s ← conn c;
  let nb := neighbor_bitfield s in
  still_interested ←
    lift (scan_interest (file_manager p) nb (seq 0 (length nb)));
  if negb still_interested && am_interested s then
    _ ← send c MSG_NOT_INTERESTED [];
    update_conn c (set_am_interested false)
  else mret tt.

(** The list comprehension of [request_piece]. *)
Fixpoint available_pieces (fm : FileManager) (nb : list Z)
    (idxs : list nat) : res (list nat) :=
  match idxs with
  | [] => Ret []
  | i :: rest =>
      x ← list_get nb i;
      keep ←
        (if decide (x = 1%Z) then
           h ← has_piece fm i;
           Ret (negb h && bool_decide (i ∉ requested_pieces fm))
         else Ret false);
      tl ← available_pieces fm nb rest;
      Ret (if keep : bool then i :: tl else tl)
  end.

Definition request_piece (draws : list nat) (c : nat) : M unit :=
  p ← get_peer;
  s ← conn c;
  let nb := neighbor_bitfield s in
  avail ← lift (available_pieces (file_manager p) nb (seq 0 (length nb)));
  if decide (avail = []) then mret tt
  else
    match choice avail draws with
    | None => mret tt
    | Some idx =>
        _ ← modify (fun p =>
              set_file_manager
                (set_requested_pieces
                   ({[idx]} ∪ requested_pieces (file_manager p))
                   (file_manager p)) p);
        payload ← lift (pack_I (Z.of_nat idx));
        send c MSG_REQUEST payload
    end.

(** The branches of [process_message], one per message type. *)

Definition on_choke (c : nat) : M unit :=
  s ← conn c;
  _ ← log (log_choked (neighbor_id s));
  update_conn c (set_peer_choking true).

Definition on_unchoke (draws : list nat) (c : nat) : M unit :=
  s ← conn c;
  _ ← log (log_unchoked (neighbor_id s));
  _ ← update_conn c (set_peer_choking false);
  request_piece draws c.

Definition on_interested (c : nat) : M unit :=
  s ← conn c;
  _ ← log (log_receive_interested (neighbor_id s));
  update_conn c (set_peer_interested true).

Definition on_not_interested (c : nat) : M unit :=
  s ← conn c;
  _ ← log (log_receive_not_interested (neighbor_id s));
  update_conn c (set_peer_interested false).

Definition on_have (c : nat) (payload : list Z) : M unit :=
  s ← conn c;
  piece_index ← lift (unpack_I payload);
  _ ← log (log_receive_have (neighbor_id s) piece_index);
  nb ← lift (list_set (neighbor_bitfield s) piece_index 1%Z);
  _ ← update_conn c (set_neighbor_bitfield nb);
  p ← get_peer;
  h ← lift (has_piece (file_manager p) piece_index);
  if negb h then
    _ ← send c MSG_INTERESTED [];
    update_conn c (set_am_interested true)
  else mret tt.

Definition on_bitfield (c : nat) (payload : list Z) : M unit :=
  p ← get_peer;
  let nb := update_bitfield_from_bytes (file_manager p) payload in
  _ ← update_conn c (set_neighbor_bitfield nb);
  interested ←
    lift (scan_interest (file_manager p) nb (seq 0 (length nb)));
  if interested : bool then
    _ ← send c MSG_INTERESTED [];
    update_conn c (set_am_interested true)
  else
    _ ← send c MSG_NOT_INTERESTED [];
    update_conn c (set_am_interested false).

Definition on_request (c : nat) (payload : list Z) : M unit :=
  s ← conn c;
  if negb (am_choking s) then
    piece_index ← lift (unpack_I payload);
    p ← get_peer;
    data ← lift (read_piece (file_manager p) piece_index);
    match data with
    | Some (b :: bs) =>
        let data := b :: bs in
        hd ← lift (pack_I (Z.of_nat piece_index));
        _ ← send c MSG_PIECE (hd ++ data);
        update_conn c (fun s =>
          set_downloaded_bytes_interval
            (downloaded_bytes_interval s + Z.of_nat (length data))%Z s)
    | _ => mret tt                           (* None, or no bytes: falsy *)
    end
  else mret tt.

(** The [for peer in self.connections.values()] loop of the PIECE branch. *)
Definition broadcast_have (have_payload : list Z) : M unit :=
  with_lock (
    p ← get_peer;
    for_in (dict_values (connections p)) (fun peer =>
      _ ← send peer MSG_HAVE have_payload;
      check_interest peer)).

Definition on_piece (draws : list nat) (c : nat) (payload : list Z)
    : M unit :=
  s ← conn c;
  piece_index ← lift (unpack_I (take 4 payload));
  let piece_data := drop 4 payload in
  p ← get_peer;
  let (fm', r) := write_piece (file_manager p) piece_index piece_data in
  _ ← modify (set_file_manager fm');
  written ← lift r;
  if written : bool then
    let total_pieces := sum_list (bitfield fm') in
    _ ← log (log_download_piece (neighbor_id s) piece_index total_pieces);
    _ ← update_conn c (fun s =>
          set_downloaded_bytes_interval
            (downloaded_bytes_interval s
             + Z.of_nat (length piece_data))%Z s);
    have_payload ← lift (pack_I (Z.of_nat piece_index));
    _ ← broadcast_have have_payload;
    p ← get_peer;
    _ ← (if has_complete_file (file_manager p)
         then log log_download_complete else mret tt);
    s ← conn c;
    if negb (peer_choking s) then request_piece draws c else mret tt
  else mret tt.

Definition process_message (draws : list nat) (c : nat) (msg_type : Z)
    (payload : list Z) : M unit :=
  if decide (msg_type = MSG_CHOKE) then on_choke c
  else if decide (msg_type = MSG_UNCHOKE) then on_unchoke draws c
  else if decide (msg_type = MSG_INTERESTED) then on_interested c
  else if decide (msg_type = MSG_NOT_INTERESTED) then on_not_interested c
  else if decide (msg_type = MSG_HAVE) then on_have c payload
  else if decide (msg_type = MSG_BITFIELD) then on_bitfield c payload
  else if decide (msg_type = MSG_REQUEST) then on_request c payload
  else if decide (msg_type = MSG_PIECE) then on_piece draws c payload
  else mret tt.

(** *** Listener and dialer: what follows a completed handshake *)

(** Steps 3 and 4 of [connect_to_peer] and [handle_incoming_connection]:
    create the session, register it under the lock, send the bitfield.
    The result is the new session object. *)
Definition register_connection (sock : Socket) (nid : Z) : M nat :=
  p ← get_peer;
  let c := length (sessions p) in
  let connection :=
    PeerConnection_init sock nid (num_pieces (file_manager p)) in
  _ ← modify (fun p => set_sessions (sessions p ++ [connection]) p);
  _ ← with_lock (modify (fun p =>
         set_connections (dict_set (connections p) nid c) p));
  p ← get_peer;
  bf_payload ← lift (get_bitfield_bytes (file_manager p));
  _ ← send c MSG_BITFIELD bf_payload;
  mret c.

(** *** The receive loop of one session *)

(** What one turn of the loop of [message_handler] reads from the socket:
    a frame body of [msg_len] bytes (none when [msg_len] is 0), or the
    exception [read_n_bytes] ends with. *)
Inductive recv : Type :=
  | RecvFrame (msg_body : list Z)
  | RecvError (e : exn).

Inductive handler_state : Type :=
  | Blocked     (* inside recv, waiting for more input *)
  | Returned.   (* the loop ended and the [finally] clause ran *)

Definition close_conn (c : nat) : M unit :=
  _ ← update_conn c close;
  modify (emit (EvClose c)).

(** The way out of [message_handler]: [except Exception: pass] and
    [finally: conn.close()].  [SystemExit] is not an [Exception]. *)
Definition leave_handler (c : nat) (raised : option exn) : M handler_state :=
  _ ← close_conn c;
  match raised with
  | Some (SystemExit code) => lift (Raise (SystemExit code))
  | _ => mret Returned
  end.

(** [message_handler(conn)] fed with what its successive reads deliver.
    Each frame takes its own draws for the random choice it may make. *)
Fixpoint message_handler (c : nat) (input : list (recv * list nat))
    : M handler_state :=
  match input with
  | [] => mret Blocked
  | (item, draws) :: rest => fun p =>
      if running p then
        match item with
        | RecvError e => leave_handler c (Some e) p
        | RecvFrame [] => message_handler c rest p
        | RecvFrame (msg_type :: payload) =>
            match process_message draws c msg_type payload p with
            | (p', Ret _) => message_handler c rest p'
            | (p', Raise e) => leave_handler c (Some e) p'
            end
        end
      else leave_handler c None p
  end.

(** *** The unchoke scheduler *)

Definition interested_neighbors (p : Peer) : list nat :=
  filter (fun c => peer_interested (sessions p !!! c) = true)
         (dict_values (connections p)).

(** Step 2 of a preferred-neighbor cycle, on a non-empty snapshot. *)
Definition select_preferred (draws : list nat) (p : Peer)
    (snapshot : list nat) : list nat :=
  let k := preferred_count p in
  if has_complete_file (file_manager p) then
    slice_to k (shuffle draws snapshot)
  else
    slice_to k
      (sort_desc (fun c => downloaded_bytes_interval (sessions p !!! c))
                 snapshot).

(** The body of the loop that applies the decisions. *)
Definition apply_choke (preferred : list nat) (c : nat) : M unit :=
  s ← conn c;
  _ ← (if decide (c ∈ preferred) then
         if am_choking s then
           _ ← update_conn c (set_am_choking false);
           send c MSG_UNCHOKE []
         else mret tt
       else
         if negb (am_choking s) && negb (default false (is_optimistic s))
         then
           _ ← update_conn c (set_am_choking true);
           send c MSG_CHOKE []
         else mret tt);
  update_conn c (set_downloaded_bytes_interval 0).

(** One turn of the loop of [choking_timer], after the sleep. *)
Definition choking_timer_turn (draws : list nat) : M unit :=
  with_lock (
    p ← get_peer;
    let snapshot := interested_neighbors p in
    if decide (snapshot = []) then mret tt         (* continue *)
    else
      let preferred := select_preferred draws p snapshot in
      let preferred_ids :=
        (fun c => neighbor_id (sessions p !!! c)) <$> preferred in
      _ ← log (log_change_preferred_neighbors preferred_ids);
      for_in (dict_values (connections p)) (apply_choke preferred)).

Definition optimistic_candidates (p : Peer) : list nat :=
  filter (fun c => am_choking (sessions p !!! c) = true
                   ∧ peer_interested (sessions p !!! c) = true)
         (dict_values (connections p)).

(** One turn of the loop of [optimistic_unchoking_timer], after the sleep. *)
Definition optimistic_unchoking_timer_turn (draws : list nat) : M unit :=
  with_lock (
    p ← get_peer;
    let candidates := optimistic_candidates p in
    if decide (candidates = []) then mret tt
    else
      match choice candidates draws with
      | None => mret tt
      | Some chosen =>
          _ ← update_conn chosen (set_is_optimistic (Some true));
          s ← conn chosen;
          _ ← log (log_change_optimistically_unchoked (neighbor_id s));
          _ ← (if am_choking s then
                 _ ← update_conn chosen (set_am_choking false);
                 send chosen MSG_UNCHOKE []
               else mret tt);
          for_in (dict_values (connections p)) (fun c =>
            if decide (c ≠ chosen)
            then update_conn c (set_is_optimistic (Some false))
            else mret tt)
      end).

(** *** The termination detector *)

(** The loop under the lock: is every neighbor bitfield full?  It breaks at
    the first session that is not. *)
Definition all_neighbors_done (p : Peer) : bool :=
  forallb (fun c =>
      negb (sum_list (neighbor_bitfield (sessions p !!! c))
            <? Z.of_nat (num_pieces (file_manager p)))%Z)
    (dict_values (connections p)).

Definition checkpoint (w : check) : M unit := modify (emit (EvCheck w)).

(** The exit of [termination_check_loop]: clear [running], close every
    session and the listener, [sys.exit(0)]; the latter is
    [Raise (SystemExit 0)]. *)
Definition shutdown : M unit :=
  _ ← modify (set_running false);
  p ← get_peer;
  _ ← for_in (dict_values (connections p)) close_conn;
  p ← get_peer;
  _ ← (match server_socket p with
       | Some s =>
           modify (fun p =>
             emit EvCloseServer
               (set_server_socket (Some (mkSocket true (sock_broken s))) p))
       | None => mret tt
       end);
  lift (Raise (SystemExit 0)).

(** The comparison [len(self.connections) == len(self.config.peers) - 1]. *)
Definition session_count_ok (p : Peer) : bool :=
  bool_decide (Z.of_nat (length (connections p))
               = Z.of_nat (length (config_peers p)) - 1)%Z.

(** One turn of the loop of [termination_check_loop], after the sleep. *)
Definition termination_check_loop_turn : M unit :=
  p ← get_peer;
  _ ← checkpoint CheckLocalComplete;
  if negb (has_complete_file (file_manager p)) then mret tt   (* continue *)
  else
    done ← with_lock (
      _ ← checkpoint CheckNeighborsComplete;
      p ← get_peer;
      mret (all_neighbors_done p));
    count_ok ←
      (if done : bool then
         _ ← checkpoint CheckSessionCount;
         p ← get_peer;
         mret (session_count_ok p)
       else mret false);
    if count_ok : bool then shutdown else mret tt.

(** ** Runs of a peer

    The threads of a peer interleave; a run is taken at the grain of one
    turn of one loop: a completed handshake, one read of a receive loop with
    the processing of the frame it delivers, one cycle of a timer, one poll
    of the termination detector.  The environment contributes the failure
    of a transport.  The source lets another thread in inside a turn at
    the choice of [request_piece], where the piece store has no lock, and
    between the tests of the termination detector, where the registry lock
    is released; there the turn is cut into steps further down, in the
    part on threads inside a turn. *)

Inductive action : Type :=
  | ActListen (s : Socket)
      (* start_server_socket creates the listening socket *)
  | ActConnect (sock : Socket) (nid : Z)
      (* connect_to_peer after the handshake matched *)
  | ActAccept (sock : Socket) (nid : Z)
      (* handle_incoming_connection after the handshake parsed *)
  | ActRecv (c : nat) (item : recv) (draws : list nat)
      (* one turn of the loop of message_handler on session c *)
  | ActChoking (draws : list nat)
  | ActOptimistic (draws : list nat)
  | ActTermination
  | ActTransport (c : nat).
      (* the transport of session c fails *)

#[global] Instance Socket_eq_dec : EqDecision Socket.
Proof. solve_decision. Defined.
#[global] Instance recv_eq_dec : EqDecision recv.
Proof. solve_decision. Defined.
#[global] Instance action_eq_dec : EqDecision action.
Proof. solve_decision. Defined.

Definition break_socket (s : PeerConnection) : PeerConnection :=
  set_socket (mkSocket (sock_closed (socket s)) true) s.

Definition perform (a : action) (p : Peer) : Peer :=
  match a with
  | ActListen s => set_server_socket (Some s) p
  | ActConnect sock nid =>
      (* a failure after the handshake is caught and printed *)
      ((_ ← log (log_tcp_connect nid); register_connection sock nid) p).1
  | ActAccept sock nid =>
      ((_ ← log (log_tcp_connected nid); register_connection sock nid) p).1
  | ActRecv c item draws => (message_handler c [(item, draws)] p).1
  | ActChoking draws => (choking_timer_turn draws p).1
  | ActOptimistic draws => (optimistic_unchoking_timer_turn draws p).1
  | ActTermination => (termination_check_loop_turn p).1
  | ActTransport c => set_sessions (alter break_socket c (sessions p)) p
  end.

(** A sequence of actions, performed from left to right. *)
Definition run (actions : list action) (p : Peer) : Peer :=
  foldl (fun p a => perform a p) p actions.

(** Receive loops and transports belong to session objects that exist. *)
Definition enabled (a : action) (p : Peer) : Prop :=
  match a with
  | ActRecv c _ _ | ActTransport c => c < length (sessions p)
  | _ => True
  end.

Inductive reachable : Peer → Prop :=
  | reachable_init pid k peers has_file fsize psize seed_file :
      reachable (Peer_init pid k peers has_file fsize psize seed_file)
  | reachable_step a p :
      reachable p → enabled a p → reachable (perform a p).

(** The elementary changes of state the methods are made of.  [stop] tells
    whether the changes of a shutdown are among them, [allow] which sessions
    may have their neighbor bitmap replaced by a BITFIELD message. *)
Inductive tau (stop : bool) (allow : nat → Prop) (p : Peer) : Peer → Prop :=
  | tau_emit e : tau stop allow p (emit e p)
  | tau_update c f :
      (∀ s, neighbor_bitfield (f s) = neighbor_bitfield s) →
      tau stop allow p (set_sessions (alter f c (sessions p)) p)
  | tau_have c i :
      i < length (neighbor_bitfield (sessions p !!! c)) →
      tau stop allow p
        (set_sessions
           (alter (set_neighbor_bitfield
                     (<[i:=1%Z]> (neighbor_bitfield (sessions p !!! c))))
                  c (sessions p)) p)
  | tau_bitfield c payload :
      allow c →
      tau stop allow p
        (set_sessions
           (alter (set_neighbor_bitfield
                     (update_bitfield_from_bytes (file_manager p) payload))
                  c (sessions p)) p)
  | tau_write i data :
      tau stop allow p
        (set_file_manager (write_piece (file_manager p) i data).1 p)
  | tau_request idx :
      has_piece (file_manager p) idx = Ret false →
      idx ∉ requested_pieces (file_manager p) →
      tau stop allow p
        (set_file_manager
           (set_requested_pieces
              ({[idx]} ∪ requested_pieces (file_manager p))
              (file_manager p)) p)
  | tau_new_session sock nid :
      tau stop allow p
        (set_sessions
           (sessions p
            ++ [PeerConnection_init sock nid (num_pieces (file_manager p))])
           p)
  | tau_register nid c :
      c < length (sessions p) →
      tau stop allow p (set_connections (dict_set (connections p) nid c) p)
  | tau_server s : tau stop allow p (set_server_socket s p)
  | tau_stop : stop = true → tau stop allow p (set_running false p).

(** A method keeps within a relation between the state it starts in and
    the state it leaves, whether it returns or raises. *)
Definition preserves (R : relation Peer) {A} (m : M A) : Prop :=
  ∀ p, R p (m p).1.

(** Locks in a trace: the checks made while the registry lock is not
    held, in order.  [held] is the state of the lock before the trace. *)
Fixpoint unlocked_checks (held : bool) (tr : list event) : list check :=
  match tr with
  | [] => []
  | EvAcquire :: tr' => unlocked_checks true tr'
  | EvRelease :: tr' => unlocked_checks false tr'
  | EvCheck w :: tr' =>
      if held then unlocked_checks held tr'
      else w :: unlocked_checks held tr'
  | _ :: tr' => unlocked_checks held tr'
  end.

#[global] Instance check_eq_dec : EqDecision check.
Proof. solve_decision. Defined.

(** Every neighbor bitmap in the registry has all its bits set. *)
Definition neighbors_complete (p : Peer) : Prop :=
  ∀ c, c ∈ dict_values (connections p) →
       Forall (fun b => b = 1%Z) (neighbor_bitfield (sessions p !!! c)).

(** The sessions of the registry whose [am_choking] flag is false. *)
Definition unchoked (p : Peer) : list nat :=
  filter (fun c => am_choking (sessions p !!! c) = false)
         (dict_values (connections p)).

(** Bits that are set in the local bitmap stay set from [p] to [q]. *)
Definition self_bits_kept (p q : Peer) : Prop :=
  ∀ i, bitfield (file_manager p) !! i = Some 1%Z →
       bitfield (file_manager q) !! i = Some 1%Z.

(** Bits that are set in the neighbor bitmap of session [c] stay set. *)
Definition neighbor_bits_kept (c : nat) (p q : Peer) : Prop :=
  ∀ i, neighbor_bitfield (sessions p !!! c) !! i = Some 1%Z →
       neighbor_bitfield (sessions q !!! c) !! i = Some 1%Z.

(** The neighbor bitmap of session [c] is the same in [p] and [q]. *)
Definition same_bitmap (c : nat) : relation Peer := fun p q =>
  neighbor_bitfield (sessions q !!! c) = neighbor_bitfield (sessions p !!! c).

(** The action is the processing of a BITFIELD frame on session [c]. *)
Definition bitfield_frame_on (c : nat) (a : action) : Prop :=
  ∃ payload draws,
    a = ActRecv c (RecvFrame (MSG_BITFIELD :: payload)) draws.

(** No outstanding request is for a piece that is held. *)
Definition requests_disjoint (fm : FileManager) : Prop :=
  ∀ i, i ∈ requested_pieces fm → has_piece fm i ≠ Ret true.

(** Bitmaps are bitmaps of [num_pieces] bits. *)
Definition well_formed (p : Peer) : Prop :=
  is_bitmap (bitfield (file_manager p))
  ∧ length (bitfield (file_manager p)) = num_pieces (file_manager p)
  ∧ (∀ c s, sessions p !! c = Some s →
       is_bitmap (neighbor_bitfield s)
       ∧ length (neighbor_bitfield s) = num_pieces (file_manager p))
  ∧ (∀ nid c, (nid, c) ∈ connections p → c < length (sessions p)).

(** ** Concrete states used by the examples *)

(** A leecher of a three-piece file whose neighbor 1002 connected, after
    which the transport failed. *)
Definition broken_send_example : Peer :=
  run [ ActAccept (mkSocket false false) 1002; ActTransport 0 ]
    (Peer_init 1001 1 [1001; 1002]%Z false 25 10 None).

(** A leecher of a three-piece file whose neighbor 1002 connected and sent
    a BITFIELD with piece 1: the leecher declared its interest. *)
Definition have_example : Peer :=
  run [ ActAccept (mkSocket false false) 1002;
        ActRecv 0 (RecvFrame [MSG_BITFIELD; 64]%Z) [] ]
    (Peer_init 1001 1 [1001; 1002]%Z false 25 10 None).

(** The frame of INTERESTED: length 1, type 2. *)
Definition interested_frame : list Z := [0; 0; 0; 1; 2]%Z.

(** [struct.pack('!I', 0)], the payload of HAVE(0). *)
Definition have_0 : list Z := [0; 0; 0; 0]%Z.

(** The store of a leecher of a 25-byte file in pieces of 10 bytes: three
    pieces, the last of 5 bytes. *)
Definition short_last_example : FileManager :=
  FileManager_init false 25 10 None.

(** A leecher of a three-piece file whose neighbor 1002 connected,
    announced pieces 0 and 2 and unchoked it: one request is outstanding. *)
Definition requesting_example : Peer :=
  perform (ActRecv 0 (RecvFrame [MSG_UNCHOKE]) [1])
    (perform (ActRecv 0 (RecvFrame [MSG_BITFIELD; 160%Z]) [])
       (perform (ActAccept (mkSocket false false) 1002)
          (Peer_init 1001 1 [1001; 1002]%Z false 25 10 None))).

(** A leecher of a three-piece file whose neighbor 1002 connected and
    announced piece 1 with a HAVE message. *)
Definition announced_example : Peer :=
  perform (ActRecv 0 (RecvFrame [MSG_HAVE; 0; 0; 0; 1]%Z) [])
    (perform (ActAccept (mkSocket false false) 1002)
       (Peer_init 1001 1 [1001; 1002]%Z false 25 10 None)).

(** A seeder of a three-piece file whose only neighbor 1002 connected and
    announced all three pieces. *)
Definition all_complete_example : Peer :=
  perform (ActRecv 0 (RecvFrame [MSG_BITFIELD; 224]%Z) [])
    (perform (ActAccept (mkSocket false false) 1002)
       (perform (ActListen (mkSocket false false))
          (Peer_init 1001 1 [1001; 1002]%Z true 25 10
             (Some (replicate 25 7%Z))))).

(** The events of a poll of the termination detector up to its decision. *)
Definition poll_events : list event :=
  [EvCheck CheckLocalComplete; EvAcquire; EvCheck CheckNeighborsComplete;
   EvRelease; EvCheck CheckSessionCount].

(** Scenario 4 of the specification, scaled down: a leecher with k = 2 and
    four interested neighbors X, Y, Z, W (sessions 0 to 3) from which it
    received 2, 1, 1 and 0 bytes in the current interval; the fourth piece
    of the file is still missing. *)
Definition tie_example : Peer :=
  run [ ActAccept (mkSocket false false) 1002;
        ActAccept (mkSocket false false) 1003;
        ActAccept (mkSocket false false) 1004;
        ActAccept (mkSocket false false) 1005;
        ActRecv 0 (RecvFrame [MSG_INTERESTED]) [];
        ActRecv 1 (RecvFrame [MSG_INTERESTED]) [];
        ActRecv 2 (RecvFrame [MSG_INTERESTED]) [];
        ActRecv 3 (RecvFrame [MSG_INTERESTED]) [];
        ActRecv 0 (RecvFrame [MSG_PIECE; 0; 0; 0; 0; 7; 7]%Z) [];
        ActRecv 1 (RecvFrame [MSG_PIECE; 0; 0; 0; 1; 7]%Z) [];
        ActRecv 2 (RecvFrame [MSG_PIECE; 0; 0; 0; 2; 7]%Z) [] ]
    (Peer_init 1001 2 [1001; 1002; 1003; 1004; 1005]%Z false 8 2 None).

(** A leecher with k = 1 and three interested neighbors (sessions 0 to 2):
    an optimistic cycle unchokes session 2, then a preferred-neighbor cycle
    prefers session 0 and keeps the optimistic session 2. *)
Definition unchoke_example : Peer :=
  run [ ActAccept (mkSocket false false) 1002;
        ActAccept (mkSocket false false) 1003;
        ActAccept (mkSocket false false) 1004;
        ActRecv 0 (RecvFrame [MSG_INTERESTED]) [];
        ActRecv 1 (RecvFrame [MSG_INTERESTED]) [];
        ActRecv 2 (RecvFrame [MSG_INTERESTED]) [];
        ActOptimistic [2];
        ActChoking [] ]
    (Peer_init 1001 1 [1001; 1002; 1003; 1004]%Z false 25 10 None).


(** * Further parts of the program

    ** protocol.py: the handshake *)

(** [b'P2PFILESHARINGPROJ']. *)
Definition HANDSHAKE_HEADER : list Z :=
  [80; 50; 80; 70; 73; 76; 69; 83; 72; 65; 82; 73; 78; 71; 80; 82; 79;
   74]%Z.

Definition create_handshake_message (peer_id : Z) : res (list Z) :=
  let zero_bits := replicate 10 0%Z in
  id_bytes ← pack_I peer_id;
  Ret (HANDSHAKE_HEADER ++ zero_bits ++ id_bytes).

(** [data[a:b]] for [0 <= a <= b]. *)
Definition slice {A} (a b : nat) (data : list A) : list A :=
  take (b - a) (drop a data).

(** [None] stands for Python's [None]. *)
Definition parse_handshake_message (data : list Z) : res (option nat) :=
  if decide (length data ≠ 32) then Ret None
  else
    let header := slice 0 18 data in
    if decide (header ≠ HANDSHAKE_HEADER) then Ret None
    else
      peer_id ← unpack_I (slice 28 32 data);
      Ret (Some peer_id).

(** ** Reading from a socket *)

(** One call of [sock.recv(bufsize)]: the transport hands over at least one
    and at most [bufsize] of the bytes it holds, or the call raises. *)
Inductive recv_outcome : Type :=
  | Deliver (k : nat)     (* up to [k] bytes are ready *)
  | Fail (e : exn).

(** The receiving half of a connection: the bytes that arrive before the
    other end closes, and how the next calls of [recv] turn out (a call past
    the list finds everything asked for). *)
Record Inbound : Type := mkInbound {
  pending : list Z;
  outcomes : list recv_outcome;
}.

(** [sock.recv(bufsize)] for a positive [bufsize]: no bytes at the end of
    the stream. *)
Definition sock_recv (s : Inbound) (bufsize : nat) : Inbound * res (list Z) :=
  match outcomes s with
  | Fail e :: rest => (mkInbound (pending s) rest, Raise e)
  | Deliver k :: rest =>
      let m := Nat.min bufsize (Nat.max 1 k) in
      (mkInbound (drop m (pending s)) rest, Ret (take m (pending s)))
  | [] =>
      (mkInbound (drop bufsize (pending s)) [], Ret (take bufsize (pending s)))
  end.

(** No call of [recv] raises. *)
Definition delivers (s : Inbound) : Prop :=
  Forall (fun o => ∃ k, o = Deliver k) (outcomes s).

(** The loop of [read_n_bytes]; every turn adds at least one byte, so [n]
    turns are enough and [fuel] starts at [n]. *)
Fixpoint read_loop (fuel n : nat) (data : list Z) (s : Inbound)
    : Inbound * res (list Z) :=
  if decide (length data < n) then
    match fuel with
    | 0 => (s, Raise ConnectionError)
    | S fuel' =>
        match sock_recv s (n - length data) with
        | (s', Raise e) => (s', Raise e)
        | (s', Ret []) => (s', Raise ConnectionError)
        | (s', Ret packet) => read_loop fuel' n (data ++ packet) s'
        end
    end
  else (s, Ret data).

Definition read_n_bytes (s : Inbound) (n : nat) : Inbound * res (list Z) :=
  read_loop n n [] s.

(** The two reads of one turn of [message_handler]: the length, then the
    body when the length is positive. *)
Definition read_frame (s : Inbound) : Inbound * recv :=
  match read_n_bytes s 4 with
  | (s1, Raise e) => (s1, RecvError e)
  | (s1, Ret length_bytes) =>
      match unpack_I length_bytes with
      | Raise e => (s1, RecvError e)
      | Ret msg_len =>
          if decide (0 < msg_len) then
            match read_n_bytes s1 msg_len with
            | (s2, Raise e) => (s2, RecvError e)
            | (s2, Ret msg_body) => (s2, RecvFrame msg_body)
            end
          else (s1, RecvFrame [])
      end
  end.

(** The frame [send_message] hands to [sendall]. *)
Definition frame (msg_type : Z) (payload : list Z) : res (list Z) :=
  header ← pack_IB (1 + Z.of_nat (length payload)) msg_type;
  Ret (header ++ payload).

(** A stream that carries the frame of HAVE(7) and one more byte, handed
    over two bytes at a time. *)
Definition have_7_frame : list Z := [0; 0; 0; 5; 4; 0; 0; 0; 7]%Z.
Definition frame_example : Inbound :=
  mkInbound (have_7_frame ++ [9%Z])
    [Deliver 2; Deliver 2; Deliver 2; Deliver 2; Deliver 2].

(** ** The pieces of a file *)

(** The store is set up for a file of positive size cut into pieces of
    positive size, as [FileManager.__init__] does. *)
Definition sized (fm : FileManager) : Prop :=
  (0 < piece_size fm)%Z ∧ (0 < file_size fm)%Z
  ∧ num_pieces fm = Z.to_nat (ceil_div (file_size fm) (piece_size fm))
  ∧ length (bitfield fm) = num_pieces fm.

(** [current_piece_size] of [read_piece]. *)
Definition piece_length (fm : FileManager) (index : nat) : Z :=
  Z.min (piece_size fm) (file_size fm - Z.of_nat index * piece_size fm).

(** The bytes of piece [index] in the contents of a file. *)
Definition piece_of (fm : FileManager) (content : list Z) (index : nat)
    : list Z :=
  take (Z.to_nat (piece_length fm index))
       (drop (Z.to_nat (Z.of_nat index * piece_size fm)) content).

(** Successive calls of [write_piece], whatever each returns. *)
Definition write_all (fm : FileManager) (pieces : list (nat * list Z))
    : FileManager :=
  foldl (fun fm piece => (write_piece fm piece.1 piece.2).1) fm pieces.

(** What a store [fm] that started as [fm0] holds once the pieces [held]
    of [file] were written to it: the dimensions of [fm0], a file no longer
    than [file_size], and for each piece of [held] its bit, no outstanding
    request, and its bytes of [file] at its offset. *)
Definition holds_pieces (fm0 : FileManager) (file : list Z)
    (fm : FileManager) (held : list nat) : Prop :=
  file_size fm = file_size fm0
  ∧ piece_size fm = piece_size fm0
  ∧ num_pieces fm = num_pieces fm0
  ∧ length (bitfield fm) = num_pieces fm0
  ∧ ∃ content,
      disk fm = Some content
      ∧ length content ≤ Z.to_nat (file_size fm0)
      ∧ ∀ i, i ∈ held →
          bitfield fm !! i = Some 1%Z
          ∧ (i ∉ requested_pieces fm)
          ∧ ∀ k, k < Z.to_nat (piece_length fm0 i) →
              content !! (Z.to_nat (Z.of_nat i * piece_size fm0) + k)
              = file !! (Z.to_nat (Z.of_nat i * piece_size fm0) + k).

(** Two states that look the same through [view]. *)
Definition same_view {A} (view : Peer → A) : relation Peer :=
  fun p q => view q = view p.

(** What a peer decided about its neighbors: per session object, whether
    it chokes it and whether it marked it as optimistically unchoked. *)
Definition choke_decisions (p : Peer) : list (bool * option bool) :=
  (fun s => (am_choking s, is_optimistic s)) <$> sessions p.

(** The interval counters, per session object. *)
Definition interval_counters (p : Peer) : list Z :=
  downloaded_bytes_interval <$> sessions p.

(** The frames of NOT_INTERESTED and of UNCHOKE and CHOKE. *)
Definition not_interested_frame : list Z := [0; 0; 0; 1; 3]%Z.
Definition unchoke_frame : list Z := [0; 0; 0; 1; 1]%Z.
Definition choke_frame : list Z := [0; 0; 0; 1; 0]%Z.

(** What a stored piece changes besides the store: the file on disk, the
    local bitmap and the interval counters. *)
Definition transfer_view (p : Peer) : option (list Z) * list Z * list Z :=
  (disk (file_manager p), bitfield (file_manager p), interval_counters p).

(** The header of a HAVE frame: length 5, type 4. *)
Definition have_header : list Z := [0; 0; 0; 5; 4]%Z.

(** The state after the events [tr] were appended to the trace. *)
Definition emits (tr : list event) (p : Peer) : Peer :=
  foldl (fun p e => emit e p) p tr.

(** Whether the socket of a session takes a [sendall]. *)
Definition sendable (s : PeerConnection) : bool :=
  negb (sock_closed (socket s) || sock_broken (socket s)).

(** What a preferred-neighbor cycle decides for the session [c], given
    the preferred sessions: the new [am_choking] flag, and the frame the
    decision sends, if any. *)
Definition choke_flag (preferred : list nat) (c : nat)
    (s : PeerConnection) : bool :=
  if decide (c ∈ preferred) then false
  else am_choking s || negb (default false (is_optimistic s)).

Definition choke_frames (preferred : list nat) (c : nat)
    (s : PeerConnection) : list event :=
  if decide (c ∈ preferred) then
    if am_choking s then [EvSendall c unchoke_frame (sendable s)] else []
  else
    if negb (am_choking s) && negb (default false (is_optimistic s))
    then [EvSendall c choke_frame (sendable s)] else [].

(** ** Establishing sessions *)

(** [try: body / except Exception: handler]; [SystemExit] is not an
    [Exception] and passes through. *)
Definition try_except {A} (body : M A) (handler : exn → M A) : M A :=
  fun p =>
    match body p with
    | (p', Ret a) => (p', Ret a)
    | (p', Raise (SystemExit code)) => (p', Raise (SystemExit code))
    | (p', Raise e) => handler e p'
    end.

(** What [socket.connect] gives a dialer: an exception, or a socket and
    the stream the other end sends on it. *)
Inductive dial_result : Type :=
  | DialError (e : exn)
  | DialOpen (sock : Socket) (inbound : Inbound).

(** [connect_to_peer(target_peer)] for the target with identifier
    [target].  The result is the session whose receive loop was started,
    if any; the messages printed on failure are not modelled. *)
Definition connect_to_peer (target : Z) (d : dial_result)
    : M (option nat) :=
  try_except
    (p ← get_peer;
     opened ← lift (match d with
                    | DialError e => Raise e
                    | DialOpen s inbound => Ret (s, inbound)
                    end);
     handshake_msg ← lift (create_handshake_message (peer_id p));
     s ← lift (sendall opened.1 handshake_msg);
     response ← lift (read_n_bytes opened.2 32).2;
     neighbor_id ← lift (parse_handshake_message response);
     if decide (Z.of_nat <$> neighbor_id ≠ Some target) then
       mret None                              (* s.close(); return *)
     else
       _ ← log (log_tcp_connect target);
       c ← register_connection s target;
       mret (Some c))
    (fun _ => mret None).


(** The loop of [connect_to_predecessors] over [self.config.peers];
    [dials] tells what the connect to each target gives. *)
Fixpoint connect_to_predecessors_loop (peers : list Z)
    (dials : Z → dial_result) : M unit :=
  match peers with
  | [] => mret tt
  | peer :: rest =>
      p ← get_peer;
      if decide (peer = peer_id p) then mret tt           (* break *)
      else
        _ ← connect_to_peer peer (dials peer);
        connect_to_predecessors_loop rest dials
  end.

Definition connect_to_predecessors (dials : Z → dial_result) : M unit :=
  p ← get_peer;
  connect_to_predecessors_loop (config_peers p) dials.

(** The entries of a list that stand before the first [x]. *)
Fixpoint before {A} `{EqDecision A} (x : A) (xs : list A) : list A :=
  match xs with
  | [] => []
  | y :: ys => if decide (y = x) then [] else y :: before x ys
  end.

(** A socket that takes a [sendall]. *)
Definition open_socket : Socket := mkSocket false false.

(** A fresh leecher 1002 of a three-piece file, configured after peer
    1001, and the stream on which peer 1001 sends its handshake in pieces
    of 20 and 12 bytes. *)
Definition dialer_example : Peer :=
  Peer_init 1002 1 [1001; 1002]%Z false 25 10 None.

Definition handshake_1001 : list Z :=
  HANDSHAKE_HEADER ++ replicate 10 0%Z ++ [0; 0; 3; 233]%Z.

Definition answer_example : Inbound :=
  mkInbound handshake_1001 [Deliver 20; Deliver 12].

(** The registry and the neighbor each session object was created for. *)
Definition registry_view (p : Peer) : list (Z * nat) * list Z :=
  (connections p, neighbor_id <$> sessions p).

(** The registry names every neighbor once, no two neighbors share a
    session object, and the session of a neighbor was created for it. *)
Definition registry_sound (p : Peer) : Prop :=
  NoDup (connections p).*1
  ∧ NoDup (dict_values (connections p))
  ∧ ∀ nid c, (nid, c) ∈ connections p →
      ∃ s, sessions p !! c = Some s ∧ neighbor_id s = nid.

(** ** Threads inside a turn

    [perform] runs a turn of a loop in one piece.  The source does not:
    the handler threads share the piece store without a lock, and
    [termination_check_loop] releases [connections_lock] before it compares
    the session count.  The definitions below cut the two methods at the
    places where another thread can run in between. *)

(** *** [request_piece] around its choice *)

(** [request_piece] up to [idx = random.choice(available_pieces)]: the
    index chosen, if there is one.  Nothing is written. *)
Definition request_piece_choice (draws : list nat) (c : nat)
    : M (option nat) :=
  p ← get_peer;
  s ← conn c;
  let nb := neighbor_bitfield s in
  avail ← lift (available_pieces (file_manager p) nb (seq 0 (length nb)));
  if decide (avail = []) then mret None else mret (choice avail draws).

(** [request_piece] from [self.file_manager.requested_pieces.add(idx)]
    on. *)
Definition request_piece_send (c : nat) (chosen : option nat) : M unit :=
  match chosen with
  | None => mret tt
  | Some idx =>
      _ ← modify (fun p =>
            set_file_manager
              (set_requested_pieces
                 ({[idx]} ∪ requested_pieces (file_manager p))
                 (file_manager p)) p);
      payload ← lift (pack_I (Z.of_nat idx));
      send c MSG_REQUEST payload
  end.

(** The UNCHOKE branch of [process_message] up to the choice made by
    [request_piece]. *)
Definition on_unchoke_choice (draws : list nat) (c : nat)
    : M (option nat) :=
  s ← conn c;
  _ ← log (log_unchoked (neighbor_id s));
  _ ← update_conn c (set_peer_choking false);
  request_piece_choice draws c.

(** The handler thread of session [c] processes an UNCHOKE message; the
    turns [others] of other threads run between the choice of
    [request_piece] and its [add]. *)
Definition interleaved_unchoke (draws : list nat) (c : nat)
    (others : list action) : M unit := fun p =>
  match on_unchoke_choice draws c p with
  | (p1, Ret chosen) => request_piece_send c chosen (run others p1)
  | (p1, Raise e) => (p1, Raise e)
  end.

(** *** The termination detector between its tests *)

(** Where the thread of [termination_check_loop] stands: in [time.sleep]
    or at the test of the loop; past the local test, in front of
    [with self.connections_lock]; in the loop over
    [self.connections.values()], holding the lock; past the release of the
    lock, in front of the comparison of [len(self.connections)].
    [registry] is the sequence of sessions the loop was started on, [todo]
    what is left of it, and [seen] the sessions visited so far, latest
    first, each with the neighbor bitmap it had when it was visited. *)
Inductive detector : Type :=
  | Sleeping
  | Entering
  | Looping (registry todo : list nat) (seen : list (nat * list Z))
  | Counting (registry : list nat) (seen : list (nat * list Z)).

(** [sum(c.neighbor_bitfield) < self.file_manager.num_pieces]. *)
Definition neighbor_short (p : Peer) (c : nat) : bool :=
  (sum_list (neighbor_bitfield (sessions p !!! c))
   <? Z.of_nat (num_pieces (file_manager p)))%Z.

(** The next step of the thread of [termination_check_loop]. *)
Definition detector_step (p : Peer) (d : detector) : Peer * detector :=
  match d with
  | Sleeping =>
      if running p then
        let p1 := emit (EvCheck CheckLocalComplete) p in
        if negb (has_complete_file (file_manager p))
        then (p1, Sleeping)                                  (* continue *)
        else (p1, Entering)
      else (p, Sleeping)
  | Entering =>
      (emit (EvCheck CheckNeighborsComplete) (emit EvAcquire p),
       Looping (dict_values (connections p))
               (dict_values (connections p)) [])
  | Looping registry (c :: todo) seen =>
      if neighbor_short p c
      then (emit EvRelease p, Sleeping)                      (* break *)
      else (p, Looping registry todo
                 ((c, neighbor_bitfield (sessions p !!! c)) :: seen))
  | Looping registry [] seen => (emit EvRelease p, Counting registry seen)
  | Counting registry seen =>
      let p1 := emit (EvCheck CheckSessionCount) p in
      if session_count_ok p then ((shutdown p1).1, Sleeping)
      else (p1, Sleeping)
  end.

(** A change of state another thread makes in one step: one of the
    elementary changes of the methods other than the exit, or the [add] of
    [request_piece], whatever the store holds by then. *)
Inductive elementary (p : Peer) : Peer → Prop :=
  | elementary_tau q : tau false (fun _ => True) p q → elementary p q
  | elementary_add idx :
      elementary p
        (set_file_manager
           (set_requested_pieces
              ({[idx]} ∪ requested_pieces (file_manager p))
              (file_manager p)) p).

(** The threads of a peer, step by step: the detector makes its next step
    or another thread makes one of its own. *)
Inductive thread_step : relation (Peer * detector) :=
  | step_other p q d : elementary p q → thread_step (p, d) (q, d)
  | step_detector p d : thread_step (p, d) (detector_step p d).

Definition thread_reachable (t : Peer * detector) : Prop :=
  ∃ pid k peers has_file fsize psize seed_file,
    rtc thread_step
      (Peer_init pid k peers has_file fsize psize seed_file, Sleeping) t.

(** Schedules that can be run: a whole turn of another loop, or the next
    step of the detector. *)
Inductive move : Type :=
  | Turn (a : action)
  | Poll.

Definition make_move (t : Peer * detector) (m : move) : Peer * detector :=
  match m with
  | Turn a => (perform a t.1, t.2)
  | Poll => detector_step t.1 t.2
  end.

Definition schedule (moves : list move) (t : Peer * detector)
    : Peer * detector :=
  foldl make_move t moves.



(** *** Concrete schedules *)

(** A leecher of a three-piece file whose neighbors 1002 and 1003
    (sessions 0 and 1) both announced piece 1. *)
Definition two_sources_example : Peer :=
  run [ ActAccept open_socket 1002;
        ActAccept open_socket 1003;
        ActRecv 0 (RecvFrame [MSG_BITFIELD; 64]%Z) [];
        ActRecv 1 (RecvFrame [MSG_BITFIELD; 64]%Z) [] ]
    (Peer_init 1001 1 [1001; 1002; 1003]%Z false 25 10 None).

(** The body of the PIECE message that carries piece 1. *)
Definition piece_1_message : list Z :=
  MSG_PIECE :: [0; 0; 0; 1]%Z ++ replicate 10 7%Z.

(** The frame of REQUEST for piece 1: length 5, type 6, index 1. *)
Definition request_1_frame : list Z := [0; 0; 0; 5; 6; 0; 0; 0; 1]%Z.

(** Neighbor 1003 unchokes the leecher and serves the piece it is asked
    for. *)
Definition served_by_1003 : list action :=
  [ ActRecv 1 (RecvFrame [MSG_UNCHOKE]) [];
    ActRecv 1 (RecvFrame piece_1_message) [] ].

(** Both neighbors unchoke the leecher; the handler of session 0 has chosen
    piece 1 when the handler of session 1 runs, requests the piece and
    stores it; then the handler of session 0 goes on. *)
Definition race_example : Peer :=
  (interleaved_unchoke [] 0 served_by_1003 two_sources_example).1.

(** The frames sent on a session, in order. *)
Definition sent_on (c : nat) (p : Peer) : list (list Z) :=
  omap (fun e => match e with
                 | EvSendall c' data true =>
                     if decide (c' = c) then Some data else None
                 | _ => None
                 end) (trace p).








(** * Reasoning about the methods *)

Ltac res_simpl :=
  unfold mbind, res_bind, mret, res_ret; cbv beta iota.

Ltac run_M :=
  unfold mbind, M_bind, mret, M_ret, conn, lift, log, checkpoint,
    update_conn, modify, get_peer; cbv beta iota.

Lemma has_piece_lookup (fm : FileManager) (i : nat) :
  i < length (bitfield fm) →
  has_piece fm i = Ret (bool_decide (bitfield fm !! i = Some 1%Z)).
Proof.
  intros Hi. unfold has_piece, list_get.
  destruct (lookup_lt_is_Some_2 _ _ Hi) as [b Hb]. rewrite Hb.
  unfold mbind, res_bind. f_equal. apply bool_decide_ext. naive_solver.
Qed.

Lemma set_socket_id (c : PeerConnection) : set_socket (socket c) c = c.
Proof. by destruct c. Qed.

Lemma pack_IB_ok (n b : Z) :
  (0 ≤ n < 2 ^ 32)%Z → (0 ≤ b ≤ 255)%Z →
  ∃ header, pack_IB n b = Ret header ∧ length header = 5.
Proof.
  intros Hn Hb. unfold pack_IB, pack_I.
  rewrite decide_True by done. unfold mbind, res_bind.
  rewrite decide_True by done. eexists. split; [reflexivity|done].
Qed.

Lemma send_message_result (c : PeerConnection) (msg_type : Z)
    (payload header : list Z) :
  pack_IB (1 + Z.of_nat (length payload)) msg_type = Ret header →
  send_message c msg_type payload
  = Ret (c, (header ++ payload,
             negb (sock_closed (socket c) || sock_broken (socket c)))).
Proof.
  intros E. unfold send_message. rewrite E. unfold mbind, res_bind, sendall.
  destruct (sock_closed (socket c) || sock_broken (socket c)); [done|].
  by rewrite set_socket_id.
Qed.

Lemma emit_unchanged (e : event) (p : Peer) :
  sessions (emit e p) = sessions p
  ∧ connections (emit e p) = connections p
  ∧ file_manager (emit e p) = file_manager p
  ∧ running (emit e p) = running p.
Proof. done. Qed.

Lemma set_sessions_id (p : Peer) : set_sessions (sessions p) p = p.
Proof. by destruct p. Qed.

Lemma insert_lookup_total_id (ss : list PeerConnection) (c : nat) :
  <[c:=ss !!! c]> ss = ss.
Proof.
  destruct (decide (c < length ss)) as [H|H].
  - apply list_insert_id. destruct (lookup_lt_is_Some_2 ss c H) as [x Hx].
    by rewrite (list_lookup_total_correct _ _ _ Hx).
  - apply list_insert_ge. lia.
Qed.

Lemma send_result (c : nat) (msg_type : Z) (payload header : list Z)
    (p : Peer) :
  pack_IB (1 + Z.of_nat (length payload)) msg_type = Ret header →
  send c msg_type payload p
  = (emit (EvSendall c (header ++ payload)
             (negb (sock_closed (socket (sessions p !!! c))
                    || sock_broken (socket (sessions p !!! c))))) p,
     Ret tt).
Proof.
  intros E. unfold send, conn, lift, modify, mbind, M_bind.
  rewrite (send_message_result _ _ _ _ E). cbn [fst snd].
  by rewrite insert_lookup_total_id, set_sessions_id.
Qed.


(** ** Sequencing inside a preorder on states *)

Section Sequencing.

Variable R : relation Peer.
Context `{!PreOrder R}.

Lemma bind_at {A B} (m : M A) (f : A → M B) (p : Peer) :
    R p (m p).1 →
    (∀ a, (m p).2 = Ret a → R (m p).1 (f a (m p).1).1) →
    R p ((m ≫= f) p).1.
  Proof.
    unfold mbind, M_bind. destruct (m p) as [p' [a|e]]; cbn [fst snd].
    - intros H1 H2. etrans; [exact H1|]. by apply H2.
    - by intros.
  Qed.

Lemma preserves_bind {A B} (m : M A) (f : A → M B) :
    preserves R m → (∀ a, preserves R (f a)) → preserves R (m ≫= f).
  Proof. intros Hm Hf p. apply bind_at; [apply Hm|]. intros a _. apply Hf. Qed.

Lemma preserves_ret {A} (a : A) : preserves R (mret a).
  Proof. intros p. reflexivity. Qed.

Lemma preserves_lift {A} (r : res A) : preserves R (lift r).
  Proof. intros p. reflexivity. Qed.

Lemma preserves_get_peer : preserves R get_peer.
  Proof. intros p. reflexivity. Qed.

Lemma preserves_conn (c : nat) : preserves R (conn c).
  Proof. intros p. reflexivity. Qed.

Lemma preserves_get_bind {B} (f : Peer → M B) :
    (∀ p, R p (f p p).1) → preserves R (get_peer ≫= f).
  Proof. intros H p. apply H. Qed.

Lemma preserves_for_in {A} (xs : list A) (body : A → M unit) :
    (∀ x, preserves R (body x)) → preserves R (for_in xs body).
  Proof.
    intros H. induction xs as [|x xs IH]; cbn [for_in].
    - apply preserves_ret.
    - apply preserves_bind; [apply H|]. by intros _.
  Qed.

Hypothesis R_emit : ∀ e p, R p (emit e p).

Lemma preserves_log (l : log_line) : preserves R (log l).
  Proof using R_emit. intros p. apply R_emit. Qed.

Lemma preserves_checkpoint (w : check) : preserves R (checkpoint w).
  Proof using R_emit. intros p. apply R_emit. Qed.

Lemma preserves_with_lock {A} (m : M A) :
    preserves R m → preserves R (with_lock m).
  Proof using R_emit PreOrder0.
    intros H p. unfold with_lock.
    specialize (H (emit EvAcquire p)).
    destruct (m (emit EvAcquire p)) as [p' r]. cbn [fst] in *.
    etrans; [apply R_emit|]. etrans; [exact H|]. apply R_emit.
  Qed.

Lemma preserves_send (c : nat) (msg_type : Z) (payload : list Z) :
    preserves R (send c msg_type payload).
  Proof using R_emit PreOrder0.
    intros p. unfold send. run_M. unfold send_message.
    destruct (pack_IB _ _) as [header|e]; res_simpl; [|reflexivity].
    unfold sendall.
    destruct (sock_closed _ || sock_broken _); cbn [fst snd];
      rewrite ?set_socket_id, insert_lookup_total_id, set_sessions_id;
      apply R_emit.
  Qed.

End Sequencing.

(** ** Every method is a sequence of elementary changes *)

Section Elementary.

Variable stop : bool.
Variable allow : nat → Prop.

Local Abbreviation steps := (rtc (tau stop allow)).

Lemma steps_emit e p : steps p (emit e p).
  Proof. apply rtc_once, tau_emit. Qed.

Lemma preserves_update_conn (c : nat)
      (f : PeerConnection → PeerConnection) :
    (∀ s, neighbor_bitfield (f s) = neighbor_bitfield s) →
    preserves steps (update_conn c f).
  Proof. intros Hf p. by apply rtc_once, tau_update. Qed.

End Elementary.

Ltac pres_side :=
  lazymatch goal with
  | |- PreOrder _ => apply rtc_po
  | |- ∀ e p, rtc _ p (emit e p) => intros; apply steps_emit
  | |- _ => idtac
  end.

Ltac pres_step :=
  lazymatch goal with
  | |- preserves _ (mret _) => apply preserves_ret
  | |- preserves _ (lift _) => apply preserves_lift
  | |- preserves _ get_peer => apply preserves_get_peer
  | |- preserves _ (conn _) => apply preserves_conn
  | |- preserves _ (log _) => apply preserves_log
  | |- preserves _ (checkpoint _) => apply preserves_checkpoint
  | |- preserves _ (send _ _ _) => apply preserves_send
  | |- preserves _ (update_conn _ _) =>
      apply preserves_update_conn; intros ?; reflexivity
  | |- preserves _ (with_lock _) => apply preserves_with_lock
  | |- preserves _ (for_in _ _) => apply preserves_for_in; [ | intros ? ]
  | |- preserves _ (mbind _ _) => apply preserves_bind; [ | | intros ? ]
  | |- preserves _ (if ?b then _ else _) => destruct b
  | |- preserves _ (match ?x with _ => _ end) => destruct x
  end;
  pres_side.

Ltac pres := repeat pres_step.

(** From a goal about one state back to a goal about the method. *)
Ltac as_method :=
  match goal with
  | |- ?R ?q (?m ?q).1 => generalize q; change (preserves R m)
  end.

Ltac seq_at := apply bind_at; pres_side.

Section Methods.

Variable stop : bool.
Variable allow : nat → Prop.

Local Abbreviation steps := (rtc (tau stop allow)).

Lemma check_interest_steps c : preserves steps (check_interest c).
  Proof. unfold check_interest. pres. Qed.

Lemma available_pieces_spec fm nb idxs l :
    available_pieces fm nb idxs = Ret l →
    ∀ i, i ∈ l →
      i ∈ idxs ∧ nb !! i = Some 1%Z ∧ has_piece fm i = Ret false
      ∧ i ∉ requested_pieces fm.
  Proof.
    revert l. induction idxs as [|k idxs IH]; intros l; cbn [available_pieces].
    { intros [= <-] i Hi. by apply elem_of_nil in Hi. }
    unfold list_get. destruct (nb !! k) as [x|] eqn:Ex; res_simpl; [|done].
    destruct (decide (x = 1%Z)) as [->|Hx]; res_simpl.
    - destruct (has_piece fm k) as [h|] eqn:Eh; [|done].
      destruct (available_pieces fm nb idxs) as [tl|] eqn:Etl; [|done].
      intros [= <-] i Hi.
      destruct h; cbn [negb andb] in Hi.
      + destruct (IH tl eq_refl i Hi) as (? & ? & ? & ?).
        repeat split; [by right|done..].
      + case_bool_decide as Hr; cbn [andb] in Hi.
        * apply elem_of_cons in Hi as [->|Hi].
          { repeat split; [left|done..]. }
          destruct (IH tl eq_refl i Hi) as (? & ? & ? & ?).
          repeat split; [by right|done..].
        * destruct (IH tl eq_refl i Hi) as (? & ? & ? & ?).
          repeat split; [by right|done..].
    - destruct (available_pieces fm nb idxs) as [tl|] eqn:Etl; [|done].
      intros [= <-] i Hi.
      destruct (IH tl eq_refl i Hi) as (? & ? & ? & ?).
      repeat split; [by right|done..].
  Qed.

Lemma choice_elem {A} (xs : list A) draws x :
    choice xs draws = Some x → x ∈ xs.
  Proof. unfold choice. apply list_elem_of_lookup_2. Qed.

Lemma request_piece_steps draws c : preserves steps (request_piece draws c).
  Proof.
    unfold request_piece. intros p.
    apply bind_at; pres_side; [reflexivity|]. intros p0 [= <-].
    apply bind_at; pres_side; [reflexivity|]. intros s _.
    apply bind_at; pres_side; [reflexivity|].
    intros avail Ha. cbn [get_peer conn lift fst snd] in *.
    case_decide; [reflexivity|].
    destruct (choice avail draws) as [idx|] eqn:Ec; [|reflexivity].
    apply choice_elem in Ec.
    destruct (available_pieces_spec _ _ _ _ Ha idx Ec) as (_ & _ & Hh & Hr).
    apply bind_at; pres_side.
    { apply rtc_once. by apply tau_request. }
    intros _ _.
    as_method. pres.
  Qed.

Lemma on_choke_steps c : preserves steps (on_choke c).
  Proof. unfold on_choke. pres. Qed.

Lemma on_unchoke_steps draws c : preserves steps (on_unchoke draws c).
  Proof. unfold on_unchoke. pres. apply request_piece_steps. Qed.

Lemma on_interested_steps c : preserves steps (on_interested c).
  Proof. unfold on_interested. pres. Qed.

Lemma on_not_interested_steps c : preserves steps (on_not_interested c).
  Proof. unfold on_not_interested. pres. Qed.

Lemma on_have_steps c payload : preserves steps (on_have c payload).
  Proof.
    unfold on_have. intros p.
    seq_at; [reflexivity|]. intros s [= <-].
    seq_at; [reflexivity|]. intros i _.
    seq_at; [apply steps_emit|]. intros _ _.
    seq_at; [reflexivity|]. intros nb Hnb.
    cbn [conn lift log modify fst snd] in *.
    unfold list_set in Hnb. case_decide as Hi; [|done].
    injection Hnb as <-.
    seq_at.
    { apply rtc_once. refine (tau_have _ _ (emit _ p) c i _). exact Hi. }
    intros _ _. as_method. pres.
  Qed.

Lemma on_bitfield_steps c payload :
    allow c → preserves steps (on_bitfield c payload).
  Proof.
    intros Hc. unfold on_bitfield. intros p.
    seq_at; [reflexivity|]. intros p0 [= <-].
    seq_at.
    { apply rtc_once. by apply tau_bitfield. }
    intros _ _. as_method. pres.
  Qed.

Lemma on_request_steps c payload : preserves steps (on_request c payload).
  Proof. unfold on_request. pres. Qed.

Lemma broadcast_have_steps payload : preserves steps (broadcast_have payload).
  Proof. unfold broadcast_have. pres. apply check_interest_steps. Qed.

Lemma on_piece_steps draws c payload :
    preserves steps (on_piece draws c payload).
  Proof.
    unfold on_piece. intros p.
    seq_at; [reflexivity|]. intros s _.
    seq_at; [reflexivity|]. intros i _.
    seq_at; [reflexivity|]. intros p0 [= <-].
    cbn [conn lift get_peer fst snd].
    pose proof (tau_write stop allow p i (drop 4 payload)) as Hw.
    destruct (write_piece (file_manager p) i (drop 4 payload)) as [fm' r].
    seq_at; [by apply rtc_once|].
    intros _ _. as_method.
    pres; first [apply broadcast_have_steps | apply request_piece_steps].
  Qed.

Lemma process_message_steps draws c msg_type payload :
    (msg_type = MSG_BITFIELD → allow c) →
    preserves steps (process_message draws c msg_type payload).
  Proof.
    intros Hc. unfold process_message.
    repeat case_decide;
      first [ apply on_choke_steps | apply on_unchoke_steps
            | apply on_interested_steps | apply on_not_interested_steps
            | apply on_have_steps | apply on_bitfield_steps; auto
            | apply on_request_steps | apply on_piece_steps | pres ].
  Qed.

Lemma close_conn_steps c : preserves steps (close_conn c).
  Proof.
    unfold close_conn. pres. intros p. apply steps_emit.
  Qed.

Lemma leave_handler_steps c raised :
    preserves steps (leave_handler c raised).
  Proof.
    unfold leave_handler. pres; apply close_conn_steps.
  Qed.

Lemma message_handler_steps c input :
    (∀ payload draws,
       (RecvFrame (MSG_BITFIELD :: payload), draws) ∈ input → allow c) →
    preserves steps (message_handler c input).
  Proof.
    induction input as [|[item draws] rest IH]; cbn [message_handler];
      intros Hc.
    { pres. }
    assert (IH' : preserves steps (message_handler c rest)).
    { apply IH. intros payload draws' Hin. eapply Hc. right. exact Hin. }
    clear IH. rename IH' into IH.
    intros p. destruct (running p); [|apply leave_handler_steps].
    destruct item as [[|msg_type payload]|e].
    - apply IH.
    - assert (H : steps p (process_message draws c msg_type payload p).1).
      { apply process_message_steps. intros ->. eapply Hc. left. }
      destruct (process_message draws c msg_type payload p) as [p' [[]|e]];
        cbn [fst] in H.
      + etrans; [exact H|]. apply IH.
      + etrans; [exact H|]. apply leave_handler_steps.
    - apply leave_handler_steps.
  Qed.

Lemma register_connection_steps sock nid :
    preserves steps (register_connection sock nid).
  Proof.
    unfold register_connection. intros p.
    seq_at; [reflexivity|]. intros p0 [= <-].
    seq_at.
    { apply rtc_once. apply tau_new_session. }
    intros _ _.
    seq_at.
    { unfold with_lock, modify. cbn [fst snd].
      etrans; [apply steps_emit|]. etrans; [|apply steps_emit].
      apply rtc_once. apply tau_register.
      cbn [sessions emit set_sessions]. rewrite length_app. simpl. lia. }
    intros _ _. as_method. pres.
  Qed.

Lemma apply_choke_steps preferred c :
    preserves steps (apply_choke preferred c).
  Proof. unfold apply_choke. pres. Qed.

Lemma choking_timer_turn_steps draws : preserves steps (choking_timer_turn draws).
  Proof.
    unfold choking_timer_turn. pres. apply apply_choke_steps.
  Qed.

Lemma optimistic_unchoking_timer_turn_steps draws :
    preserves steps (optimistic_unchoking_timer_turn draws).
  Proof. unfold optimistic_unchoking_timer_turn. pres. Qed.

End Methods.

Lemma tau_mono (stop : bool) (allow allow' : nat → Prop) (p q : Peer) :
  (∀ c, allow c → allow' c) → tau false allow p q → tau stop allow' p q.
Proof.
  intros Ha.
  destruct 1;
    [ apply tau_emit | by apply tau_update | by apply tau_have
    | apply tau_bitfield; auto | apply tau_write | by apply tau_request
    | apply tau_new_session | by apply tau_register | apply tau_server
    | done ].
Qed.

Lemma steps_mono (stop : bool) (allow allow' : nat → Prop) (p q : Peer) :
  (∀ c, allow c → allow' c) →
  rtc (tau false allow) p q → rtc (tau stop allow') p q.
Proof. intros Ha. apply rtc_subrel. intros ? ?. by apply tau_mono. Qed.

Lemma shutdown_steps (allow : nat → Prop) :
  preserves (rtc (tau true allow)) shutdown.
Proof.
  unfold shutdown. pres; try (apply close_conn_steps).
  - intros p. apply rtc_once. by apply tau_stop.
  - intros p. cbn [modify fst]. etrans; [|apply steps_emit].
    apply rtc_once. apply tau_server.
Qed.

Lemma termination_check_loop_turn_steps (allow : nat → Prop) :
  preserves (rtc (tau true allow)) termination_check_loop_turn.
Proof. unfold termination_check_loop_turn. pres. apply shutdown_steps. Qed.

(** Every action but a poll of the termination detector is a sequence of
    elementary changes without those of a shutdown. *)
Lemma perform_steps (allow : nat → Prop) (a : action) (p : Peer) :
  a ≠ ActTermination →
  (∀ c payload draws,
     a = ActRecv c (RecvFrame (MSG_BITFIELD :: payload)) draws → allow c) →
  rtc (tau false allow) p (perform a p).
Proof.
  intros Ha Hc. destruct a; cbn [perform]; try done.
  - apply rtc_once, tau_server.
  - as_method. pres. apply register_connection_steps.
  - as_method. pres. apply register_connection_steps.
  - apply message_handler_steps.
    intros payload draws' [E|[]%elem_of_nil]%elem_of_cons.
    injection E as <- <-. by eapply Hc.
  - apply choking_timer_turn_steps.
  - apply optimistic_unchoking_timer_turn_steps.
  - apply rtc_once, tau_update. by intros [].
Qed.

Lemma perform_steps_any (a : action) (p : Peer) :
  rtc (tau true (fun _ => True)) p (perform a p).
Proof.
  destruct (decide (a = ActTermination)) as [->|Ha].
  - apply termination_check_loop_turn_steps.
  - apply (steps_mono true (fun _ => True)); [done|].
    by apply perform_steps.
Qed.

(** * The bitfield encoding *)

Section Bitfield.

Lemma ceil_div_8 (n : nat) :
    Z.to_nat (ceil_div (Z.of_nat n) 8) = (n + 7) / 8.
  Proof.
    unfold ceil_div.
    assert (H : (- (- Z.of_nat n / 8) = Z.of_nat ((n + 7) / 8))%Z).
    { rewrite Nat2Z.inj_div, Nat2Z.inj_add. simpl Z.of_nat.
      pose proof (Z.div_mod (- Z.of_nat n) 8 ltac:(lia)) as H1.
      pose proof (Z.mod_pos_bound (- Z.of_nat n) 8 ltac:(lia)) as H2.
      pose proof (Z.div_mod (Z.of_nat n + 7) 8 ltac:(lia)) as H3.
      pose proof (Z.mod_pos_bound (Z.of_nat n + 7) 8 ltac:(lia)) as H4.
      lia. }
    rewrite H. apply Nat2Z.id.
  Qed.

Lemma byte_index_lt (n i : nat) : i < n → i / 8 < (n + 7) / 8.
  Proof.
    intros Hi.
    pose proof (Nat.div_mod_eq i 8) as H1.
    pose proof (Nat.mod_upper_bound i 8 ltac:(lia)) as H2.
    pose proof (Nat.div_mod_eq (n + 7) 8) as H3.
    pose proof (Nat.mod_upper_bound (n + 7) 8 ltac:(lia)) as H4.
    lia.
  Qed.

Lemma bit_offset_range (i : nat) : (0 ≤ 7 - Z.of_nat (i mod 8) ≤ 7)%Z.
  Proof. pose proof (Nat.mod_upper_bound i 8 ltac:(lia)). lia. Qed.


Lemma testbit_set_bit (old o b : Z) :
    (0 ≤ o)%Z → (0 ≤ b)%Z →
    Z.testbit (Z.lor old (Z.shiftl 1 o)) b
    = Z.testbit old b || bool_decide (o = b).
  Proof.
    intros Ho Hb. rewrite Z.lor_spec, Z.shiftl_1_l, Z.pow2_bits_eqb by lia.
    f_equal. case_bool_decide; lia.
  Qed.

Lemma set_bit_range (old o : Z) :
    (0 ≤ old < 256)%Z → (0 ≤ o ≤ 7)%Z →
    (0 ≤ Z.lor old (Z.shiftl 1 o) < 256)%Z.
  Proof.
    intros Hold Ho.
    assert (Hs : (0 < Z.shiftl 1 o < 256)%Z).
    { rewrite Z.shiftl_1_l. split; [apply Z.pow_pos_nonneg; lia|].
      change 256%Z with (2 ^ 8)%Z. apply Z.pow_lt_mono_r; lia. }
    split; [apply Z.lor_nonneg; lia|].
    change 256%Z with (2 ^ 8)%Z.
    apply Z.log2_lt_pow2.
    - assert (0 ≤ Z.lor old (Z.shiftl 1 o))%Z by (apply Z.lor_nonneg; lia).
      destruct (decide (Z.lor old (Z.shiftl 1 o) = 0%Z)) as [E|]; [|lia].
      apply Z.lor_eq_0_iff in E. lia.
    - rewrite Z.log2_lor by lia.
      apply Z.max_lub_lt.
      + destruct (decide (old = 0%Z)) as [->|]; [simpl; lia|].
        apply Z.log2_lt_pow2; lia.
      + apply Z.log2_lt_pow2; lia.
  Qed.

Lemma test_shifted_bit (byte o : Z) :
    (0 ≤ o)%Z →
    Z.land (Z.shiftr byte o) 1 = 0%Z ↔ Z.testbit byte o = false.
  Proof.
    intros Ho.
    change 1%Z with (Z.ones 1). rewrite Z.land_ones by lia.
    change (2 ^ 1)%Z with 2%Z. rewrite <- Z.bit0_mod.
    rewrite Z.shiftr_spec by lia. rewrite Z.add_0_l.
    destruct (Z.testbit byte o); simpl; split; intros; congruence.
  Qed.

Variable bits : list Z.

  (** The packing loop: it does not raise inside the bitmap, keeps the
      number of bytes, keeps bytes in range, and sets the bit of every piece
      it finds held. *)
Lemma pack_loop (idxs : list nat) (bf : list Z) :
    (∀ i, i ∈ idxs → i < length bits ∧ i / 8 < length bf) →
    ∃ bf',
      for_each (pack_bit bits) idxs bf = Ret bf'
      ∧ length bf' = length bf
      ∧ (Forall (fun x => 0 ≤ x < 256)%Z bf →
         Forall (fun x => 0 ≤ x < 256)%Z bf')
      ∧ ∀ (j : nat) (b : Z), (0 ≤ b)%Z →
          Z.testbit (default 0%Z (bf' !! j)) b = true ↔
          Z.testbit (default 0%Z (bf !! j)) b = true
          ∨ ∃ i, i ∈ idxs ∧ i / 8 = j ∧ (7 - Z.of_nat (i mod 8))%Z = b
                 ∧ bits !! i = Some 1%Z.
  Proof.
    revert bf. induction idxs as [|i idxs IH]; intros bf Hin.
    { exists bf. repeat split; auto.
      intros [|(i & Hi & _)]; [done|]. by apply elem_of_nil in Hi. }
    destruct (Hin i ltac:(left)) as [Hi Hb].
    destruct (lookup_lt_is_Some_2 bits i Hi) as [x Hx].
    destruct (lookup_lt_is_Some_2 bf (i / 8) Hb) as [old Hold].
    assert (Hstep : ∃ bf1, pack_bit bits bf i = Ret bf1
              ∧ length bf1 = length bf
              ∧ (Forall (fun x => 0 ≤ x < 256)%Z bf →
                 Forall (fun x => 0 ≤ x < 256)%Z bf1)
              ∧ ∀ (j : nat) (b : Z), (0 ≤ b)%Z →
                  Z.testbit (default 0%Z (bf1 !! j)) b = true ↔
                  Z.testbit (default 0%Z (bf !! j)) b = true
                  ∨ (i / 8 = j ∧ (7 - Z.of_nat (i mod 8))%Z = b
                     ∧ x = 1%Z)).
    { unfold pack_bit, list_get, list_set. rewrite Hx. res_simpl.
      destruct (decide (x = 1%Z)) as [->|Hne].
      - rewrite Hold. res_simpl. rewrite decide_True by done.
        eexists. split; [reflexivity|]. split; [by rewrite length_insert|].
        split.
        { intros Hall. apply Forall_insert; [done|].
          apply set_bit_range; [|apply bit_offset_range].
          by apply (Forall_lookup_1 _ _ _ _ Hall Hold). }
        intros j b Hb0.
        destruct (decide (i / 8 = j)) as [<-|Hj].
        + rewrite list_lookup_insert_eq by done.
          rewrite Hold. cbn [default from_option id].
          pose proof (bit_offset_range i).
          rewrite testbit_set_bit by lia.
          rewrite orb_true_iff, bool_decide_eq_true. intuition.
        + rewrite list_lookup_insert_ne by done. intuition.
      - exists bf. repeat split; auto. intuition. }
    destruct Hstep as (bf1 & E1 & L1 & R1 & B1).
    destruct (IH bf1) as (bf' & E' & L' & R' & B').
    { intros i' Hi'. rewrite L1. apply Hin. by right. }
    exists bf'. cbn [for_each]. rewrite E1. res_simpl. split; [done|].
    split; [congruence|]. split; [auto|].
    intros j b Hb0. rewrite B', B1 by done. split.
    - intros [[H|(Hj & Ho & ->)]|(i' & Hi' & H)].
      + by left.
      + right. exists i. split; [left|]. done.
      + right. exists i'. split; [by right|]. done.
    - intros [H|(i' & Hi' & Hj & Ho & Hs)]; [by left; left|].
      apply elem_of_cons in Hi' as [->|Hi'].
      + left. right. rewrite Hx in Hs. intuition congruence.
      + right. by exists i'.
  Qed.

  (** The unpacking loop writes a 1 exactly at the indices whose bit is set
      in the bytes. *)
Lemma unpack_loop (bf_data : list Z) (idxs : list nat) (nb : list Z) :
    let r := foldl (unpack_bit bf_data) nb idxs in
    length r = length nb
    ∧ ∀ i, i < length nb →
        r !! i =
        if bool_decide (i ∈ idxs)
           && Z.testbit (default 0%Z (bf_data !! (i / 8)))
                        (7 - Z.of_nat (i mod 8))
        then Some 1%Z else nb !! i.
  Proof.
    revert nb. induction idxs as [|k idxs IH]; intros nb; cbn [foldl].
    { split; [done|]. intros i Hi.
      rewrite (bool_decide_eq_false_2 (i ∈ [])); [done|].
      apply not_elem_of_nil. }
    destruct (IH (unpack_bit bf_data nb k)) as [L H].
    assert (Lk : length (unpack_bit bf_data nb k) = length nb).
    { unfold unpack_bit. destruct (bf_data !! (k / 8)); [|done].
      case_decide; [done|]. by rewrite length_insert. }
    split; [congruence|]. intros i Hi. rewrite H by lia.
    destruct (bool_decide_reflect (i ∈ idxs)) as [Hin|Hnin]; cbn [andb].
    { rewrite bool_decide_eq_true_2 by (by right). cbn [andb].
      destruct (Z.testbit _ _) eqn:T; [done|].
      unfold unpack_bit.
      destruct (bf_data !! (k / 8)) as [byte|] eqn:Ek; [|done].
      case_decide as Hz; [done|].
      destruct (decide (k = i)) as [->|Hne].
      - rewrite Ek in T. cbn [default from_option id] in T.
        apply test_shifted_bit in T; [done|]. apply bit_offset_range.
      - by rewrite list_lookup_insert_ne. }
    destruct (decide (k = i)) as [->|Hne].
    - rewrite bool_decide_eq_true_2 by left. cbn [andb].
      unfold unpack_bit.
      destruct (bf_data !! (i / 8)) as [byte|] eqn:Ek; cbn [default from_option id].
      + pose proof (test_shifted_bit byte _ (proj1 (bit_offset_range i))) as T.
        case_decide as Hz.
        * apply T in Hz. by rewrite Hz.
        * destruct (Z.testbit byte _); [|destruct Hz; by apply T].
          by rewrite list_lookup_insert_eq.
      + by rewrite Z.testbit_0_l.
    - rewrite bool_decide_eq_false_2; cbn [andb].
      + unfold unpack_bit. destruct (bf_data !! (k / 8)); [|done].
        case_decide; [done|]. by rewrite list_lookup_insert_ne.
      + intros [->|?]%elem_of_cons; done.
  Qed.

End Bitfield.



(** Scenario 3 of the specification: ten pieces, 0 and 9 held. *)
Example bitfield_bytes_example :
  get_bitfield_bytes roundtrip_example = Ret [128; 64]%Z.
Proof. reflexivity. Qed.

(** * Sending a frame *)

(** C10 (as amended). When the header can be packed (a message type that
    fits one byte, as all eight protocol types do, and a payload whose frame
    length fits four bytes) [send_message] returns normally whatever the
    socket does; a failed write drops the frame, and in either case the
    session (flags, bitmap, socket), the registry and the piece store are
    what they were. *)
Theorem send_message_never_raises (p : Peer) (c : nat) (msg_type : Z)
    (payload : list Z) :
  (0 ≤ msg_type ≤ 255)%Z →
  (1 + Z.of_nat (length payload) < 2 ^ 32)%Z →
  ∃ header,
    pack_IB (1 + Z.of_nat (length payload)) msg_type = Ret header
    ∧ (∀ s : PeerConnection,
         send_message s msg_type payload
         = Ret (s, (header ++ payload,
                    negb (sock_closed (socket s) || sock_broken (socket s)))))
    ∧ ∃ ok, send c msg_type payload p
            = (emit (EvSendall c (header ++ payload) ok) p, Ret tt)
       ∧ sessions (send c msg_type payload p).1 = sessions p
       ∧ connections (send c msg_type payload p).1 = connections p
       ∧ file_manager (send c msg_type payload p).1 = file_manager p
       ∧ (ok = false ↔
          sock_closed (socket (sessions p !!! c)) = true
          ∨ sock_broken (socket (sessions p !!! c)) = true).
Proof.
  intros Ht Hl.
  destruct (pack_IB_ok (1 + Z.of_nat (length payload)) msg_type)
    as (header & E & _); [lia|done|].
  exists header. split; [done|]. split.
  { intros s. by apply send_message_result. }
  eexists. rewrite (send_result _ _ _ _ _ E). split; [reflexivity|].
  cbn [fst]. repeat split; try done.
  - rewrite negb_false_iff, orb_true_iff. done.
  - rewrite negb_false_iff, orb_true_iff. done.
Qed.

Lemma send_message_never_raises_witness :
  ∃ header,
    pack_IB (1 + Z.of_nat (length [0; 0; 0; 7]%Z)) MSG_HAVE = Ret header
    ∧ (∀ s : PeerConnection,
         send_message s MSG_HAVE [0; 0; 0; 7]%Z
         = Ret (s, (header ++ [0; 0; 0; 7]%Z,
                    negb (sock_closed (socket s) || sock_broken (socket s)))))
    ∧ ∃ ok, send 0 MSG_HAVE [0; 0; 0; 7]%Z broken_send_example
            = (emit (EvSendall 0 (header ++ [0; 0; 0; 7]%Z) ok)
                 broken_send_example, Ret tt)
       ∧ sessions (send 0 MSG_HAVE [0; 0; 0; 7]%Z broken_send_example).1
         = sessions broken_send_example
       ∧ connections (send 0 MSG_HAVE [0; 0; 0; 7]%Z broken_send_example).1
         = connections broken_send_example
       ∧ file_manager (send 0 MSG_HAVE [0; 0; 0; 7]%Z broken_send_example).1
         = file_manager broken_send_example
       ∧ (ok = false ↔
          sock_closed (socket (sessions broken_send_example !!! 0)) = true
          ∨ sock_broken (socket (sessions broken_send_example !!! 0)) = true).
Proof.
  apply (send_message_never_raises broken_send_example 0 MSG_HAVE
           [0; 0; 0; 7]%Z).
  - unfold MSG_HAVE. lia.
  - simpl. lia.
Defined.

(** C10 as stated fails: the header is packed outside the [try], so a
    message type that does not fit one byte, or a payload too long for the
    four-byte length, makes [send_message] raise [struct.error]. *)
Lemma send_message_raises :
  send_message (PeerConnection_init (mkSocket false false) 1002 1) 256 []
  = Raise StructError
  ∧ send_message (PeerConnection_init (mkSocket false false) 1002 1)
      MSG_PIECE (replicate (Z.to_nat (2 ^ 32)) 0%Z)
    = Raise StructError.
Proof.
  split; [reflexivity|].
  unfold send_message. rewrite length_replicate, Z2Nat.id by lia.
  unfold pack_IB, pack_I. rewrite decide_False by lia. reflexivity.
Qed.

(** * The HAVE handler *)

Lemma process_message_have draws c payload :
  process_message draws c MSG_HAVE payload = on_have c payload.
Proof. reflexivity. Qed.

(** C7 (as amended). On HAVE(i) the handler logs the message and sets
    B_n[i]; it sends INTERESTED and sets [am_interested] exactly when
    B_self[i] is unset, whatever [am_interested] was before. *)
Theorem have_handler (draws : list nat) (p : Peer) (c i : nat)
    (payload : list Z) :
  unpack_I payload = Ret i →
  c < length (sessions p) →
  i < length (neighbor_bitfield (sessions p !!! c)) →
  i < length (bitfield (file_manager p)) →
  let s := sessions p !!! c in
  let held := bool_decide (bitfield (file_manager p) !! i = Some 1%Z) in
  let ok := negb (sock_closed (socket s) || sock_broken (socket s)) in
  ∃ p',
    process_message draws c MSG_HAVE payload p = (p', Ret tt)
    ∧ neighbor_bitfield (sessions p' !!! c)
      = <[i:=1%Z]> (neighbor_bitfield s)
    ∧ neighbor_bitfield (sessions p' !!! c) !! i = Some 1%Z
    ∧ am_interested (sessions p' !!! c)
      = (if held then am_interested s else true)
    ∧ trace p'
      = trace p ++ EvLog (log_receive_have (neighbor_id s) i)
          :: (if held then [] else [EvSendall c interested_frame ok])
    ∧ file_manager p' = file_manager p
    ∧ connections p' = connections p.
Proof.
  intros Hu Hc Hi Hb s held ok.
  rewrite process_message_have. unfold on_have. run_M. rewrite Hu.
  fold s. unfold list_set. rewrite decide_True by done.
  cbn [emit file_manager set_sessions].
  rewrite has_piece_lookup by done. fold held.
  destruct held; cbn [negb].
  - eexists. split; [reflexivity|].
    cbn [sessions set_sessions trace file_manager connections].
    rewrite list_lookup_total_alter_eq by done. fold s.
    cbn [neighbor_bitfield set_neighbor_bitfield am_interested].
    repeat split; try done.
    by apply list_lookup_insert_eq.
  - rewrite (send_result c MSG_INTERESTED [] interested_frame)
      by reflexivity.
    cbn [sessions set_sessions emit trace file_manager connections].
    eexists. split; [reflexivity|].
    cbn [sessions set_sessions trace file_manager connections].
    rewrite !list_lookup_total_alter_eq by (rewrite ?length_alter; done).
    fold s.
    cbn [neighbor_bitfield set_neighbor_bitfield set_am_interested
         am_interested socket].
    repeat split; try done.
    + by apply list_lookup_insert_eq.
    + cbn [trace emit set_sessions]. by rewrite <- app_assoc, app_nil_r.
Qed.

Lemma have_handler_witness :
  ∃ p',
    process_message [] 0 MSG_HAVE have_0 have_example = (p', Ret tt)
    ∧ neighbor_bitfield (sessions p' !!! 0)
      = <[0:=1%Z]> (neighbor_bitfield (sessions have_example !!! 0))
    ∧ neighbor_bitfield (sessions p' !!! 0) !! 0 = Some 1%Z
    ∧ am_interested (sessions p' !!! 0)
      = (if bool_decide
              (bitfield (file_manager have_example) !! 0 = Some 1%Z)
         then am_interested (sessions have_example !!! 0) else true)
    ∧ trace p'
      = trace have_example
          ++ EvLog (log_receive_have
                      (neighbor_id (sessions have_example !!! 0)) 0)
          :: (if bool_decide
                   (bitfield (file_manager have_example) !! 0 = Some 1%Z)
              then []
              else [EvSendall 0 interested_frame
                      (negb (sock_closed
                               (socket (sessions have_example !!! 0))
                             || sock_broken
                                  (socket (sessions have_example !!! 0))))])
    ∧ file_manager p' = file_manager have_example
    ∧ connections p' = connections have_example.
Proof.
  apply (have_handler [] have_example 0 0 have_0).
  - reflexivity.
  - simpl. lia.
  - simpl. lia.
  - simpl. lia.
Defined.

(** C7 as stated fails: a session that is already interested receives
    HAVE(0) for a piece the peer lacks, and INTERESTED is sent again. *)
Lemma have_resends_interested :
  am_interested (sessions have_example !!! 0) = true
  ∧ has_piece (file_manager have_example) 0 = Ret false
  ∧ drop (length (trace have_example))
      (trace (process_message [] 0 MSG_HAVE have_0 have_example).1)
    = [EvLog (log_receive_have 1002 0);
       EvSendall 0 interested_frame true].
Proof. repeat split. Qed.

(** * The last piece *)

Lemma written_bytes (o : nat) (content data : list Z) :
  let content' :=
    take o content ++ replicate (o - length content) 0%Z ++ data
    ++ drop (o + length data) content in
  take (length data) (drop o content') = data
  ∧ length content' = length content `max` (o + length data).
Proof.
  intros content'. subst content'. split.
  - rewrite !app_assoc, <- (app_assoc _ data).
    rewrite drop_app_length'.
    + by rewrite take_app_length.
    + rewrite length_app, length_take, length_replicate. lia.
  - rewrite !length_app, length_take, length_replicate, length_drop. lia.
Qed.

Section LastPiece.

Variable fm : FileManager.
Hypothesis piece_size_pos : (0 < piece_size fm)%Z.
Hypothesis file_size_pos : (0 < file_size fm)%Z.
Hypothesis ragged : (file_size fm `mod` piece_size fm ≠ 0)%Z.
Hypothesis pieces :
    num_pieces fm = Z.to_nat (ceil_div (file_size fm) (piece_size fm)).

Local Abbreviation last := (num_pieces fm - 1).
Local Abbreviation offset := (Z.of_nat (num_pieces fm - 1) * piece_size fm)%Z.

Lemma num_pieces_ragged :
    Z.of_nat (num_pieces fm) = (file_size fm / piece_size fm + 1)%Z.
  Proof.
    rewrite pieces. unfold ceil_div.
    pose proof (Z.div_mod (file_size fm) (piece_size fm) ltac:(lia)) as H1.
    pose proof (Z.mod_pos_bound (file_size fm) (piece_size fm) ltac:(lia)).
    pose proof (Z.div_mod (- file_size fm) (piece_size fm) ltac:(lia)) as H2.
    pose proof (Z.mod_pos_bound (- file_size fm) (piece_size fm) ltac:(lia)).
    assert (0 ≤ file_size fm / piece_size fm)%Z by (apply Z.div_pos; lia).
    assert (E : (- file_size fm / piece_size fm
                 = - (file_size fm / piece_size fm) - 1)%Z) by nia.
    rewrite E. lia.
  Qed.

Lemma last_piece_length_mod :
    last_piece_length fm = (file_size fm `mod` piece_size fm)%Z.
  Proof.
    unfold last_piece_length. rewrite num_pieces_ragged.
    pose proof (Z.div_mod (file_size fm) (piece_size fm) ltac:(lia)). lia.
  Qed.

Lemma last_piece_length_bounds :
    (0 < last_piece_length fm < piece_size fm)%Z.
  Proof.
    rewrite last_piece_length_mod.
    pose proof (Z.mod_pos_bound (file_size fm) (piece_size fm) ltac:(lia)).
    lia.
  Qed.

Lemma last_offset :
    offset = (file_size fm - last_piece_length fm)%Z ∧ (0 ≤ offset)%Z.
  Proof.
    unfold last_piece_length.
    pose proof num_pieces_ragged.
    assert (0 ≤ file_size fm / piece_size fm)%Z by (apply Z.div_pos; lia).
    rewrite Nat2Z.inj_sub by lia. simpl Z.of_nat. split; [lia|nia].
  Qed.

Lemma current_piece_size_last :
    Z.min (piece_size fm) (file_size fm - offset) = last_piece_length fm.
  Proof.
    destruct last_offset as [-> _]. pose proof last_piece_length_bounds. lia.
  Qed.

Lemma read_last (content : list Z) :
    disk fm = Some content →
    has_piece fm last = Ret true →
    read_piece fm last
    = Ret (Some (take (Z.to_nat (last_piece_length fm))
                   (drop (Z.to_nat offset) content))).
  Proof.
    intros Hd Hh. unfold read_piece. rewrite Hh. res_simpl. cbn [negb].
    rewrite Hd. rewrite current_piece_size_last.
    unfold file_read. destruct last_offset as [_ Ho].
    pose proof last_piece_length_bounds.
    rewrite !decide_False by lia. done.
  Qed.

Lemma write_last (content data : list Z) :
    disk fm = Some content →
    last < length (bitfield fm) →
    let content' :=
      take (Z.to_nat offset) content
      ++ replicate (Z.to_nat offset - length content) 0%Z ++ data
      ++ drop (Z.to_nat offset + length data) content in
    ∃ fm',
      write_piece fm last data = (fm', Ret true)
      ∧ disk fm' = Some content'
      ∧ bitfield fm' = <[last:=1%Z]> (bitfield fm)
      ∧ file_size fm' = file_size fm ∧ piece_size fm' = piece_size fm
      ∧ num_pieces fm' = num_pieces fm.
  Proof.
    intros Hd Hl content'. unfold write_piece. rewrite Hd.
    unfold file_write. destruct last_offset as [_ Ho].
    rewrite decide_False by lia. unfold list_set.
    cbn [bitfield set_disk]. rewrite decide_True by done.
    eexists. split; [reflexivity|].
    case_decide; done.
  Qed.

End LastPiece.

(** C8 (as amended). When [file_size] is not a multiple of [piece_size],
    the last piece has length [file_size - (num_pieces - 1) * piece_size],
    which is positive and smaller than [piece_size].  A read of that index
    asks for exactly that many bytes and returns exactly that many when the
    stored file holds [file_size] bytes.  A write of that index persists
    exactly the bytes it is given, at offset [(num_pieces - 1) * piece_size],
    without comparing their number with the piece length; when it is given
    that many bytes, a read of the index returns them. *)
Theorem last_piece_io (fm : FileManager) (content data : list Z) :
  (0 < piece_size fm)%Z →
  (0 < file_size fm)%Z →
  (file_size fm `mod` piece_size fm ≠ 0)%Z →
  num_pieces fm = Z.to_nat (ceil_div (file_size fm) (piece_size fm)) →
  disk fm = Some content →
  let last := num_pieces fm - 1 in
  let len := Z.to_nat (last_piece_length fm) in
  let o := Z.to_nat (Z.of_nat last * piece_size fm) in
  (0 < last_piece_length fm < piece_size fm)%Z
  ∧ (has_piece fm last = Ret true →
     (file_size fm ≤ Z.of_nat (length content))%Z →
     ∃ d, read_piece fm last = Ret (Some d) ∧ length d = len)
  ∧ (last < length (bitfield fm) →
     ∃ fm' content',
       write_piece fm last data = (fm', Ret true)
       ∧ disk fm' = Some content'
       ∧ take (length data) (drop o content') = data
       ∧ length content' = length content `max` (o + length data)
       ∧ has_piece fm' last = Ret true
       ∧ (length data = len → read_piece fm' last = Ret (Some data))).
Proof.
  intros HS HF Hr Hn Hd last len o.
  pose proof (last_piece_length_bounds fm HS HF Hr Hn) as Hb.
  destruct (last_offset fm HS HF Hr Hn) as [Ho Ho0].
  split; [done|]. split.
  - intros Hh Hc. eexists. split; [by apply read_last|].
    rewrite length_take, length_drop. subst len. lia.
  - intros Hl.
    destruct (write_last fm HS HF Hr Hn content data Hd Hl)
      as (fm' & E & Hd' & Hb' & HF' & HS' & Hn').
    destruct (written_bytes o content data) as [Hw Hlen].
    eexists _, _. split; [exact E|]. split; [exact Hd'|].
    split; [exact Hw|]. split; [exact Hlen|].
    assert (Hh : has_piece fm' last = Ret true).
    { rewrite has_piece_lookup by (rewrite Hb', length_insert; done).
      rewrite Hb', list_lookup_insert_eq by done.
      by rewrite bool_decide_eq_true_2. }
    split; [done|]. intros Hdl.
    subst last len o. rewrite <- Hn' in Hh |- *.
    erewrite read_last; [| lia | lia | congruence | congruence | exact Hd'
                         | exact Hh ].
    assert (El : Z.to_nat (last_piece_length fm') = length data).
    { unfold last_piece_length. rewrite HF', HS', Hn'. exact (eq_sym Hdl). }
    rewrite El, Hn', HS'. by rewrite Hw.
Qed.

Lemma last_piece_io_witness :
  (0 < last_piece_length short_last_example
   < piece_size short_last_example)%Z
  ∧ (has_piece short_last_example (num_pieces short_last_example - 1)
     = Ret true →
     (file_size short_last_example ≤ Z.of_nat (length (@nil Z)))%Z →
     ∃ d, read_piece short_last_example (num_pieces short_last_example - 1)
          = Ret (Some d)
          ∧ length d = Z.to_nat (last_piece_length short_last_example))
  ∧ (num_pieces short_last_example - 1
     < length (bitfield short_last_example) →
     ∃ fm' content',
       write_piece short_last_example (num_pieces short_last_example - 1)
         [7; 7; 7; 7; 7]%Z = (fm', Ret true)
       ∧ disk fm' = Some content'
       ∧ take (length [7; 7; 7; 7; 7]%Z)
           (drop (Z.to_nat
                    (Z.of_nat (num_pieces short_last_example - 1)
                     * piece_size short_last_example)) content')
         = [7; 7; 7; 7; 7]%Z
       ∧ length content'
         = length (@nil Z)
             `max` (Z.to_nat
                      (Z.of_nat (num_pieces short_last_example - 1)
                       * piece_size short_last_example)
                    + length [7; 7; 7; 7; 7]%Z)
       ∧ has_piece fm' (num_pieces short_last_example - 1) = Ret true
       ∧ (length [7; 7; 7; 7; 7]%Z
          = Z.to_nat (last_piece_length short_last_example) →
          read_piece fm' (num_pieces short_last_example - 1)
          = Ret (Some [7; 7; 7; 7; 7]%Z))).
Proof.
  apply (last_piece_io short_last_example [] [7; 7; 7; 7; 7]%Z).
  - simpl. lia.
  - simpl. lia.
  - vm_compute. discriminate.
  - reflexivity.
  - reflexivity.
Defined.

(** C8 as stated fails for writes: the last piece of the 25-byte file has 5
    bytes, yet a write of six bytes at its index succeeds and persists all
    six, leaving a 26-byte file. *)
Lemma write_ignores_piece_length :
  last_piece_length short_last_example = 5%Z
  ∧ (write_piece short_last_example 2 [7; 7; 7; 7; 7; 8]%Z).2 = Ret true
  ∧ disk (write_piece short_last_example 2 [7; 7; 7; 7; 7; 8]%Z).1
    = Some (replicate 20 0%Z ++ [7; 7; 7; 7; 7; 8]%Z).
Proof. repeat split. Qed.

(** * Invariants of the reachable states *)

Lemma decode_bits_wf (n : nat) (bf_data : list Z) :
  is_bitmap (decode_bits n bf_data) ∧ length (decode_bits n bf_data) = n.
Proof.
  unfold decode_bits.
  destruct (unpack_loop bf_data (seq 0 n) (replicate n 0%Z)) as [L H].
  rewrite length_replicate in L, H. split; [|done].
  apply Forall_lookup_2. intros i x Hx.
  assert (Hi : i < n) by (rewrite <- L; by eapply lookup_lt_Some).
  rewrite H in Hx by done.
  destruct (_ && _); [right; congruence|].
  apply lookup_replicate in Hx as [-> _]. by left.
Qed.

Lemma write_piece_cases (fm : FileManager) (i : nat) (data : list Z) :
  let fm' := (write_piece fm i data).1 in
  file_size fm' = file_size fm ∧ piece_size fm' = piece_size fm
  ∧ num_pieces fm' = num_pieces fm
  ∧ ((bitfield fm' = bitfield fm
      ∧ requested_pieces fm' = requested_pieces fm
      ∧ (write_piece fm i data).2 ≠ Ret true)
     ∨ (i < length (bitfield fm)
        ∧ bitfield fm' = <[i:=1%Z]> (bitfield fm)
        ∧ (∀ j, j ∈ requested_pieces fm'
                ↔ j ∈ requested_pieces fm ∧ j ≠ i)
        ∧ (write_piece fm i data).2 = Ret true)).
Proof.
  unfold write_piece. destruct (disk fm) as [content|]; [|by auto 10].
  destruct (file_write _ _ _) as [content'|e]; [|by auto 10].
  unfold list_set. cbn [bitfield set_disk].
  case_decide as Hi; cbn [fst snd]; [|by auto 10].
  repeat split; try (by case_decide).
  right. split; [done|]. split; [by case_decide|]. split; [|done].
  intros j. case_decide as Hr; cbn [requested_pieces set_requested_pieces
    set_bitfield set_disk].
  - rewrite elem_of_difference, not_elem_of_singleton. done.
  - split; [|by intros [? _]]. intros Hj. split; [done|]. by intros ->.
Qed.

Lemma is_bitmap_insert (bits : list Z) (i : nat) :
  is_bitmap bits → is_bitmap (<[i:=1%Z]> bits).
Proof.
  intros H. destruct (decide (i < length bits)).
  - apply Forall_insert; [done|by right].
  - by rewrite list_insert_ge by lia.
Qed.

Lemma elem_of_dict_set {V} (d : list (Z * V)) (k k' : Z) (v v' : V) :
  (k', v') ∈ dict_set d k v → (k', v') ∈ d ∨ (k', v') = (k, v).
Proof.
  induction d as [|[k0 v0] d IH]; cbn [dict_set].
  - intros ?%list_elem_of_singleton. by right.
  - case_decide.
    + intros [->|?]%elem_of_cons; [by right|]. left. by right.
    + intros [->|H']%elem_of_cons; [left; left|].
      destruct (IH H'); [left; by right|by right].
Qed.


Lemma well_formed_tau stop allow (p q : Peer) :
  tau stop allow p q → well_formed p → well_formed q.
Proof.
  intros Ht (Hb & Hl & Hs & Hr).
  destruct Ht as [e|c f Hf|c i Hi|c payload _|i data|idx _ _|sock nid
                 |nid c Hc|s|_].
  - done.
  - split; [done|]. split; [done|]. split;
      [|intros nid' c' Hin; cbn [sessions set_sessions connections] in *;
        rewrite length_alter; by eapply Hr].
    intros c' s'. cbn [sessions set_sessions file_manager].
    rewrite list_lookup_alter. case_decide as E.
    + subst c'.
      destruct (sessions p !! c) as [s0|] eqn:E0; [|done].
      intros [= <-]. rewrite Hf. by eapply Hs.
    + apply Hs.
  - split; [done|]. split; [done|]. split;
      [|intros nid' c' Hin; cbn [sessions set_sessions connections] in *;
        rewrite length_alter; by eapply Hr].
    intros c' s'. cbn [sessions set_sessions file_manager].
    rewrite list_lookup_alter. case_decide as E.
    + subst c'.
      destruct (sessions p !! c) as [s0|] eqn:E0; [|done]. intros [= <-].
      rewrite (list_lookup_total_correct _ _ _ E0).
      destruct (Hs _ _ E0) as [H1 H2].
      cbn [neighbor_bitfield set_neighbor_bitfield].
      split; [by apply is_bitmap_insert|by rewrite length_insert].
    + apply Hs.
  - split; [done|]. split; [done|]. split;
      [|intros nid' c' Hin; cbn [sessions set_sessions connections] in *;
        rewrite length_alter; by eapply Hr].
    intros c' s'. cbn [sessions set_sessions file_manager].
    rewrite list_lookup_alter. case_decide as E.
    + subst c'.
      destruct (sessions p !! c) as [s0|] eqn:E0; [|done]. intros [= <-].
      cbn [neighbor_bitfield set_neighbor_bitfield].
      apply decode_bits_wf.
    + apply Hs.
  - destruct (write_piece_cases (file_manager p) i data)
      as (_ & _ & Hn & [(Hb' & _)|(Hi & Hb' & _)]);
      unfold well_formed; cbn [file_manager set_file_manager sessions
        connections]; rewrite Hn, Hb'.
    + done.
    + split; [by apply is_bitmap_insert|]. by rewrite length_insert.
  - done.
  - split; [done|]. split; [done|]. split.
    + intros c' s'. cbn [sessions set_sessions file_manager].
      intros [?|[_ H]]%lookup_app_Some; [by eapply Hs|].
      apply list_lookup_singleton_Some in H as [_ <-].
      cbn [neighbor_bitfield PeerConnection_init].
      split; [|by rewrite length_replicate].
      apply Forall_replicate. by left.
    + intros nid' c' Hin. cbn [sessions set_sessions connections] in *.
      rewrite length_app. apply Hr in Hin. lia.
  - split; [done|]. split; [done|]. split; [done|].
    intros nid' c' [Hin|[= -> ->]]%elem_of_dict_set; [by eapply Hr|done].
  - done.
  - done.
Qed.

Lemma well_formed_init pid k peers has_file fsize psize seed_file :
  well_formed (Peer_init pid k peers has_file fsize psize seed_file).
Proof.
  unfold well_formed, Peer_init, FileManager_init.
  cbn [file_manager bitfield num_pieces sessions connections].
  split; [|split; [|split]].
  - destruct has_file; apply Forall_replicate; auto.
  - destruct has_file; by rewrite length_replicate.
  - intros c s H. by rewrite lookup_nil in H.
  - by intros nid c ?%elem_of_nil.
Qed.

Lemma well_formed_steps stop allow (p q : Peer) :
  rtc (tau stop allow) p q → well_formed p → well_formed q.
Proof. induction 1; eauto using well_formed_tau. Qed.

Lemma reachable_well_formed (p : Peer) : reachable p → well_formed p.
Proof.
  induction 1 as [|a p _ IH _].
  - apply well_formed_init.
  - eapply well_formed_steps; [apply perform_steps_any|done].
Qed.

(** * Bits of the bitmaps *)

Lemma lookup_total_outside (ss : list PeerConnection) (c : nat) :
  length ss ≤ c → neighbor_bitfield (ss !!! c) = [].
Proof.
  intros H. rewrite list_lookup_total_alt, lookup_ge_None_2 by done.
  reflexivity.
Qed.

Lemma self_bits_kept_tau stop allow (p q : Peer) :
  tau stop allow p q → self_bits_kept p q.
Proof.
  intros Ht.
  destruct Ht as [e|c f Hf|c i Hi|c payload _|i data|idx Hh Hr|sock nid
                 |nid c Hc|s|_]; try (by intros j).
  destruct (write_piece_cases (file_manager p) i data)
    as (_ & _ & _ & [(Hb & _)|(Hi & Hb & _)]);
    intros j; cbn [file_manager set_file_manager]; rewrite Hb; [done|].
  intros Hj. destruct (decide (i = j)) as [->|Hne].
  - by apply list_lookup_insert_eq.
  - by rewrite list_lookup_insert_ne.
Qed.

Lemma neighbor_bits_kept_tau stop (c : nat) (p q : Peer) :
  tau stop (fun c' => c' ≠ c) p q → neighbor_bits_kept c p q.
Proof.
  intros Ht.
  destruct Ht as [e|c' f Hf|c' i Hi|c' payload Hc'|i data|idx Hh Hr|sock nid
                 |nid c' Hc|s|_]; try (by intros j);
    intros j; cbn [sessions set_sessions].
  - rewrite list_lookup_total_alter. case_decide as E; [|done].
    destruct E as [-> _]. by rewrite Hf.
  - rewrite list_lookup_total_alter. case_decide as E; [|done].
    destruct E as [-> _]. cbn [neighbor_bitfield set_neighbor_bitfield].
    intros Hj. destruct (decide (i = j)) as [->|Hne].
    + by apply list_lookup_insert_eq.
    + by rewrite list_lookup_insert_ne.
  - by rewrite list_lookup_total_alter_ne.
  - destruct (decide (c < length (sessions p))) as [Hlt|Hge].
    + by rewrite lookup_total_app_l.
    + rewrite lookup_total_outside by lia. by rewrite lookup_nil.
Qed.

Lemma self_bits_kept_steps stop allow (p q : Peer) :
  rtc (tau stop allow) p q → self_bits_kept p q.
Proof.
  induction 1 as [|p q r H _ IH]; [by intros i|].
  intros i Hi. by apply IH, (self_bits_kept_tau _ _ _ _ H).
Qed.

Lemma neighbor_bits_kept_steps stop (c : nat) (p q : Peer) :
  rtc (tau stop (fun c' => c' ≠ c)) p q → neighbor_bits_kept c p q.
Proof.
  induction 1 as [|p q r H _ IH]; [by intros i|].
  intros i Hi. by apply IH, (neighbor_bits_kept_tau _ _ _ _ H).
Qed.

Lemma process_message_bitfield draws c payload :
  process_message draws c MSG_BITFIELD payload = on_bitfield c payload.
Proof. reflexivity. Qed.

#[local] Instance same_bitmap_po c : PreOrder (same_bitmap c).
Proof.
  split; [by intros ?|]. intros ? ? ? H1 H2.
  unfold same_bitmap in *. by rewrite H2.
Qed.

Lemma same_bitmap_update c c' f :
  (∀ s, neighbor_bitfield (f s) = neighbor_bitfield s) →
  preserves (same_bitmap c) (update_conn c' f).
Proof.
  intros Hf p. unfold same_bitmap. cbn [update_conn modify fst sessions
    set_sessions].
  rewrite list_lookup_total_alter. case_decide as E; [|done].
  destruct E as [-> _]. by rewrite Hf.
Qed.

Lemma declare_interest_bitmap c t b :
  preserves (same_bitmap c)
    (_ ← send c t []; update_conn c (set_am_interested b)).
Proof.
  apply preserves_bind; [apply _| |intros _].
  - apply preserves_send; [apply _|by intros ? ?].
  - by apply same_bitmap_update.
Qed.

Lemma on_bitfield_bitmap (c : nat) (payload : list Z) (p : Peer) :
  c < length (sessions p) →
  neighbor_bitfield (sessions (on_bitfield c payload p).1 !!! c)
  = update_bitfield_from_bytes (file_manager p) payload.
Proof.
  intros Hc.
  set (nb := update_bitfield_from_bytes (file_manager p) payload).
  set (p1 := set_sessions (alter (set_neighbor_bitfield nb) c (sessions p)) p).
  assert (E : on_bitfield c payload p
              = (interested ←
                   lift (scan_interest (file_manager p) nb
                           (seq 0 (length nb)));
                 if interested : bool then
                   _ ← send c MSG_INTERESTED [];
                   update_conn c (set_am_interested true)
                 else
                   _ ← send c MSG_NOT_INTERESTED [];
                   update_conn c (set_am_interested false)) p1)
    by reflexivity.
  rewrite E.
  match goal with
  | |- neighbor_bitfield (sessions (?m p1).1 !!! c) = _ =>
      assert (H : preserves (same_bitmap c) m)
  end.
  { apply preserves_bind; [apply _|apply preserves_lift; apply _|].
    intros []; apply declare_interest_bitmap. }
  rewrite (H p1). subst p1. cbn [sessions set_sessions].
  by rewrite list_lookup_total_alter_eq.
Qed.

Lemma leave_handler_bitmap c raised :
  preserves (same_bitmap c) (leave_handler c raised).
Proof.
  unfold leave_handler, close_conn.
  apply preserves_bind; [apply _| |intros _].
  - apply preserves_bind; [apply _| |intros _].
    + by apply same_bitmap_update.
    + by intros p.
  - destruct raised as [[]|]; first [apply preserves_ret | apply preserves_lift];
      apply _.
Qed.

(** C3 (as amended). Under every action of a run a set bit of the local
    bitmap stays set, and a set bit of the neighbor bitmap of a session
    stays set unless the action is the processing of a BITFIELD frame on
    that session: a piece write, the processing of HAVE and of every other
    message, the timers and the detector never clear a bit.  Processing
    BITFIELD replaces the neighbor bitmap of the session by the decoded
    payload, so a bit stays set exactly when the payload carries it. *)
Theorem bits_stay_set (a : action) (p : Peer) (c : nat) :
  self_bits_kept p (perform a p)
  ∧ (¬ bitfield_frame_on c a → neighbor_bits_kept c p (perform a p))
  ∧ (∀ payload draws,
       a = ActRecv c (RecvFrame (MSG_BITFIELD :: payload)) draws →
       running p = true → c < length (sessions p) →
       neighbor_bitfield (sessions (perform a p) !!! c)
       = update_bitfield_from_bytes (file_manager p) payload).
Proof.
  split; [|split].
  - eapply self_bits_kept_steps, perform_steps_any.
  - intros Hn. destruct (decide (a = ActTermination)) as [->|Ha].
    + eapply neighbor_bits_kept_steps, termination_check_loop_turn_steps.
    + eapply neighbor_bits_kept_steps, perform_steps; [done|].
      intros c' payload draws -> ->. apply Hn. by eexists _, _.
  - intros payload draws -> Hrun Hc. cbn [perform message_handler].
    rewrite Hrun, process_message_bitfield.
    pose proof (on_bitfield_bitmap c payload p Hc) as H.
    destruct (on_bitfield c payload p) as [p' [[]|e]]; cbn [fst] in *.
    + done.
    + by rewrite (leave_handler_bitmap c (Some e) p').
Qed.

(** C3 as stated fails for BITFIELD processing: bit 1 of the neighbor
    bitmap was set by a HAVE message, and a BITFIELD frame that does not
    carry it clears it. *)
Lemma bitfield_clears_bit :
  neighbor_bitfield (sessions announced_example !!! 0) !! 1 = Some 1%Z
  ∧ neighbor_bitfield
      (sessions (perform (ActRecv 0 (RecvFrame [MSG_BITFIELD; 128]%Z) [])
                   announced_example) !!! 0) !! 1
    = Some 0%Z.
Proof. split; reflexivity. Qed.

(** * Threads inside a turn *)

(** The two halves of [request_piece] make up the method. *)
Lemma request_piece_split (draws : list nat) (c : nat) (p : Peer) :
  request_piece draws c p
  = (request_piece_choice draws c ≫= request_piece_send c) p.
Proof.
  unfold request_piece, request_piece_choice, request_piece_send. run_M.
  destruct (available_pieces _ _ _) as [avail|e]; [|done].
  case_decide; [done|]. by destruct (choice avail draws).
Qed.

(** With no turn of another thread in between, the interleaved UNCHOKE is
    the UNCHOKE branch of [process_message]. *)
Lemma interleaved_unchoke_alone (draws : list nat) (c : nat) (p : Peer) :
  interleaved_unchoke draws c [] p = on_unchoke draws c p.
Proof.
  unfold interleaved_unchoke, on_unchoke, on_unchoke_choice. run_M.
  rewrite request_piece_split. unfold mbind, M_bind.
  by destruct (request_piece_choice draws c _) as [p1 [chosen|e]].
Qed.

Lemma elementary_steps (p q : Peer) :
  rtc (tau false (fun _ => True)) p q → rtc elementary p q.
Proof. apply rtc_subrel. intros ? ?. apply elementary_tau. Qed.

Lemma perform_elementary (a : action) (p : Peer) :
  a ≠ ActTermination → rtc elementary p (perform a p).
Proof. intros Ha. apply elementary_steps. by apply perform_steps. Qed.

Lemma run_elementary (actions : list action) (p : Peer) :
  ActTermination ∉ actions → rtc elementary p (run actions p).
Proof.
  revert p. induction actions as [|a actions IH]; intros p Hno; [done|].
  apply not_elem_of_cons in Hno as [Ha Hno].
  unfold run. cbn [foldl]. etrans; [by apply perform_elementary|].
  by apply IH.
Qed.

Lemma on_unchoke_choice_elementary (draws : list nat) (c : nat) (p : Peer) :
  rtc elementary p (on_unchoke_choice draws c p).1.
Proof.
  apply elementary_steps. revert p.
  change (preserves (rtc (tau false (fun _ => True)))
            (on_unchoke_choice draws c)).
  unfold on_unchoke_choice, request_piece_choice. pres.
Qed.

Lemma request_piece_send_elementary (c : nat) (chosen : option nat)
    (p : Peer) :
  rtc elementary p (request_piece_send c chosen p).1.
Proof.
  destruct chosen as [idx|]; [|done].
  unfold request_piece_send.
  eapply rtc_l; [apply (elementary_add p idx)|].
  run_M. destruct (pack_I _) as [payload|e]; [|done].
  apply elementary_steps.
  apply (preserves_send (rtc (tau false (fun _ => True)))).
  intros e q. apply rtc_once, tau_emit.
Qed.

Lemma interleaved_unchoke_elementary (draws : list nat) (c : nat)
    (others : list action) (p : Peer) :
  ActTermination ∉ others →
  rtc elementary p (interleaved_unchoke draws c others p).1.
Proof.
  intros Hno. unfold interleaved_unchoke.
  pose proof (on_unchoke_choice_elementary draws c p) as H1.
  destruct (on_unchoke_choice draws c p) as [p1 [chosen|e]];
    cbn [fst] in *; [|done].
  etrans; [exact H1|]. etrans; [by apply run_elementary|].
  apply request_piece_send_elementary.
Qed.

(** The steps of other threads are steps of the threads, whatever the
    detector is at. *)
Lemma other_steps (p q : Peer) (d : detector) :
  rtc elementary p q → rtc thread_step (p, d) (q, d).
Proof.
  induction 1 as [|p q r H _ IH]; [done|].
  eapply rtc_l; [by apply step_other|done].
Qed.


(** *** What the steps keep *)





(** * Outstanding requests and held pieces *)

Lemma has_piece_bitfield (fm fm' : FileManager) (i : nat) :
  bitfield fm' = bitfield fm → has_piece fm' i = has_piece fm i.
Proof. unfold has_piece. by intros ->. Qed.

Lemma has_piece_insert_ne (fm fm' : FileManager) (i j : nat) :
  bitfield fm' = <[i:=1%Z]> (bitfield fm) → i ≠ j →
  has_piece fm' j = has_piece fm j.
Proof.
  unfold has_piece, list_get. intros -> Hne.
  by rewrite list_lookup_insert_ne.
Qed.

Lemma requests_disjoint_tau stop allow (p q : Peer) :
  tau stop allow p q →
  requests_disjoint (file_manager p) → requests_disjoint (file_manager q).
Proof.
  intros Ht Hinv.
  destruct Ht as [e|c f Hf|c i Hi|c payload _|i data|idx Hh Hr|sock nid
                 |nid c Hc|s|_]; try done.
  - destruct (write_piece_cases (file_manager p) i data)
      as (_ & _ & _ & [(Hb & Hreq & _)|(Hi & Hb & Hreq & _)]);
      cbn [file_manager set_file_manager]; intros j Hj.
    + rewrite (has_piece_bitfield _ _ _ Hb). apply Hinv. by rewrite <- Hreq.
    + apply Hreq in Hj as [Hj Hne].
      rewrite (has_piece_insert_ne _ _ i j Hb) by done. by apply Hinv.
  - cbn [file_manager set_file_manager]. intros j Hj.
    rewrite (has_piece_bitfield (file_manager p)) by done.
    cbn [requested_pieces set_requested_pieces] in Hj.
    apply elem_of_union in Hj as [->%elem_of_singleton|Hj].
    + by rewrite Hh.
    + by apply Hinv.
Qed.

Lemma requests_disjoint_steps stop allow (p q : Peer) :
  rtc (tau stop allow) p q →
  requests_disjoint (file_manager p) → requests_disjoint (file_manager q).
Proof. induction 1; eauto using requests_disjoint_tau. Qed.

Lemma reachable_requests_disjoint (p : Peer) :
  reachable p → requests_disjoint (file_manager p).
Proof.
  induction 1 as [|a p _ IH _].
  - intros i Hi. by apply elem_of_empty in Hi.
  - eapply requests_disjoint_steps; [apply perform_steps_any|done].
Qed.

(** Sending leaves the piece store alone. *)
Lemma send_file_manager c msg_type payload :
  preserves (fun p q => file_manager q = file_manager p)
    (send c msg_type payload).
Proof.
  apply preserves_send; [|done].
  split; [by intros ?|]. intros ? ? ? H1 H2. by rewrite H2.
Qed.

Lemma request_piece_adds (draws : list nat) (c : nat) (p : Peer) (i : nat) :
  i ∈ requested_pieces (file_manager (request_piece draws c p).1) →
  i ∉ requested_pieces (file_manager p) →
  has_piece (file_manager p) i = Ret false.
Proof.
  unfold request_piece. run_M.
  destruct (available_pieces _ _ _) as [avail|e] eqn:Ea; [|done].
  case_decide; [done|].
  destruct (choice avail draws) as [idx|] eqn:Ec; [|done].
  apply choice_elem in Ec.
  destruct (available_pieces_spec _ _ _ _ Ea idx Ec) as (_ & _ & Hh & _).
  destruct (pack_I (Z.of_nat idx)) as [payload|e]; cbn [fst].
  - rewrite send_file_manager. cbn [file_manager set_file_manager
      requested_pieces set_requested_pieces].
    intros [->%elem_of_singleton|?]%elem_of_union; done.
  - cbn [file_manager set_file_manager requested_pieces
      set_requested_pieces].
    intros [->%elem_of_singleton|?]%elem_of_union; done.
Qed.

Lemma write_piece_success (fm fm' : FileManager) (i : nat) (data : list Z) :
  write_piece fm i data = (fm', Ret true) →
  has_piece fm' i = Ret true ∧ i ∉ requested_pieces fm'.
Proof.
  intros E.
  destruct (write_piece_cases fm i data)
    as (_ & _ & _ & [(_ & _ & Hne)|(Hi & Hb & Hreq & _)]);
    rewrite E in *; cbn [fst snd] in *; [done|].
  split.
  - rewrite has_piece_lookup by (by rewrite Hb, length_insert).
    rewrite Hb, list_lookup_insert_eq by done.
    by rewrite bool_decide_eq_true_2.
  - intros Hin. apply Hreq in Hin as [_ ?]. done.
Qed.

(** As long as the turns of the handlers do not overlap, no outstanding
    request is for a held piece: request selection adds only an index that
    is not held and was not outstanding, and a write that succeeds leaves
    its index held and no longer outstanding. *)
Theorem requests_disjoint_from_held (p : Peer) :
  reachable p →
  requests_disjoint (file_manager p)
  ∧ (∀ draws c i,
       i ∈ requested_pieces (file_manager (request_piece draws c p).1) →
       i ∉ requested_pieces (file_manager p) →
       has_piece (file_manager p) i = Ret false)
  ∧ (∀ i data fm',
       write_piece (file_manager p) i data = (fm', Ret true) →
       has_piece fm' i = Ret true ∧ i ∉ requested_pieces fm').
Proof.
  intros Hp. split; [by apply reachable_requests_disjoint|]. split.
  - intros draws c i. apply request_piece_adds.
  - intros i data fm'. apply write_piece_success.
Qed.

Lemma requests_disjoint_from_held_witness :
  requests_disjoint (file_manager requesting_example)
  ∧ (∀ draws c i,
       i ∈ requested_pieces
             (file_manager (request_piece draws c requesting_example).1) →
       i ∉ requested_pieces (file_manager requesting_example) →
       has_piece (file_manager requesting_example) i = Ret false)
  ∧ (∀ i data fm',
       write_piece (file_manager requesting_example) i data
       = (fm', Ret true) →
       has_piece fm' i = Ret true ∧ i ∉ requested_pieces fm').
Proof.
  apply (requests_disjoint_from_held requesting_example).
  unfold requesting_example.
  repeat (apply reachable_step; [| simpl; lia || exact I]).
  apply reachable_init.
Defined.

(** In the example the request for piece 2 is outstanding. *)
Example requesting_example_requested :
  elements (requested_pieces (file_manager requesting_example)) = [2].
Proof. vm_compute. reflexivity. Qed.

(** The state of the race is one the threads reach. *)
Lemma race_example_reachable : thread_reachable (race_example, Sleeping).
Proof.
  exists 1001%Z, 1%Z, [1001; 1002; 1003]%Z, false, 25%Z, 10%Z, None.
  apply other_steps.
  apply (@transitivity _ (rtc elementary) _ _ two_sources_example _).
  - unfold two_sources_example. apply run_elementary.
    rewrite !not_elem_of_cons. repeat split; try done.
    by intros ?%elem_of_nil.
  - unfold race_example. apply interleaved_unchoke_elementary.
    unfold served_by_1003. rewrite !not_elem_of_cons. repeat split; try done.
    by intros ?%elem_of_nil.
Qed.

Lemma two_sources_example_reachable : reachable two_sources_example.
Proof.
  unfold two_sources_example, run. cbn [foldl].
  repeat (apply reachable_step; [|vm_compute; try lia; done]).
  apply reachable_init.
Qed.

(** C4 (the code breaks it).  The piece store has no lock, and
    [request_piece] chooses its index before it adds it to
    [requested_pieces].  A leecher has two neighbors that announced piece 1
    and unchoke it.  The handler of session 0 has chosen piece 1 when the
    handler of session 1 runs: it requests piece 1, receives it and stores
    it, which leaves the piece held and not outstanding.  The handler of
    session 0 then adds the index and sends its request: piece 1 is held
    and outstanding, and it was requested from both neighbors, against the
    comment on [requested_pieces], which is to hold the pieces
    requested but not yet downloaded, to avoid duplicates.  The state is one the threads reach; the
    split of the UNCHOKE branch used here is the branch itself when no
    other turn comes in between. *)
Theorem held_piece_requested :
  let chosen := on_unchoke_choice [] 0 two_sources_example in
  let served := run served_by_1003 chosen.1 in
  (∀ draws c p, interleaved_unchoke draws c [] p = on_unchoke draws c p)
  ∧ reachable two_sources_example
  ∧ requests_disjoint (file_manager two_sources_example)
  ∧ chosen.2 = Ret (Some 1)
  ∧ file_manager chosen.1 = file_manager two_sources_example
  ∧ has_piece (file_manager served) 1 = Ret true
  ∧ (1 ∉ requested_pieces (file_manager served))
  ∧ race_example = (request_piece_send 0 (Some 1) served).1
  ∧ has_piece (file_manager race_example) 1 = Ret true
  ∧ 1 ∈ requested_pieces (file_manager race_example)
  ∧ ¬ requests_disjoint (file_manager race_example)
  ∧ request_1_frame ∈ sent_on 1 race_example
  ∧ last (sent_on 0 race_example) = Some request_1_frame
  ∧ thread_reachable (race_example, Sleeping).
Proof.
  intros chosen served.
  pose proof two_sources_example_reachable as Hr.
  assert (Hin : 1 ∈ requested_pieces (file_manager race_example)).
  { apply elem_of_elements. by vm_compute; left. }
  assert (Hheld : has_piece (file_manager race_example) 1 = Ret true)
    by (by vm_compute).
  split; [apply interleaved_unchoke_alone|].
  split; [done|].
  split; [by apply reachable_requests_disjoint|].
  split; [by vm_compute|].
  split; [by vm_compute|].
  split; [by vm_compute|].
  split.
  { rewrite <- elem_of_elements. vm_compute. by intros ?%elem_of_nil. }
  split; [by vm_compute|].
  split; [done|]. split; [done|].
  split; [intros H; by apply (H 1 Hin)|].
  split.
  { vm_compute. do 2 right. left. }
  split; [by vm_compute|].
  apply race_example_reachable.
Qed.

(** * The termination detector *)

Lemma running_tau allow (p q : Peer) :
  tau false allow p q → running q = running p.
Proof. by destruct 1. Qed.

Lemma running_steps allow (p q : Peer) :
  rtc (tau false allow) p q → running q = running p.
Proof.
  induction 1 as [|p q r H _ IH]; [done|].
  by rewrite IH, (running_tau _ _ _ H).
Qed.

Lemma trace_tau stop allow (p q : Peer) :
  tau stop allow p q → ∃ tr, trace q = trace p ++ tr.
Proof.
  destruct 1; try (by exists []; rewrite app_nil_r).
  by eexists [_].
Qed.

Lemma trace_steps stop allow (p q : Peer) :
  rtc (tau stop allow) p q → ∃ tr, trace q = trace p ++ tr.
Proof.
  induction 1 as [|p q r H _ [tr2 IH]]; [by exists []; rewrite app_nil_r|].
  destruct (trace_tau _ _ _ _ H) as [tr1 E].
  exists (tr1 ++ tr2). by rewrite IH, E, app_assoc.
Qed.

Lemma sum_bitmap (nb : list Z) :
  is_bitmap nb →
  (sum_list nb ≤ Z.of_nat (length nb))%Z
  ∧ (sum_list nb = Z.of_nat (length nb) ↔ Forall (fun b => b = 1%Z) nb).
Proof.
  induction 1 as [|b nb Hb _ [IH1 IH2]]; cbn [sum_list foldr length].
  - split; [done|]. split; [by constructor|done].
  - fold (sum_list nb). rewrite Nat2Z.inj_succ, Forall_cons.
    destruct Hb as [-> | ->]; split; try lia.
    split; [intros; split; [done|apply IH2; lia]|].
    intros [_ H]. apply IH2 in H. lia.
Qed.

Lemma has_complete_file_all (fm : FileManager) :
  is_bitmap (bitfield fm) →
  has_complete_file fm = true ↔ Forall (fun b => b = 1%Z) (bitfield fm).
Proof.
  unfold has_complete_file, is_bitmap. rewrite forallb_forall.
  rewrite !Forall_forall. intros H. split.
  - intros Hall b Hb. destruct (H b Hb) as [->| ->]; [|done].
    apply list_elem_of_In, Hall in Hb. done.
  - intros Hall b Hb. apply list_elem_of_In in Hb.
    by rewrite (Hall b Hb).
Qed.

Lemma all_neighbors_done_complete (p : Peer) :
  well_formed p →
  all_neighbors_done p = true ↔ neighbors_complete p.
Proof.
  intros (_ & _ & Hs & Hr).
  unfold all_neighbors_done, neighbors_complete. rewrite forallb_forall.
  assert (Hc : ∀ c, c ∈ dict_values (connections p) →
             is_bitmap (neighbor_bitfield (sessions p !!! c))
             ∧ length (neighbor_bitfield (sessions p !!! c))
               = num_pieces (file_manager p)).
  { intros c [[nid c'] [-> Hin]]%list_elem_of_fmap. cbn [snd].
    destruct (lookup_lt_is_Some_2 _ _ (Hr _ _ Hin)) as [s E].
    rewrite (list_lookup_total_correct _ _ _ E). by eapply Hs. }
  split.
  - intros H c Hin. destruct (Hc c Hin) as [Hb Hl].
    apply list_elem_of_In, H in Hin. apply negb_true_iff, Z.ltb_ge in Hin.
    destruct (sum_bitmap _ Hb) as [H1 H2]. apply H2. lia.
  - intros H c Hin%list_elem_of_In. destruct (Hc c Hin) as [Hb Hl].
    apply negb_true_iff, Z.ltb_ge.
    destruct (sum_bitmap _ Hb) as [H1 H2].
    apply H2 in H; [|done]. lia.
Qed.

Lemma for_in_close_returns (xs : list nat) (p : Peer) :
  (for_in xs close_conn p).2 = Ret tt.
Proof.
  revert p. induction xs as [|x xs IH]; intros p; [done|].
  cbn [for_in]. unfold close_conn at 1. run_M. apply IH.
Qed.

Lemma shutdown_result (p : Peer) :
  (shutdown p).2 = Raise (SystemExit 0)
  ∧ running (shutdown p).1 = false.
Proof.
  unfold shutdown. run_M.
  pose proof (for_in_close_returns (dict_values (connections p))
                (set_running false p)) as Hr.
  assert (Hq : running (for_in (dict_values (connections p)) close_conn
                          (set_running false p)).1 = false).
  { generalize (dict_values (connections p)). intros xs.
    assert (H : ∀ q, running q = false →
               running (for_in xs close_conn q).1 = false);
      [|by apply H].
    induction xs as [|x xs IH]; intros q Hq; [done|].
    cbn [for_in]. unfold close_conn at 1. run_M. by apply IH. }
  destruct (for_in _ _ _) as [q r]. cbn [fst snd] in *. subst r.
  cbn [connections set_running].
  destruct (server_socket q); done.
Qed.

(** The poll either only records its checks or shuts the peer down. *)
Lemma termination_check_loop_turn_cases (p : Peer) :
  let go := has_complete_file (file_manager p) && all_neighbors_done p
            && session_count_ok p in
  if go then
    ∃ p3, trace p3 = trace p ++ poll_events
          ∧ termination_check_loop_turn p = shutdown p3
  else
    running (termination_check_loop_turn p).1 = running p
    ∧ (termination_check_loop_turn p).2 = Ret tt.
Proof.
  unfold termination_check_loop_turn, with_lock. run_M.
  destruct (has_complete_file (file_manager p)); cbn [negb andb]; [|done].
  cbn [fst snd emit sessions connections file_manager].
  change (all_neighbors_done (emit _ (emit _ (emit _ p))))
    with (all_neighbors_done p).
  destruct (all_neighbors_done p); cbn [andb]; [|done].
  change (session_count_ok (emit _ (emit _ (emit _ (emit _ (emit _ p))))))
    with (session_count_ok p).
  destruct (session_count_ok p); [|done].
  eexists. split; [|reflexivity].
  cbn [trace emit]. by rewrite <- !app_assoc.
Qed.

(** When no other thread runs during a poll of the detector: a running
    peer stops running only through a poll at which the local store has all
    pieces, every neighbor bitmap in the registry has all bits set and the
    number of registry entries equals the membership size minus one; the
    poll then exits with [sys.exit(0)]. *)
Lemma uninterrupted_poll_shutdown (a : action) (p : Peer) :
  reachable p →
  running p = true →
  running (perform a p) = false →
  a = ActTermination
  ∧ has_complete_file (file_manager p) = true
  ∧ Forall (fun b => b = 1%Z) (bitfield (file_manager p))
  ∧ neighbors_complete p
  ∧ Z.of_nat (length (connections p))
    = (Z.of_nat (length (config_peers p)) - 1)%Z
  ∧ (termination_check_loop_turn p).2 = Raise (SystemExit 0)
  ∧ (∃ closing, trace (perform a p) = trace p ++ poll_events ++ closing)
  ∧ unlocked_checks false poll_events
    = [CheckLocalComplete; CheckSessionCount].
Proof.
  intros Hreach Hrun Hstop.
  pose proof (reachable_well_formed p Hreach) as Hwf.
  destruct (decide (a = ActTermination)) as [->|Ha].
  2:{ rewrite (running_steps (fun _ => True) p (perform a p)) in Hstop
        by (by apply perform_steps).
      congruence. }
  split; [done|]. cbn [perform] in *.
  pose proof (termination_check_loop_turn_cases p) as H. cbn zeta in H.
  destruct (has_complete_file (file_manager p)) eqn:E1; cbn [andb] in H;
    [|destruct H; congruence].
  destruct (all_neighbors_done p) eqn:E2; cbn [andb] in H;
    [|destruct H; congruence].
  destruct (session_count_ok p) eqn:E3; [|destruct H; congruence].
  destruct H as (p3 & Htr & ->).
  split; [done|]. split.
  { apply has_complete_file_all; [apply Hwf|done]. }
  split; [by apply all_neighbors_done_complete|].
  split; [by apply bool_decide_eq_true in E3|].
  split; [apply shutdown_result|]. split; [|done].
  destruct (trace_steps true (fun _ => True) p3 (shutdown p3).1)
    as [closing Hc]; [apply shutdown_steps|].
  exists closing. by rewrite Hc, Htr, app_assoc.
Qed.

(** ** The detector among the other threads *)









(** *** A poll without interference is the turn of the detector *)

Lemma visits_all (p : Peer) (registry todo : list nat)
    (seen : list (nat * list Z)) :
  forallb (fun c => negb (neighbor_short p c)) todo = true →
  ∃ seen',
    schedule (replicate (length todo) Poll) (p, Looping registry todo seen)
    = (p, Looping registry [] seen').
Proof.
  revert seen. induction todo as [|c todo IH]; intros seen; cbn [forallb].
  - by exists seen.
  - intros [Hc Hall]%andb_true_iff. apply negb_true_iff in Hc.
    cbn [length replicate]. unfold schedule. cbn [foldl make_move fst snd].
    cbn [detector_step]. rewrite Hc. by apply IH.
Qed.

Lemma visits_break (p : Peer) (registry todo : list nat)
    (seen : list (nat * list Z)) :
  forallb (fun c => negb (neighbor_short p c)) todo = false →
  ∃ n,
    schedule (replicate n Poll) (p, Looping registry todo seen)
    = (emit EvRelease p, Sleeping).
Proof.
  revert seen. induction todo as [|c todo IH]; intros seen; cbn [forallb];
    [done|].
  destruct (neighbor_short p c) eqn:Hc; cbn [negb andb].
  - intros _. exists 1. unfold schedule.
    cbn [replicate foldl make_move fst snd detector_step]. by rewrite Hc.
  - intros Hall. destruct (IH ((c, neighbor_bitfield (sessions p !!! c))
                                 :: seen) Hall) as [n Hn].
    exists (S n). unfold schedule in *.
    cbn [replicate foldl make_move fst snd detector_step]. by rewrite Hc.
Qed.

Lemma schedule_app (ms1 ms2 : list move) (t : Peer * detector) :
  schedule (ms1 ++ ms2) t = schedule ms2 (schedule ms1 t).
Proof. apply foldl_app. Qed.

(** The steps of the detector, taken one after the other with no step of
    another thread in between, make up the turn [perform] takes in one
    piece. *)
Lemma detector_poll_turn (p : Peer) :
  running p = true →
  ∃ n,
    schedule (replicate n Poll) (p, Sleeping)
    = (perform ActTermination p, Sleeping).
Proof.
  intros Hrun. cbn [perform].
  unfold termination_check_loop_turn, with_lock. run_M.
  destruct (has_complete_file (file_manager p)) eqn:E1; cbn [negb].
  2:{ exists 1. unfold schedule.
      cbn [replicate foldl make_move fst snd detector_step].
      by rewrite Hrun, E1. }
  cbn [fst snd].
  set (p1 := emit (EvCheck CheckLocalComplete) p).
  set (p2 := emit (EvCheck CheckNeighborsComplete) (emit EvAcquire p1)).
  assert (Hdone : all_neighbors_done p2
                  = forallb (fun c => negb (neighbor_short p2 c))
                      (dict_values (connections p1))) by done.
  assert (H2 : schedule [Poll; Poll] (p, Sleeping)
               = (p2, Looping (dict_values (connections p1))
                        (dict_values (connections p1)) [])).
  { unfold schedule. cbn [foldl make_move fst snd detector_step].
    by rewrite Hrun, E1. }
  destruct (all_neighbors_done p2) eqn:E2.
  - destruct (visits_all p2 (dict_values (connections p1))
                (dict_values (connections p1)) []) as [seen Hv]; [done|].
    exists (2 + (length (dict_values (connections p1)) + 2)).
    rewrite !replicate_add, !schedule_app.
    change (replicate 2 Poll) with [Poll; Poll]. rewrite H2, Hv.
    unfold schedule. cbn [foldl make_move fst snd detector_step].
    change (session_count_ok (emit EvRelease p2))
      with (session_count_ok
              (emit (EvCheck CheckSessionCount) (emit EvRelease p2))).
    by destruct (session_count_ok _).
  - destruct (visits_break p2 (dict_values (connections p1))
                (dict_values (connections p1)) []) as [n Hv]; [done|].
    exists (2 + n). rewrite replicate_add, schedule_app.
    change (replicate 2 Poll) with [Poll; Poll]. by rewrite H2, Hv.
Qed.





(** * Transport errors *)






(** * Selection of the preferred neighbors *)

Section StableSort.

Context {A : Type}.
Variable key : A → Z.

Lemma insert_desc_perm (x : A) (xs : list A) :
    insert_desc key x xs ≡ₚ x :: xs.
  Proof.
    induction xs as [|y ys IH]; cbn [insert_desc]; [done|].
    case_decide; [done|]. rewrite IH. apply Permutation_swap.
  Qed.

Lemma sort_desc_perm (xs : list A) : sort_desc key xs ≡ₚ xs.
  Proof.
    induction xs as [|x xs IH]; cbn [sort_desc foldr]; [done|].
    fold (sort_desc key xs). by rewrite insert_desc_perm, IH.
  Qed.

Lemma insert_desc_sorted (x : A) (xs : list A) :
    sorted_desc key xs → sorted_desc key (insert_desc key x xs).
  Proof.
    unfold sorted_desc.
    induction 1 as [|y ys Hys IH Hall]; cbn [insert_desc].
    { repeat constructor. }
    case_decide as Hle.
    - constructor; [by constructor|]. constructor; [done|].
      eapply Forall_impl; [exact Hall|]. intros z Hz. cbn in Hz. lia.
    - constructor; [done|].
      rewrite (insert_desc_perm x ys). constructor; [lia|done].
  Qed.

Lemma sort_desc_sorted (xs : list A) : sorted_desc key (sort_desc key xs).
  Proof.
    induction xs as [|x xs IH]; cbn [sort_desc foldr]; [constructor|].
    by apply insert_desc_sorted.
  Qed.

Lemma insert_desc_ties (x : A) (xs : list A) (v : Z) :
    filter (fun a => key a = v) (insert_desc key x xs)
    = filter (fun a => key a = v) (x :: xs).
  Proof.
    induction xs as [|y ys IH]; cbn [insert_desc]; [done|].
    case_decide as Hle; [done|].
    rewrite (filter_cons _ y), IH, !(filter_cons _ x), (filter_cons _ y).
    repeat case_decide; try done. lia.
  Qed.

Lemma sort_desc_ties (xs : list A) : ties_in_order key xs (sort_desc key xs).
  Proof.
    intros v. induction xs as [|x xs IH]; cbn [sort_desc foldr]; [done|].
    fold (sort_desc key xs).
    rewrite insert_desc_ties, !(filter_cons _ x), IH. done.
  Qed.

End StableSort.

Section Shuffle.

Context {A : Type}.
  Implicit Types x y : list A.

Lemma insert_perm x (j : nat) (a b : A) :
    x !! j = Some b → b :: <[j:=a]> x ≡ₚ a :: x.
  Proof.
    revert j. induction x as [|h t IH]; intros [|j]; cbn; try done.
    - intros [= ->]. apply Permutation_swap.
    - intros Hj. etrans; [apply Permutation_swap|].
      etrans; [apply Permutation_skip, (IH j Hj)|]. apply Permutation_swap.
  Qed.

Lemma swap_length x (i j : nat) : length (swap x i j) = length x.
  Proof.
    unfold swap. destruct (x !! i), (x !! j); try done.
    by rewrite !length_insert.
  Qed.

Lemma swap_perm x (i j : nat) : swap x i j ≡ₚ x.
  Proof.
    unfold swap.
    destruct (x !! i) as [a|] eqn:Ei; [|done].
    destruct (x !! j) as [b|] eqn:Ej; [|done].
    destruct (decide (i = j)) as [->|Hne].
    { rewrite list_insert_insert_eq, list_insert_id; [done|congruence]. }
    apply (Permutation_cons_inv (a := b)).
    etrans; [apply insert_perm; by rewrite list_lookup_insert_ne|].
    by apply insert_perm.
  Qed.

Lemma swap_app_l x t (i j : nat) :
    i < length x → j < length x → swap (x ++ t) i j = swap x i j ++ t.
  Proof.
    intros Hi Hj. unfold swap. rewrite !lookup_app_l by done.
    destruct (lookup_lt_is_Some_2 x i Hi) as [a ->].
    destruct (lookup_lt_is_Some_2 x j Hj) as [b ->].
    rewrite insert_app_l by done.
    by rewrite insert_app_l by (by rewrite length_insert).
  Qed.

Lemma swap_last x0 (a b : A) (j : nat) :
    (x0 ++ [a]) !! j = Some b →
    ∃ x0', swap (x0 ++ [a]) (length x0) j = x0' ++ [b]
           ∧ length x0' = length x0.
  Proof.
    intros Hj. unfold swap. rewrite list_lookup_middle by done. rewrite Hj.
    apply lookup_snoc_Some in Hj as [[Hlt Hj]|[-> <-]].
    - exists (<[j:=a]> x0). split; [|by rewrite length_insert].
      rewrite (insert_app_r_alt x0 [a] (length x0)) by done.
      rewrite Nat.sub_diag. cbn [insert list_insert].
      by rewrite insert_app_l.
    - exists x0. split; [|done].
      rewrite list_insert_insert_eq.
      rewrite (insert_app_r_alt x0 [a] (length x0)) by done.
      by rewrite Nat.sub_diag.
  Qed.

Lemma randbelow_lt (n : nat) (draws : list nat) :
    0 < n → (randbelow n draws).1 < n.
  Proof.
    intros Hn. destruct draws as [|r draws]; cbn; [done|].
    apply Nat.mod_upper_bound. lia.
  Qed.

Lemma shuffle_from_length (i : nat) (draws : list nat) x :
    length (shuffle_from i draws x) = length x.
  Proof.
    revert draws x. induction i as [|i IH]; intros draws x; [done|].
    cbn [shuffle_from]. destruct (randbelow _ _) as [j draws'].
    by rewrite IH, swap_length.
  Qed.

Lemma shuffle_from_perm (i : nat) (draws : list nat) x :
    shuffle_from i draws x ≡ₚ x.
  Proof.
    revert draws x. induction i as [|i IH]; intros draws x; [done|].
    cbn [shuffle_from]. destruct (randbelow _ _) as [j draws'].
    by rewrite IH, swap_perm.
  Qed.

Lemma shuffle_from_app (i : nat) (draws : list nat) x t :
    i < length x →
    shuffle_from i draws (x ++ t) = shuffle_from i draws x ++ t.
  Proof.
    revert draws x. induction i as [|i IH]; intros draws x Hi; [done|].
    cbn [shuffle_from].
    pose proof (randbelow_lt (S i + 1) draws ltac:(lia)) as Hj.
    destruct (randbelow _ _) as [j draws']. cbn [fst] in Hj.
    rewrite swap_app_l by lia.
    apply IH. rewrite swap_length. lia.
  Qed.

  (** Every arrangement of the items is the outcome of some draws. *)
Lemma shuffle_from_onto (n : nat) x y :
    length x = S n → y ≡ₚ x →
    ∃ draws, draws_for n draws ∧ shuffle_from n draws x = y.
  Proof.
    revert x y. induction n as [|n IH]; intros x y Hlen Hperm.
    { exists []. split; [done|]. cbn.
      destruct x as [|a [|]]; try done.
      symmetry. by apply Permutation_singleton_r. }
    destruct x as [|a0 x1 _] using rev_ind; [done|].
    rewrite length_app in Hlen. cbn in Hlen.
    assert (Hx1 : length x1 = S n) by lia. clear Hlen.
    destruct y as [|b y0 _] using rev_ind.
    { apply Permutation_nil_l in Hperm. by destruct x1. }
    assert (Hb : b ∈ x1 ++ [a0]).
    { rewrite <- Hperm. apply elem_of_app. right. by left. }
    apply list_elem_of_lookup_1 in Hb as [j Hj].
    assert (Hjlt : j < S n + 1).
    { apply lookup_lt_Some in Hj. rewrite length_app in Hj. cbn in Hj. lia. }
    destruct (swap_last x1 a0 b j Hj) as (x0' & Hswap & Hlen').
    assert (Hp' : y0 ≡ₚ x0').
    { apply (Permutation_app_inv_r [b]).
      rewrite Hperm, <- Hswap. by rewrite swap_perm. }
    destruct (IH x0' y0 ltac:(lia) Hp') as (rest & Hd & Hs).
    exists (j :: rest). split; [done|].
    cbn [shuffle_from randbelow]. rewrite Nat.mod_small by lia.
    rewrite <- Hx1, Hswap.
    rewrite shuffle_from_app by lia. by rewrite Hs.
  Qed.

  (** On distinct items, different draws give different arrangements. *)
Lemma shuffle_from_inj (n : nat) x (d1 d2 : list nat) :
    length x = S n → NoDup x →
    draws_for n d1 → draws_for n d2 →
    shuffle_from n d1 x = shuffle_from n d2 x → d1 = d2.
  Proof.
    revert x d1 d2. induction n as [|n IH]; intros x d1 d2 Hlen Hnd H1 H2.
    { destruct d1, d2; done. }
    destruct d1 as [|r1 d1]; [done|]. destruct d2 as [|r2 d2]; [done|].
    destruct H1 as [Hr1 H1]. destruct H2 as [Hr2 H2].
    destruct x as [|a0 x1 _] using rev_ind; [done|].
    rewrite length_app in Hlen. cbn in Hlen.
    assert (Hx1 : length x1 = S n) by lia. clear Hlen.
    cbn [shuffle_from randbelow]. rewrite !Nat.mod_small by lia.
    destruct (lookup_lt_is_Some_2 (x1 ++ [a0]) r1) as [b1 Hb1].
    { rewrite length_app. cbn. lia. }
    destruct (lookup_lt_is_Some_2 (x1 ++ [a0]) r2) as [b2 Hb2].
    { rewrite length_app. cbn. lia. }
    destruct (swap_last x1 a0 b1 r1 Hb1) as (x1' & Hs1 & Hl1).
    destruct (swap_last x1 a0 b2 r2 Hb2) as (x2' & Hs2 & Hl2).
    rewrite <- Hx1, Hs1, Hs2.
    rewrite !shuffle_from_app by lia.
    intros [E Eb]%app_inj_2; [|done]. injection Eb as ->.
    assert (r1 = r2) as -> by (by eapply NoDup_lookup).
    rewrite Hs1 in Hs2. apply app_inj_2 in Hs2 as [-> _]; [|done].
    f_equal. apply (IH x2'); try done; [lia|].
    assert (Hnd' : NoDup (x2' ++ [b2])).
    { rewrite <- Hs1. by rewrite swap_perm. }
    by apply NoDup_app in Hnd' as [? _].
  Qed.

End Shuffle.

Section StableSortUnique.

Context {A : Type}.
Variable key : A → Z.

Lemma filter_key_head (a b : A) (l1 l2 : list A) :
    key a ≠ key b →
    filter (fun x => key x = key b) (a :: l1)
    = filter (fun x => key x = key b) (b :: l2) →
    b ∈ l1.
  Proof.
    intros Hne. rewrite filter_cons_False by done.
    rewrite filter_cons_True by done. intros E.
    assert (Hb : b ∈ filter (fun x => key x = key b) l1)
      by (rewrite E; left).
    by apply list_elem_of_filter in Hb as [_ ?].
  Qed.

  (** A descending list is determined by the order of its ties: whatever
      stable sort is used, the result is the same. *)
Lemma stable_sort_unique (l1 l2 : list A) :
    sorted_desc key l1 → sorted_desc key l2 →
    (∀ v, filter (fun x => key x = v) l1 = filter (fun x => key x = v) l2) →
    l1 = l2.
  Proof.
    unfold sorted_desc. intros H1. revert l2.
    induction H1 as [|a l1 Hs1 IH Ha]; intros l2 H2 Hf.
    { destruct l2 as [|b l2]; [done|].
      specialize (Hf (key b)). by rewrite filter_cons_True in Hf. }
    destruct H2 as [|b l2 Hs2 Hb].
    { specialize (Hf (key a)). by rewrite filter_cons_True in Hf. }
    assert (Hk : key a = key b).
    { destruct (decide (key a = key b)) as [|Hne]; [done|].
      pose proof (filter_key_head a b l1 l2 Hne (Hf (key b))) as Hin1.
      pose proof (filter_key_head b a l2 l1 (not_eq_sym Hne)
                    (eq_sym (Hf (key a)))) as Hin2.
      rewrite Forall_forall in Ha, Hb.
      specialize (Ha b Hin1). specialize (Hb a Hin2). cbn in Ha, Hb. lia. }
    pose proof (Hf (key a)) as Hfa.
    rewrite filter_cons_True, (filter_cons_True _ b) in Hfa by done.
    injection Hfa as <- Hta. f_equal. apply IH; [done|].
    intros v. destruct (decide (key a = v)) as [<-|Hv]; [done|].
    specialize (Hf v). by rewrite !filter_cons_False in Hf.
  Qed.

End StableSortUnique.

Lemma slice_to_nonneg {A} (k : Z) (xs : list A) :
  (0 ≤ k)%Z → slice_to k xs = take (Z.to_nat k) xs.
Proof. intros Hk. unfold slice_to. by rewrite decide_True. Qed.

(** C2 (as amended). In a preferred-neighbor cycle over a snapshot of
    interested sessions the preferred list is the first k items of an
    arrangement of the snapshot.  If the local store has the complete file
    the arrangement is [random.shuffle] of the snapshot: draws in range
    reach every arrangement, and on distinct sessions different draws give
    different arrangements, so every arrangement, and with it every
    k-subset, is equally likely.  Otherwise the arrangement is the stable
    sort of the snapshot, descending by the interval byte count: it is the
    one descending arrangement in which sessions with equal byte counts
    keep their snapshot order, and no random draw enters. *)
Theorem preferred_selection (draws : list nat) (p : Peer)
    (snapshot : list nat) :
  let k := preferred_count p in
  let key := fun c => downloaded_bytes_interval (sessions p !!! c) in
  (has_complete_file (file_manager p) = true →
   select_preferred draws p snapshot = slice_to k (shuffle draws snapshot)
   ∧ shuffle draws snapshot ≡ₚ snapshot)
  ∧ (snapshot ≠ [] → ∀ y, y ≡ₚ snapshot →
     ∃ d, draws_for (length snapshot - 1) d ∧ shuffle d snapshot = y)
  ∧ (NoDup snapshot → ∀ d1 d2,
     draws_for (length snapshot - 1) d1 →
     draws_for (length snapshot - 1) d2 →
     shuffle d1 snapshot = shuffle d2 snapshot → d1 = d2)
  ∧ (has_complete_file (file_manager p) = false →
     ∃ sorted,
       select_preferred draws p snapshot = slice_to k sorted
       ∧ sorted ≡ₚ snapshot
       ∧ sorted_desc key sorted
       ∧ ties_in_order key snapshot sorted
       ∧ (∀ other, sorted_desc key other →
                   ties_in_order key snapshot other → other = sorted)
       ∧ (∀ draws', select_preferred draws' p snapshot
                    = select_preferred draws p snapshot))
  ∧ ((0 ≤ k)%Z → ∀ xs : list nat, slice_to k xs = take (Z.to_nat k) xs).
Proof.
  intros k key. split; [|split; [|split; [|split]]].
  - intros Hc. unfold select_preferred. rewrite Hc. split; [done|].
    apply shuffle_from_perm.
  - intros Hne y Hy. unfold shuffle.
    destruct snapshot as [|c cs]; [done|].
    apply shuffle_from_onto; [|done]. cbn. lia.
  - intros Hnd d1 d2 H1 H2 E. unfold shuffle in E.
    destruct snapshot as [|c cs].
    { cbn in H1, H2. by destruct d1, d2. }
    eapply shuffle_from_inj; [| exact Hnd | exact H1 | exact H2 | exact E].
    cbn. lia.
  - intros Hc. exists (sort_desc key snapshot).
    unfold select_preferred. rewrite Hc. split; [done|].
    split; [apply sort_desc_perm|]. split; [apply sort_desc_sorted|].
    split; [apply sort_desc_ties|]. split; [|done].
    intros other Hs Ht. apply (stable_sort_unique key); [done| |].
    + apply sort_desc_sorted.
    + intros v. rewrite (Ht v). symmetry. apply sort_desc_ties.
  - intros Hk xs. by apply slice_to_nonneg.
Qed.

(** C2 as stated fails on ties: with byte counts X:2, Y:1, Z:1, W:0 and
    k = 2 the tie between Y and Z is never broken in favor of Z; whatever
    the generator draws, the preferred neighbors are X and Y. *)
Lemma tie_broken_by_order :
  interested_neighbors tie_example = [0; 1; 2; 3]
  ∧ (fun c => downloaded_bytes_interval (sessions tie_example !!! c))
      <$> interested_neighbors tie_example = [2; 1; 1; 0]%Z
  ∧ has_complete_file (file_manager tie_example) = false
  ∧ preferred_count tie_example = 2%Z
  ∧ ¬ ∃ draws,
        2 ∈ select_preferred draws tie_example
              (interested_neighbors tie_example).
Proof.
  repeat split. intros [draws H].
  assert (E : select_preferred draws tie_example
                (interested_neighbors tie_example) = [0; 1])
    by reflexivity.
  rewrite E in H. clear E.
  apply elem_of_cons in H as [H|H]; [done|].
  apply elem_of_cons in H as [H|H]; [done|].
  by apply elem_of_nil in H.
Qed.

(** * The number of unchoked sessions *)

Lemma reachable_run (actions : list action) (p : Peer) :
  reachable p →
  (∀ n a, actions !! n = Some a → enabled a (run (take n actions) p)) →
  reachable (run actions p).
Proof.
  intros Hp. induction actions as [|a actions IH] using rev_ind; [done|].
  intros Hen. unfold run. rewrite foldl_app. cbn [foldl].
  apply reachable_step.
  - apply IH. intros n a' Hn.
    assert (Hlt : n < length actions) by (by eapply lookup_lt_Some).
    specialize (Hen n a').
    rewrite lookup_app_l, take_app_le in Hen by lia. by apply Hen.
  - specialize (Hen (length actions) a).
    rewrite list_lookup_middle, take_app_length in Hen by done.
    by apply Hen.
Qed.

(** C1 fails on the code.  With k = 1 the example state is reachable and
    has k + 1 = 2 unchoked sessions, the preferred session 0 and the
    optimistic session 2.  The next optimistic cycle unchokes session 1 and
    only clears the mark of session 2, which stays unchoked: three sessions
    are unchoked, more than k + 1. *)
Theorem optimistic_cycle_exceeds_bound :
  reachable unchoke_example
  ∧ preferred_count unchoke_example = 1%Z
  ∧ unchoked unchoke_example = [0; 2]
  ∧ is_optimistic (sessions unchoke_example !!! 2) = Some true
  ∧ unchoked (perform (ActOptimistic [0]) unchoke_example) = [0; 1; 2]
  ∧ (Z.of_nat (length (unchoked (perform (ActOptimistic [0%nat])
                                   unchoke_example)))
     > preferred_count unchoke_example + 1)%Z
  ∧ is_optimistic
      (sessions (perform (ActOptimistic [0]) unchoke_example) !!! 2)
    = Some false.
Proof.
  split.
  { apply reachable_run; [apply reachable_init|].
    intros n a Hn.
    do 8 (destruct n as [|n]; [injection Hn as <-; vm_compute; lia || exact I|]).
    done. }
  repeat split.
Qed.

(** * The handshake and the framing *)

Lemma unpack_pack_I (n : Z) :
  (0 ≤ n < 2 ^ 32)%Z →
  ∃ bs, pack_I n = Ret bs ∧ length bs = 4
        ∧ Forall (fun b => 0 ≤ b < 256)%Z bs
        ∧ unpack_I bs = Ret (Z.to_nat n).
Proof.
  intros Hn. unfold pack_I. rewrite decide_True by done.
  eexists. split; [reflexivity|]. split; [done|]. split.
  - repeat (constructor; [apply Z.mod_pos_bound; lia|]). constructor.
  - cbn [unpack_I]. do 2 f_equal.
    change (2 ^ 24)%Z with (256 * (256 * 256))%Z.
    change (2 ^ 16)%Z with (256 * 256)%Z. change (2 ^ 8)%Z with 256%Z.
    rewrite <- !Z.div_div by lia.
    assert (H3 : (n / 256 / 256 / 256 < 256)%Z).
    { repeat (apply Z.div_lt_upper_bound; [lia|]). lia. }
    assert (H3' : (0 ≤ n / 256 / 256 / 256)%Z) by (repeat apply Z.div_pos; lia).
    rewrite (Z.mod_small (n / 256 / 256 / 256)) by lia.
    pose proof (Z.div_mod n 256 ltac:(lia)).
    pose proof (Z.div_mod (n / 256) 256 ltac:(lia)).
    pose proof (Z.div_mod (n / 256 / 256) 256 ltac:(lia)).
    lia.
Qed.

Lemma pack_I_range (n : Z) (bs : list Z) :
  pack_I n = Ret bs → (0 ≤ n < 2 ^ 32)%Z.
Proof. unfold pack_I. by case_decide. Qed.

Lemma handshake_create_parse (peer_id : Z) :
  (0 ≤ peer_id < 2 ^ 32)%Z →
  ∃ msg, create_handshake_message peer_id = Ret msg
         ∧ length msg = 32
         ∧ parse_handshake_message msg = Ret (Some (Z.to_nat peer_id)).
Proof.
  intros Hn. destruct (unpack_pack_I peer_id Hn) as (bs & E & Hl & _ & Hu).
  unfold create_handshake_message. rewrite E. res_simpl.
  eexists. split; [reflexivity|].
  destruct bs as [|b3 [|b2 [|b1 [|b0 [|]]]]]; try done.
  split; [done|]. unfold parse_handshake_message.
  rewrite decide_False by (intros H; by apply H).
  rewrite decide_False by (intros H; by apply H).
  change (slice 28 32 _) with [b3; b2; b1; b0]. by rewrite Hu.
Qed.

(** X1. A handshake built for a 32-bit peer identifier has 32 bytes and
    parses back to that identifier; for any other integer building it
    raises [struct.error]. *)
Theorem handshake_roundtrip (peer_id : Z) :
  ((0 ≤ peer_id < 2 ^ 32)%Z →
   ∃ msg, create_handshake_message peer_id = Ret msg
          ∧ length msg = 32
          ∧ parse_handshake_message msg = Ret (Some (Z.to_nat peer_id)))
  ∧ (¬ (0 ≤ peer_id < 2 ^ 32)%Z →
     create_handshake_message peer_id = Raise StructError).
Proof.
  split.
  - apply handshake_create_parse.
  - intros Hn. unfold create_handshake_message, pack_I.
    by rewrite decide_False.
Qed.

Lemma parse_handshake_unfold (data : list Z) :
  parse_handshake_message data
  = if decide (length data ≠ 32) then Ret None
    else if decide (take 18 data ≠ HANDSHAKE_HEADER) then Ret None
    else peer_id ← unpack_I (take 4 (drop 28 data)); Ret (Some peer_id).
Proof. reflexivity. Qed.

(** X2. Parsing a handshake never raises; it answers [None] exactly when
    the data is not 32 bytes long or does not start with the 18 header
    bytes.  The ten padding bytes are not looked at. *)
Theorem handshake_rejection (data : list Z) :
  ∃ r, parse_handshake_message data = Ret r
       ∧ (r = None ↔ length data ≠ 32 ∨ take 18 data ≠ HANDSHAKE_HEADER)
       ∧ ∀ pad, length pad = 10 →
           parse_handshake_message
             (take 18 data ++ pad ++ drop 28 data)
           = parse_handshake_message data.
Proof.
  setoid_rewrite parse_handshake_unfold.
  destruct (decide (length data ≠ 32)) as [Hl|Hl].
  { exists None. split; [done|]. split; [by intuition|].
    intros pad Hp. rewrite decide_True; [done|].
    rewrite !length_app, length_take, length_drop. lia. }
  apply dec_stable in Hl.
  assert (Hlen : ∀ pad, length pad = 10 →
            length (take 18 data ++ pad ++ drop 28 data) = 32).
  { intros pad Hp. rewrite !length_app, length_take, length_drop. lia. }
  assert (Htake : ∀ pad, take 18 (take 18 data ++ pad ++ drop 28 data)
                         = take 18 data).
  { intros pad. rewrite take_app_length'; [done|].
    rewrite length_take. lia. }
  assert (Hdrop : ∀ pad, length pad = 10 →
            drop 28 (take 18 data ++ pad ++ drop 28 data) = drop 28 data).
  { intros pad Hp. rewrite app_assoc. rewrite drop_app_length'; [done|].
    rewrite length_app, length_take. lia. }
  destruct (decide (take 18 data ≠ HANDSHAKE_HEADER)) as [Hh|Hh].
  { exists None. split; [done|]. split; [by intuition|].
    intros pad Hp. rewrite decide_False by (rewrite Hlen; auto).
    rewrite Htake. by rewrite decide_True. }
  assert (H4 : length (take 4 (drop 28 data)) = 4).
  { rewrite length_take, length_drop. lia. }
  destruct (take 4 (drop 28 data))
    as [|b3 [|b2 [|b1 [|b0 [|]]]]] eqn:E; try done.
  eexists. split; [reflexivity|]. split.
  { split; [done|]. intros [?|?]; done. }
  intros pad Hp. rewrite decide_False by (rewrite Hlen; auto).
  rewrite Htake, decide_False by done. rewrite Hdrop by done.
  by rewrite E.
Qed.

Lemma sock_recv_delivers (s : Inbound) (bufsize : nat) :
  delivers s → 0 < bufsize →
  ∃ m, 0 < m ≤ bufsize
       ∧ sock_recv s bufsize
         = (mkInbound (drop m (pending s)) (tail (outcomes s)),
            Ret (take m (pending s)))
       ∧ delivers (mkInbound (drop m (pending s)) (tail (outcomes s))).
Proof.
  unfold delivers, sock_recv. intros Hd Hb.
  destruct (outcomes s) as [|[k|e] rest]; cbn [tail outcomes].
  - exists bufsize. split; [lia|]. split; [done|]. constructor.
  - exists (Nat.min bufsize (Nat.max 1 k)). split; [lia|].
    split; [done|]. by inversion Hd.
  - inversion Hd as [|? ? [k Hk] _]. done.
Qed.

Lemma read_loop_spec (fuel n : nat) (data : list Z) (s : Inbound) :
  delivers s → length data ≤ n → n - length data ≤ fuel →
  if decide (n ≤ length data + length (pending s)) then
    ∃ s', read_loop fuel n data s
          = (s', Ret (data ++ take (n - length data) (pending s)))
          ∧ pending s' = drop (n - length data) (pending s)
          ∧ delivers s'
  else ∃ s', read_loop fuel n data s = (s', Raise ConnectionError).
Proof.
  revert data s. induction fuel as [|fuel IH]; intros data s Hd Hlen Hfuel.
  { assert (length data = n) as Hn by lia. cbn [read_loop].
    rewrite (decide_False (P:=length data < n)) by lia.
    rewrite (decide_True (P:=n ≤ length data + length (pending s))) by lia.
    replace (n - length data) with 0 by lia.
    exists s. rewrite take_0, app_nil_r, drop_0. by destruct s. }
  cbn [read_loop]. destruct (decide (length data < n)) as [Hlt|Hge].
  2:{ rewrite (decide_True (P:=n ≤ length data + length (pending s))) by lia.
      replace (n - length data) with 0 by lia.
      exists s. rewrite take_0, app_nil_r, drop_0. by destruct s. }
  destruct (sock_recv_delivers s (n - length data) Hd ltac:(lia))
    as (m & Hm & E & Hd').
  rewrite E. clear E.
  destruct (take m (pending s)) as [|b packet] eqn:Et.
  - assert (Hp : pending s = []).
    { destruct (pending s); [done|]. destruct m; [lia|done]. }
    rewrite decide_False by (rewrite Hp; cbn; lia). by eexists.
  - assert (Hne : 0 < length (pending s)).
    { destruct (pending s); [by rewrite take_nil in Et|cbn; lia]. }
    rewrite <- Et. clear b packet Et.
    set (s1 := mkInbound (drop m (pending s)) (tail (outcomes s))) in *.
    specialize (IH (data ++ take m (pending s)) s1 Hd').
    assert (Hl : length (data ++ take m (pending s))
                 = length data + Nat.min m (length (pending s)))
      by (by rewrite length_app, length_take).
    rewrite Hl in IH. cbn [pending s1] in IH. rewrite length_drop in IH.
    specialize (IH ltac:(lia) ltac:(lia)).
    destruct (decide (n ≤ length data + length (pending s))) as [Hn|Hn].
    + rewrite decide_True in IH by lia.
      destruct IH as (s' & E' & Hp' & Hd'').
      exists s'. rewrite E'. split; [|split; [|done]].
      * f_equal. f_equal. rewrite <- app_assoc. f_equal.
        replace (Nat.min m (length (pending s))) with m by lia.
        rewrite take_take_drop. f_equal. lia.
      * rewrite Hp', drop_drop. f_equal. lia.
    + rewrite decide_False in IH by lia. done.
Qed.

Lemma read_n_bytes_take (s : Inbound) (n : nat) :
  delivers s → n ≤ length (pending s) →
  ∃ s', read_n_bytes s n = (s', Ret (take n (pending s)))
        ∧ pending s' = drop n (pending s) ∧ delivers s'.
Proof.
  intros Hd Hn. unfold read_n_bytes.
  pose proof (read_loop_spec n n [] s Hd ltac:(cbn; lia) ltac:(cbn; lia))
    as H.
  rewrite decide_True in H by (cbn; lia).
  cbn [length app] in H. by rewrite Nat.sub_0_r in H.
Qed.

Lemma read_n_bytes_short (s : Inbound) (n : nat) :
  delivers s → length (pending s) < n →
  ∃ s', read_n_bytes s n = (s', Raise ConnectionError).
Proof.
  intros Hd Hn. unfold read_n_bytes.
  pose proof (read_loop_spec n n [] s Hd ltac:(cbn; lia) ltac:(cbn; lia))
    as H.
  by rewrite decide_False in H by (cbn; lia).
Qed.

(** X3. [read_n_bytes] hands back exactly the next [n] bytes of the stream,
    however [recv] splits them, and leaves the rest of the stream for the
    next read; when the stream ends before [n] bytes arrived it raises
    [ConnectionError].  An exception of [recv] itself is passed on. *)
Theorem read_n_bytes_exact (s : Inbound) (n : nat) :
  (delivers s → n ≤ length (pending s) →
   ∃ s', read_n_bytes s n = (s', Ret (take n (pending s)))
         ∧ pending s' = drop n (pending s) ∧ delivers s')
  ∧ (delivers s → length (pending s) < n →
     ∃ s', read_n_bytes s n = (s', Raise ConnectionError))
  ∧ (∀ e rest, 0 < n → outcomes s = Fail e :: rest →
     read_n_bytes s n = (mkInbound (pending s) rest, Raise e)).
Proof.
  split; [|split].
  - apply read_n_bytes_take.
  - apply read_n_bytes_short.
  - intros e rest Hn Ho. unfold read_n_bytes. destruct n as [|n]; [lia|].
    cbn [read_loop length]. rewrite decide_True by lia.
    unfold sock_recv. by rewrite Ho.
Qed.

Lemma frame_parts (msg_type : Z) (payload : list Z) :
  (0 ≤ msg_type ≤ 255)%Z →
  (1 + Z.of_nat (length payload) < 2 ^ 32)%Z →
  ∃ len_bytes,
    frame msg_type payload = Ret (len_bytes ++ msg_type :: payload)
    ∧ length len_bytes = 4
    ∧ unpack_I len_bytes = Ret (S (length payload)).
Proof.
  intros Ht Hl.
  destruct (unpack_pack_I (1 + Z.of_nat (length payload)) ltac:(lia))
    as (bs & E & Hlen & _ & Hu).
  exists bs. unfold frame, pack_IB. rewrite E. res_simpl.
  rewrite decide_True by done. res_simpl. rewrite <- app_assoc.
  split; [done|]. split; [done|]. rewrite Hu. f_equal. lia.
Qed.

(** X4. A frame written by [send_message] is read back by the two reads of
    the receive loop as its message type followed by its payload, however
    the transport splits the bytes, and the read stops at the end of the
    frame. *)
Theorem frame_roundtrip (s : Inbound) (c : PeerConnection) (msg_type : Z)
    (payload rest : list Z) (fr : list Z) :
  (0 ≤ msg_type ≤ 255)%Z →
  (1 + Z.of_nat (length payload) < 2 ^ 32)%Z →
  frame msg_type payload = Ret fr →
  delivers s →
  pending s = fr ++ rest →
  (∃ c' ok, send_message c msg_type payload = Ret (c', (fr, ok)))
  ∧ ∃ s', read_frame s = (s', RecvFrame (msg_type :: payload))
          ∧ pending s' = rest ∧ delivers s'.
Proof.
  intros Ht Hl Hf Hd Hp. split.
  { unfold frame in Hf. unfold send_message.
    destruct (pack_IB _ _) as [header|]; [|done]. res_simpl.
    injection Hf as <-. destruct (sendall _ _); by eexists _, _. }
  destruct (frame_parts msg_type payload Ht Hl) as (lb & Hf' & Hlb & Hu).
  rewrite Hf in Hf'. injection Hf' as ->.
  unfold read_frame.
  destruct (read_n_bytes_take s 4) as (s1 & E1 & Hp1 & Hd1); [done| |].
  { rewrite Hp, !length_app. lia. }
  rewrite E1, Hp. rewrite <- app_assoc.
  rewrite take_app_length' by done. rewrite Hu.
  rewrite decide_True by lia.
  rewrite Hp, <- app_assoc, drop_app_length' in Hp1 by done.
  destruct (read_n_bytes_take s1 (S (length payload)))
    as (s2 & E2 & Hp2 & Hd2); [done| |].
  { rewrite Hp1, length_app. cbn. lia. }
  rewrite E2. exists s2. rewrite Hp1 in *.
  change (msg_type :: payload ++ rest) with ((msg_type :: payload) ++ rest)
    in *.
  rewrite take_app_length' by done.
  rewrite drop_app_length' in Hp2 by done. done.
Qed.

Lemma frame_roundtrip_witness :
  (∃ c' ok,
     send_message (PeerConnection_init (mkSocket false false) 1002 3)
       MSG_HAVE [0; 0; 0; 7]%Z = Ret (c', (have_7_frame, ok)))
  ∧ ∃ s', read_frame frame_example
          = (s', RecvFrame (MSG_HAVE :: [0; 0; 0; 7]%Z))
          ∧ pending s' = [9%Z] ∧ delivers s'.
Proof.
  apply (frame_roundtrip frame_example
           (PeerConnection_init (mkSocket false false) 1002 3)
           MSG_HAVE [0; 0; 0; 7]%Z [9%Z] have_7_frame).
  - unfold MSG_HAVE. lia.
  - simpl. lia.
  - reflexivity.
  - unfold delivers. simpl. repeat (constructor; [by eexists|]). constructor.
  - reflexivity.
Defined.

(** * The piece store *)

Lemma file_write_lookup (content data : list Z) (o p : nat) :
  (take o content ++ replicate (o - length content) 0%Z ++ data
     ++ drop (o + length data) content) !! p
  = if decide (p < o) then
      if decide (p < length content) then content !! p else Some 0%Z
    else if decide (p < o + length data) then data !! (p - o)
    else content !! p.
Proof.
  assert (L1 : length (take o content ++ replicate (o - length content) 0%Z)
               = o) by (rewrite length_app, length_take, length_replicate; lia).
  rewrite app_assoc.
  destruct (decide (p < o)) as [Hp|Hp].
  - rewrite lookup_app_l by lia.
    destruct (decide (p < length content)) as [Hc|Hc].
    + rewrite lookup_app_l by (rewrite length_take; lia).
      by rewrite lookup_take_lt.
    + rewrite lookup_app_r by (rewrite length_take; lia).
      rewrite length_take. apply lookup_replicate_2. lia.
  - rewrite lookup_app_r by lia. rewrite L1.
    destruct (decide (p < o + length data)) as [Hd|Hd].
    + by rewrite lookup_app_l by lia.
    + rewrite lookup_app_r by lia. rewrite lookup_drop. f_equal. lia.
Qed.

Lemma file_write_length (content data : list Z) (o : nat) :
  length (take o content ++ replicate (o - length content) 0%Z ++ data
            ++ drop (o + length data) content)
  = length content `max` (o + length data).
Proof.
  rewrite !length_app, length_take, length_replicate, length_drop. lia.
Qed.

Lemma write_piece_ok (fm : FileManager) (index : nat) (data content : list Z) :
  disk fm = Some content →
  (0 ≤ piece_size fm)%Z →
  index < length (bitfield fm) →
  let o := Z.to_nat (Z.of_nat index * piece_size fm) in
  ∃ fm',
    write_piece fm index data = (fm', Ret true)
    ∧ disk fm'
      = Some (take o content ++ replicate (o - length content) 0%Z ++ data
                ++ drop (o + length data) content)
    ∧ bitfield fm' = <[index:=1%Z]> (bitfield fm)
    ∧ requested_pieces fm' = requested_pieces fm ∖ {[index]}
    ∧ file_size fm' = file_size fm ∧ piece_size fm' = piece_size fm
    ∧ num_pieces fm' = num_pieces fm.
Proof.
  intros Hd HS Hi o. unfold write_piece, file_write. rewrite Hd.
  rewrite decide_False by nia. unfold list_set. cbn [bitfield set_disk].
  rewrite decide_True by done.
  eexists. split; [reflexivity|].
  case_decide as Hr; cbn [disk bitfield requested_pieces file_size piece_size
    num_pieces set_requested_pieces set_bitfield set_disk];
    repeat split; try done.
  apply set_eq. intros j. rewrite elem_of_difference, not_elem_of_singleton.
  split; [|by intros [? _]]. intros Hj. split; [done|]. by intros ->.
Qed.

(** X5. [write_piece] has three outcomes.  It returns [True] having stored
    the bytes, set the bit, and dropped the index from the outstanding
    requests; or it returns [False] (the file cannot be opened or the
    offset is refused) and the store is exactly what it was; or the index
    is outside the bitmap and it raises [IndexError] after the bytes were
    stored, with the bitmap and the outstanding requests untouched. *)
Theorem write_piece_outcomes (fm : FileManager) (index : nat)
    (data : list Z) :
  let offset := (Z.of_nat index * piece_size fm)%Z in
  let r := write_piece fm index data in
  (r.2 = Ret true
   ∧ index < length (bitfield fm)
   ∧ bitfield r.1 = <[index:=1%Z]> (bitfield fm)
   ∧ requested_pieces r.1 = requested_pieces fm ∖ {[index]}
   ∧ ∃ content content', disk fm = Some content
       ∧ file_write content offset data = Ret content'
       ∧ disk r.1 = Some content')
  ∨ (r = (fm, Ret false) ∧ (disk fm = None ∨ (offset < 0)%Z))
  ∨ (r.2 = Raise IndexError
     ∧ length (bitfield fm) ≤ index
     ∧ bitfield r.1 = bitfield fm
     ∧ requested_pieces r.1 = requested_pieces fm
     ∧ ∃ content content', disk fm = Some content
         ∧ file_write content offset data = Ret content'
         ∧ disk r.1 = Some content').
Proof.
  intros offset r. subst r. unfold write_piece. fold offset.
  destruct (disk fm) as [content|] eqn:Hd;
    [|right; left; split; [reflexivity|by left]].
  destruct (file_write content offset data) as [content'|e] eqn:Ew.
  2:{ right. left. split; [reflexivity|]. right.
      unfold file_write in Ew. by case_decide. }
  unfold list_set. cbn [bitfield set_disk].
  destruct (decide (index < length (bitfield fm))) as [Hi|Hi].
  - left. cbn [fst snd]. split; [done|]. split; [done|].
    split; [by case_decide|]. split.
    + case_decide as Hr; cbn [requested_pieces set_requested_pieces
        set_bitfield set_disk]; [done|].
      apply set_eq. intros j.
      rewrite elem_of_difference, not_elem_of_singleton.
      split; [|by intros [? _]]. intros Hj. split; [done|]. by intros ->.
    + exists content, content'. split; [done|]. split; [done|].
      by case_decide.
  - right. right. cbn [fst snd]. split; [done|]. split; [lia|].
    split; [done|]. split; [done|]. by exists content, content'.
Qed.

Section Pieces.

Variable fm : FileManager.
Hypothesis Hsized : sized fm.

Local Abbreviation psize := (Z.to_nat (piece_size fm)).
Local Abbreviation fsize := (Z.to_nat (file_size fm)).

Lemma num_pieces_bounds :
    (num_pieces fm - 1) * psize < fsize ≤ num_pieces fm * psize
    ∧ 0 < psize ∧ 0 < num_pieces fm.
  Proof.
    destruct Hsized as (HS & HF & Hn & _). rewrite Hn. unfold ceil_div.
    pose proof (Z.div_mod (- file_size fm) (piece_size fm) ltac:(lia)) as H1.
    pose proof (Z.mod_pos_bound (- file_size fm) (piece_size fm) ltac:(lia)).
    assert (Hq : (0 < - (- file_size fm / piece_size fm))%Z) by nia.
    split; [|split; [lia|lia]]. split.
    - apply Nat2Z.inj_lt. rewrite Nat2Z.inj_mul, Nat2Z.inj_sub by lia.
      rewrite !Z2Nat.id by lia. nia.
    - apply Nat2Z.inj_le. rewrite Nat2Z.inj_mul. rewrite !Z2Nat.id by lia.
      nia.
  Qed.

Lemma offset_nat (i : nat) :
    Z.to_nat (Z.of_nat i * piece_size fm) = i * psize.
  Proof.
    destruct Hsized as (HS & _). rewrite Z2Nat.inj_mul by lia.
    by rewrite Nat2Z.id.
  Qed.

Lemma piece_length_nat (i : nat) :
    i < num_pieces fm →
    (0 < piece_length fm i)%Z
    ∧ Z.to_nat (piece_length fm i) = psize `min` (fsize - i * psize)
    ∧ 0 < psize `min` (fsize - i * psize)
    ∧ i * psize + psize `min` (fsize - i * psize) ≤ fsize.
  Proof.
    intros Hi. destruct Hsized as (HS & HF & _).
    pose proof num_pieces_bounds as (Hb & _ & _).
    assert (Hlt : i * psize < fsize) by nia.
    unfold piece_length.
    assert (E : (Z.of_nat i * piece_size fm)%Z = Z.of_nat (i * psize)).
    { rewrite Nat2Z.inj_mul, Z2Nat.id by lia. done. }
    rewrite E. split; [lia|]. split; [lia|]. lia.
  Qed.

Lemma read_piece_held (i : nat) (content : list Z) :
    i < num_pieces fm →
    disk fm = Some content →
    has_piece fm i = Ret true →
    read_piece fm i = Ret (Some (piece_of fm content i)).
  Proof.
    intros Hi Hd Hh. unfold read_piece. rewrite Hh. res_simpl. cbn [negb].
    rewrite Hd. unfold file_read.
    destruct (piece_length_nat i Hi) as (Hpos & _).
    destruct Hsized as (HS & _).
    fold (piece_length fm i).
    rewrite !decide_False by lia. done.
  Qed.

Lemma piece_of_nat (content : list Z) (i : nat) :
    i < num_pieces fm →
    piece_of fm content i
    = take (psize `min` (fsize - i * psize)) (drop (i * psize) content).
  Proof.
    intros Hi. unfold piece_of.
    destruct (piece_length_nat i Hi) as (_ & -> & _). by rewrite offset_nat.
  Qed.

Lemma piece_of_lookup (content : list Z) (i k : nat) :
    i < num_pieces fm →
    piece_of fm content i !! k
    = if decide (k < psize `min` (fsize - i * psize))
      then content !! (i * psize + k) else None.
  Proof.
    intros Hi. rewrite piece_of_nat by done.
    case_decide.
    - rewrite lookup_take_lt by done. by rewrite lookup_drop.
    - by rewrite lookup_take_ge by lia.
  Qed.

  (** The pieces of a file of [file_size] bytes, in order, are the file. *)
Lemma pieces_concat (content : list Z) :
    length content = fsize →
    mjoin (piece_of fm content <$> seq 0 (num_pieces fm)) = content.
  Proof.
    intros Hlen.
    pose proof num_pieces_bounds as (Hb & Hs & Hn).
    assert (G : ∀ n, n ≤ num_pieces fm →
              mjoin (piece_of fm content <$> seq 0 n)
              = take (n * psize) content).
    { induction n as [|n IH]; intros Hle; [done|].
      rewrite seq_S, fmap_app, join_app, IH by lia.
      cbn [fmap list_fmap mjoin list_join plus]. rewrite app_nil_r.
      rewrite piece_of_nat by lia.
      destruct (decide (S n * psize ≤ fsize)) as [Hfull|Hpart].
      - rewrite Nat.min_l by lia. rewrite take_take_drop. f_equal. lia.
      - rewrite Nat.min_r by lia. rewrite take_take_drop.
        rewrite !take_ge; [done|lia|lia]. }
    rewrite G by done. apply take_ge. lia.
  Qed.

End Pieces.

Lemma piece_of_ext (fm fm' : FileManager) (content : list Z) (i : nat) :
  file_size fm' = file_size fm → piece_size fm' = piece_size fm →
  piece_of fm' content i = piece_of fm content i.
Proof. unfold piece_of, piece_length. by intros -> ->. Qed.

Lemma sized_ext (fm fm' : FileManager) :
  sized fm →
  file_size fm' = file_size fm → piece_size fm' = piece_size fm →
  num_pieces fm' = num_pieces fm →
  length (bitfield fm') = length (bitfield fm) →
  sized fm'.
Proof. unfold sized. intros (? & ? & ? & ?) -> -> -> ->. done. Qed.

(** X6. Writing a piece of the length the store expects and reading it
    back gives the same bytes, and the write changes what no other held
    piece reads as, provided that piece is stored in full. *)
Theorem piece_write_read (fm : FileManager) (i : nat)
    (content data : list Z) :
  sized fm →
  disk fm = Some content →
  i < num_pieces fm →
  length data = Z.to_nat (piece_length fm i) →
  ∃ fm',
    write_piece fm i data = (fm', Ret true)
    ∧ read_piece fm' i = Ret (Some data)
    ∧ ∀ j, j ≠ i → j < num_pieces fm →
        has_piece fm j = Ret true →
        Z.to_nat (Z.of_nat j * piece_size fm)
        + Z.to_nat (piece_length fm j) ≤ length content →
        read_piece fm' j = read_piece fm j.
Proof.
  intros Hs Hd Hi Hlen.
  pose proof Hs as (HS & HF & Hn & Hbl).
  destruct (write_piece_ok fm i data content Hd ltac:(lia) ltac:(lia))
    as (fm' & E & Hd' & Hb' & _ & HF' & HS' & Hn').
  assert (Hs' : sized fm').
  { apply (sized_ext fm); try done. by rewrite Hb', length_insert. }
  exists fm'. split; [done|].
  rewrite (offset_nat fm Hs) in Hd'.
  destruct (piece_length_nat fm Hs i Hi) as (_ & Hpl & Hpos & Hfit).
  rewrite Hpl in Hlen.
  set (s := Z.to_nat (piece_size fm)) in *.
  set (f := Z.to_nat (file_size fm)) in *.
  split.
  - rewrite (read_piece_held fm' Hs' i _ ltac:(lia) Hd').
    2:{ rewrite has_piece_lookup by (rewrite Hb', length_insert; lia).
        rewrite Hb', list_lookup_insert_eq by lia.
        by rewrite bool_decide_eq_true_2. }
    do 2 f_equal. rewrite (piece_of_ext fm) by done.
    apply list_eq. intros k. rewrite (piece_of_lookup fm Hs) by done.
    fold s f. rewrite file_write_lookup.
    case_decide as Hk.
    + rewrite decide_False by lia. rewrite decide_True by lia.
      f_equal. lia.
    + symmetry. apply lookup_ge_None_2. lia.
  - intros j Hne Hj Hh Hfull.
    rewrite (offset_nat fm Hs) in Hfull.
    destruct (piece_length_nat fm Hs j Hj) as (_ & Hplj & _).
    rewrite Hplj in Hfull. fold s f in Hfull.
    rewrite (read_piece_held fm' Hs' j _ ltac:(lia) Hd').
    2:{ unfold has_piece, list_get in *.
        by rewrite Hb', list_lookup_insert_ne. }
    rewrite (read_piece_held fm Hs j _ Hj Hd Hh).
    do 2 f_equal. rewrite (piece_of_ext fm) by done.
    apply list_eq. intros k. rewrite !(piece_of_lookup fm Hs) by done.
    fold s f. case_decide as Hk; [|done].
    rewrite file_write_lookup.
    destruct (decide (j < i)) as [Hlt|Hgt].
    + rewrite decide_True by nia. rewrite decide_True by lia. done.
    + rewrite decide_False by nia. rewrite decide_False by nia. done.
Qed.

Lemma piece_write_read_witness :
  ∃ fm',
    write_piece short_last_example 1 [1; 2; 3; 4; 5; 6; 7; 8; 9; 10]%Z
    = (fm', Ret true)
    ∧ read_piece fm' 1 = Ret (Some [1; 2; 3; 4; 5; 6; 7; 8; 9; 10]%Z)
    ∧ ∀ j, j ≠ 1 → j < num_pieces short_last_example →
        has_piece short_last_example j = Ret true →
        Z.to_nat (Z.of_nat j * piece_size short_last_example)
        + Z.to_nat (piece_length short_last_example j) ≤ length (@nil Z) →
        read_piece fm' j = read_piece short_last_example j.
Proof.
  apply (piece_write_read short_last_example 1 []
           [1; 2; 3; 4; 5; 6; 7; 8; 9; 10]%Z).
  - unfold sized. vm_compute. repeat split; lia.
  - reflexivity.
  - vm_compute. lia.
  - reflexivity.
Defined.

(** X7. When the store holds every piece and its file has [file_size]
    bytes, every piece reads as a non-empty block of at most [piece_size]
    bytes, and the blocks read in index order make up the file. *)
Theorem pieces_make_up_file (fm : FileManager) (content : list Z) :
  sized fm →
  disk fm = Some content →
  Z.of_nat (length content) = file_size fm →
  Forall (fun b => b = 1%Z) (bitfield fm) →
  (∀ i, i < num_pieces fm →
     read_piece fm i = Ret (Some (piece_of fm content i))
     ∧ (0 < Z.of_nat (length (piece_of fm content i)) ≤ piece_size fm)%Z)
  ∧ mjoin (piece_of fm content <$> seq 0 (num_pieces fm)) = content.
Proof.
  intros Hs Hd Hlen Hall. pose proof Hs as (HS & HF & Hn & Hbl). split.
  - intros i Hi. split.
    + apply read_piece_held; try done.
      rewrite has_piece_lookup by lia.
      destruct (lookup_lt_is_Some_2 (bitfield fm) i ltac:(lia)) as [b Hb].
      rewrite Hb. rewrite (Forall_lookup_1 _ _ _ _ Hall Hb).
      by rewrite bool_decide_eq_true_2.
    + rewrite (piece_of_nat fm Hs) by done.
      destruct (piece_length_nat fm Hs i Hi) as (_ & _ & Hpos & Hfit).
      rewrite length_take, length_drop. lia.
  - apply pieces_concat; [done|lia].
Qed.

Lemma pieces_make_up_file_witness :
  (∀ i, i < num_pieces (file_manager all_complete_example) →
     read_piece (file_manager all_complete_example) i
     = Ret (Some (piece_of (file_manager all_complete_example)
                    (replicate 25 7%Z) i))
     ∧ (0 < Z.of_nat (length (piece_of (file_manager all_complete_example)
                                (replicate 25 7%Z) i))
        ≤ piece_size (file_manager all_complete_example))%Z)
  ∧ mjoin (piece_of (file_manager all_complete_example) (replicate 25 7%Z)
             <$> seq 0 (num_pieces (file_manager all_complete_example)))
    = replicate 25 7%Z.
Proof.
  apply (pieces_make_up_file (file_manager all_complete_example)
           (replicate 25 7%Z)).
  - unfold sized. vm_compute. repeat split; lia.
  - reflexivity.
  - reflexivity.
  - vm_compute. repeat constructor.
Defined.

Section Transfer.
Variable fm0 : FileManager.
Variable file : list Z.
Hypothesis Hsized : sized fm0.
Hypothesis Hfile : length file = Z.to_nat (file_size fm0).

Lemma holds_pieces_write (fm : FileManager) (held : list nat) (i : nat) :
  holds_pieces fm0 file fm held →
  i < num_pieces fm0 →
  holds_pieces fm0 file (write_piece fm i (piece_of fm0 file i)).1
    (i :: held).
Proof.
  intros (HF & HS & Hn & Hbl & c & Hd & Hc & Hdone) Hi.
  pose proof Hsized as (HS0 & HF0 & _).
  destruct (write_piece_ok fm i (piece_of fm0 file i) c Hd ltac:(lia)
              ltac:(lia))
    as (fm' & E & Hd' & Hb' & Hr' & HF' & HS' & Hn').
  rewrite E. cbn [fst].
  rewrite HS, (offset_nat fm0 Hsized) in Hd'.
  destruct (piece_length_nat fm0 Hsized i Hi) as (_ & Hpl & Hpos & Hfit).
  assert (Hlen : length (piece_of fm0 file i)
                 = Z.to_nat (piece_length fm0 i)).
  { rewrite (piece_of_nat fm0 Hsized) by done.
    rewrite length_take, length_drop. lia. }
  set (s := Z.to_nat (piece_size fm0)) in *.
  set (f := Z.to_nat (file_size fm0)) in *.
  assert (Hgood : ∀ p,
    c !! p = file !! p ∧ p < f ∨ i * s ≤ p < i * s + s `min` (f - i * s) →
    (take (i * s) c ++ replicate (i * s - length c) 0%Z
       ++ piece_of fm0 file i
       ++ drop (i * s + length (piece_of fm0 file i)) c) !! p
    = file !! p).
  { intros p Hp. rewrite file_write_lookup, Hlen, Hpl.
    destruct (decide (p < i * s)) as [Hlo|Hlo].
    - destruct Hp as [[Hp Hpf]|]; [|lia].
      rewrite decide_True; [done|].
      apply lookup_lt_is_Some. rewrite Hp.
      apply lookup_lt_is_Some. lia.
    - case_decide as Hhi.
      + rewrite (piece_of_lookup fm0 Hsized) by done. fold s f.
        rewrite decide_True by lia. f_equal. lia.
      + destruct Hp as [[Hp _]|]; [done|lia]. }
  repeat split; try congruence.
  { by rewrite Hb', length_insert. }
  eexists. split; [exact Hd'|]. split.
  { rewrite file_write_length, Hlen, Hpl. fold s f. lia. }
  intros j Hj. rewrite (offset_nat fm0 Hsized). fold s.
  apply elem_of_cons in Hj as [->|Hj].
  - split; [|split].
    + rewrite Hb'. apply list_lookup_insert_eq. lia.
    + rewrite Hr', elem_of_difference, elem_of_singleton. tauto.
    + intros k Hk. apply Hgood. right. lia.
  - destruct (Hdone j Hj) as (Hbj & Hrj & Hcj).
    rewrite (offset_nat fm0 Hsized) in Hcj. fold s in Hcj.
    split; [|split].
    + rewrite Hb'. destruct (decide (i = j)) as [->|Hne].
      * apply list_lookup_insert_eq. lia.
      * by rewrite list_lookup_insert_ne.
    + rewrite Hr', elem_of_difference. tauto.
    + intros k Hk. apply Hgood. left. split; [by apply Hcj|].
      assert (Hjn : j < num_pieces fm0).
      { rewrite <- Hbl. apply lookup_lt_is_Some. by rewrite Hbj. }
      destruct (piece_length_nat fm0 Hsized j Hjn) as (_ & Hplj & _ & Hfj).
      fold s f in Hplj, Hfj. lia.
Qed.

Lemma holds_pieces_write_all (order : list nat) :
  ∀ (fm : FileManager) (held : list nat),
  holds_pieces fm0 file fm held →
  (∀ i, i ∈ order → i < num_pieces fm0) →
  holds_pieces fm0 file
    (write_all fm ((fun i => (i, piece_of fm0 file i)) <$> order))
    (reverse order ++ held).
Proof.
  induction order as [|i order IH]; intros fm held H Hord; [done|].
  rewrite reverse_cons, <- app_assoc. cbn [app fmap list_fmap].
  unfold write_all in *. cbn [foldl fst snd]. apply IH.
  - apply holds_pieces_write; [done|]. apply Hord. by left.
  - intros j Hj. apply Hord. by right.
Qed.

Lemma holds_pieces_all (fm : FileManager) (held : list nat) :
  holds_pieces fm0 file fm held →
  (∀ i, i < num_pieces fm0 → i ∈ held) →
  disk fm = Some file
  ∧ has_complete_file fm = true
  ∧ ∀ i, i < num_pieces fm0 → i ∉ requested_pieces fm.
Proof.
  intros (HF & HS & Hn & Hbl & c & Hd & Hc & Hdone) Hall.
  pose proof (num_pieces_bounds fm0 Hsized) as (Hb & Hs & Hn0).
  set (s := Z.to_nat (piece_size fm0)) in *.
  set (f := Z.to_nat (file_size fm0)) in *.
  assert (Hbytes : ∀ p, p < f → c !! p = file !! p).
  { intros p Hp.
    assert (Hi : p / s < num_pieces fm0).
    { apply Nat.Div0.div_lt_upper_bound. lia. }
    destruct (Hdone _ (Hall _ Hi)) as (_ & _ & Hk).
    destruct (piece_length_nat fm0 Hsized _ Hi) as (_ & Hpl & _).
    rewrite (offset_nat fm0 Hsized), Hpl in Hk. fold s f in Hk.
    pose proof (Nat.div_mod_eq p s) as Hdm.
    pose proof (Nat.mod_upper_bound p s ltac:(lia)) as Hm.
    specialize (Hk (p mod s) ltac:(lia)).
    replace (p / s * s + p mod s) with p in Hk by lia. done. }
  split; [|split].
  - rewrite Hd. f_equal. apply list_eq. intros p.
    destruct (decide (p < f)) as [Hp|Hp]; [by apply Hbytes|].
    rewrite !lookup_ge_None_2; [done|lia|lia].
  - unfold has_complete_file. apply forallb_forall. intros b Hin.
    apply list_elem_of_In, list_elem_of_lookup in Hin as [i Hib].
    assert (Hi : i < num_pieces fm0).
    { rewrite <- Hbl. apply lookup_lt_is_Some. by rewrite Hib. }
    destruct (Hdone _ (Hall _ Hi)) as (Hone & _).
    rewrite Hib in Hone. by injection Hone as ->.
  - intros i Hi. by destruct (Hdone _ (Hall _ Hi)) as (_ & ? & _).
Qed.

End Transfer.

(** X8. A store that receives every piece of a file, in any order and with
    any repetitions, ends with exactly that file on disk, a complete
    bitmap and no request outstanding. *)
Theorem full_transfer (fm : FileManager) (file start : list Z)
    (order : list nat) :
  sized fm →
  disk fm = Some start →
  (Z.of_nat (length start) ≤ file_size fm)%Z →
  Z.of_nat (length file) = file_size fm →
  (∀ i, i ∈ order ↔ i < num_pieces fm) →
  let fm' :=
    write_all fm ((fun i => (i, piece_of fm file i)) <$> order) in
  disk fm' = Some file
  ∧ has_complete_file fm' = true
  ∧ ∀ i, i < num_pieces fm → i ∉ requested_pieces fm'.
Proof.
  intros Hs Hd Hstart Hfile Hord fm'.
  pose proof Hs as (HS & HF & Hn & Hbl).
  apply (holds_pieces_all fm file Hs ltac:(lia) fm' (reverse order ++ [])).
  - apply holds_pieces_write_all; [done|lia| |].
    + repeat split; try done. exists start. split; [done|].
      split; [lia|]. intros i Hi. by apply elem_of_nil in Hi.
    + intros i Hi. by apply Hord.
  - intros i Hi. rewrite app_nil_r, elem_of_reverse. by apply Hord.
Qed.

Lemma full_transfer_witness :
  let fm' :=
    write_all short_last_example
      ((fun i => (i, piece_of short_last_example (Z.of_nat <$> seq 0 25) i))
         <$> [2; 0; 1; 0]) in
  disk fm' = Some (Z.of_nat <$> seq 0 25)
  ∧ has_complete_file fm' = true
  ∧ ∀ i, i < num_pieces short_last_example → i ∉ requested_pieces fm'.
Proof.
  apply (full_transfer short_last_example (Z.of_nat <$> seq 0 25) []
           [2; 0; 1; 0]).
  - unfold sized. vm_compute. repeat split; lia.
  - reflexivity.
  - vm_compute. discriminate.
  - reflexivity.
  - intros i. change (num_pieces short_last_example) with 3.
    rewrite !elem_of_cons, elem_of_nil. lia.
Defined.

(** * The message processor: requests, malformed and unknown frames *)

Lemma process_message_request draws c payload :
  process_message draws c MSG_REQUEST payload = on_request c payload.
Proof. reflexivity. Qed.

Lemma process_message_piece draws c payload :
  process_message draws c MSG_PIECE payload = on_piece draws c payload.
Proof. reflexivity. Qed.

Lemma unpack_I_length (data : list Z) :
  length data ≠ 4 → unpack_I data = Raise StructError.
Proof.
  destruct data as [|b3 [|b2 [|b1 [|b0 [|]]]]]; cbn [length]; done.
Qed.

Lemma frame_ok (msg_type : Z) (payload : list Z) :
  (0 ≤ msg_type ≤ 255)%Z →
  (Z.of_nat (length payload) + 1 < 2 ^ 32)%Z →
  ∃ header,
    pack_IB (1 + Z.of_nat (length payload)) msg_type = Ret header
    ∧ frame msg_type payload = Ret (header ++ payload).
Proof.
  intros Ht Hl.
  destruct (pack_IB_ok (1 + Z.of_nat (length payload)) msg_type
              ltac:(lia) Ht) as (header & E & _).
  exists header. split; [done|]. unfold frame. by rewrite E.
Qed.

(** X9. A REQUEST is ignored while the requester is choked, whatever its
    payload.  From an unchoked requester, a payload that is not four bytes
    raises [StructError] and an index past the bitmap raises [IndexError];
    a piece that is not held, or whose file cannot be opened, is passed
    over in silence; a piece that is read is sent in one PIECE frame and
    its length is added to the interval counter of the session. *)
Theorem request_outcomes (draws : list nat) (c : nat) (payload : list Z)
    (p : Peer) :
  let s := sessions p !!! c in
  let fm := file_manager p in
  let out := process_message draws c MSG_REQUEST payload p in
  (am_choking s = true → out = (p, Ret tt))
  ∧ (am_choking s = false → length payload ≠ 4 →
       out = (p, Raise StructError))
  ∧ (am_choking s = false → ∀ idx, unpack_I payload = Ret idx →
       (length (bitfield fm) ≤ idx → out = (p, Raise IndexError))
       ∧ (idx < length (bitfield fm) →
          bitfield fm !! idx ≠ Some 1%Z ∨ disk fm = None →
          out = (p, Ret tt))
       ∧ (∀ data, read_piece fm idx = Ret (Some data) → data ≠ [] →
          (Z.of_nat idx < 2 ^ 32)%Z →
          (Z.of_nat (length data) + 5 < 2 ^ 32)%Z →
          ∃ hd bytes,
            pack_I (Z.of_nat idx) = Ret hd
            ∧ frame MSG_PIECE (hd ++ data) = Ret bytes
            ∧ out
              = (set_sessions
                   (alter (fun s =>
                      set_downloaded_bytes_interval
                        (downloaded_bytes_interval s
                         + Z.of_nat (length data))%Z s) c (sessions p))
                   (emit (EvSendall c bytes
                            (negb (sock_closed (socket s)
                                   || sock_broken (socket s)))) p),
                 Ret tt))).
Proof.
  intros s fm out. subst s fm out. rewrite process_message_request.
  unfold on_request. run_M.
  split; [|split].
  - by intros ->.
  - intros -> Hl. cbn [negb]. by rewrite unpack_I_length.
  - intros -> idx ->. cbn [negb]. split; [|split].
    + intros Hi. unfold read_piece, has_piece, list_get.
      by rewrite lookup_ge_None_2 by lia.
    + intros Hi Hno. unfold read_piece.
      rewrite has_piece_lookup by done. res_simpl.
      destruct Hno as [Hb|Hd].
      * by rewrite bool_decide_eq_false_2.
      * case_bool_decide; cbn [negb]; [|done]. by rewrite Hd.
    + intros data -> Hne Hidx Hlen.
      destruct data as [|b bs]; [done|].
      destruct (pack_I (Z.of_nat idx)) as [hd|e] eqn:Ep.
      2:{ unfold pack_I in Ep. by rewrite decide_True in Ep by lia. }
      assert (Hhd : length hd = 4).
      { unfold pack_I in Ep. rewrite decide_True in Ep by lia.
        by injection Ep as <-. }
      destruct (frame_ok MSG_PIECE (hd ++ b :: bs)) as (header & E & Ef).
      { unfold MSG_PIECE. lia. }
      { rewrite length_app, Hhd. cbn [length] in *. lia. }
      exists hd, (header ++ hd ++ b :: bs).
      split; [reflexivity|]. split; [done|].
      rewrite (send_result c MSG_PIECE _ header p E). done.
Qed.

(** X10. A frame that cannot be decoded ends the session and changes
    nothing else: a HAVE whose payload is not four bytes, a PIECE whose
    payload is shorter than four bytes or a REQUEST of the wrong length
    from an unchoked requester make the receive loop close the session and
    return; the frames that follow are not read. *)
Theorem malformed_frame_ends_session (c : nat) (msg_type : Z)
    (payload : list Z) (draws : list nat)
    (rest : list (recv * list nat)) (p : Peer) :
  running p = true →
  msg_type = MSG_HAVE ∧ length payload ≠ 4
  ∨ msg_type = MSG_PIECE ∧ length payload < 4
  ∨ msg_type = MSG_REQUEST ∧ length payload ≠ 4
    ∧ am_choking (sessions p !!! c) = false →
  message_handler c ((RecvFrame (msg_type :: payload), draws) :: rest) p
  = (emit (EvClose c) (set_sessions (alter close c (sessions p)) p),
     Ret Returned).
Proof.
  intros Hrun Hbad. cbn [message_handler]. rewrite Hrun.
  assert (E : process_message draws c msg_type payload p
              = (p, Raise StructError)).
  { destruct Hbad as [[-> Hl]|[[-> Hl]|(-> & Hl & Hch)]].
    - change (process_message draws c MSG_HAVE payload)
        with (on_have c payload). unfold on_have. run_M.
      by rewrite unpack_I_length.
    - rewrite process_message_piece. unfold on_piece. run_M.
      rewrite unpack_I_length; [done|]. rewrite length_take. lia.
    - rewrite process_message_request. unfold on_request. run_M.
      rewrite Hch. cbn [negb]. by rewrite unpack_I_length. }
  rewrite E. reflexivity.
Qed.

Lemma malformed_frame_ends_session_witness :
  message_handler 0
    [(RecvFrame [MSG_PIECE; 0; 0]%Z, []);
     (RecvFrame [MSG_INTERESTED], [])] announced_example
  = (emit (EvClose 0)
       (set_sessions (alter close 0 (sessions announced_example))
          announced_example),
     Ret Returned).
Proof.
  apply (malformed_frame_ends_session 0 MSG_PIECE [0; 0]%Z []
           [(RecvFrame [MSG_INTERESTED], [])] announced_example).
  - reflexivity.
  - right. left. split; [reflexivity|]. simpl. lia.
Defined.

(** X11. Frames without a body and frames of a type outside 0..7 are
    skipped: the receive loop goes on to the next read in the same
    state. *)
Theorem other_frames_skipped (c : nat) (msg_body : list Z)
    (draws : list nat) (rest : list (recv * list nat)) (p : Peer) :
  running p = true →
  (∀ msg_type, head msg_body = Some msg_type →
     (msg_type < 0 ∨ 7 < msg_type)%Z) →
  message_handler c ((RecvFrame msg_body, draws) :: rest) p
  = message_handler c rest p.
Proof.
  intros Hrun Hother. cbn [message_handler]. rewrite Hrun.
  destruct msg_body as [|msg_type payload]; [done|].
  specialize (Hother msg_type eq_refl).
  unfold process_message, MSG_CHOKE, MSG_UNCHOKE, MSG_INTERESTED,
    MSG_NOT_INTERESTED, MSG_HAVE, MSG_BITFIELD, MSG_REQUEST, MSG_PIECE.
  repeat (rewrite decide_False by lia). reflexivity.
Qed.

Lemma other_frames_skipped_witness :
  message_handler 0
    [(RecvFrame [8; 1; 2]%Z, []); (RecvFrame [MSG_INTERESTED], [])]
    announced_example
  = message_handler 0 [(RecvFrame [MSG_INTERESTED], [])] announced_example.
Proof.
  apply (other_frames_skipped 0 [8; 1; 2]%Z [] 
           [(RecvFrame [MSG_INTERESTED], [])] announced_example).
  - reflexivity.
  - intros msg_type [= <-]. lia.
Defined.

(** * What the methods leave alone *)

Lemma same_view_po {A} (view : Peer → A) : PreOrder (same_view view).
Proof.
  split; [by intros ?|]. intros p q r H1 H2. unfold same_view in *.
  by rewrite H2.
Qed.

Lemma preserves_modify_view {A} (view : Peer → A) (f : Peer → Peer) :
  (∀ p, view (f p) = view p) → preserves (same_view view) (modify f).
Proof. intros H p. apply H. Qed.

Lemma fmap_alter_kept {A} (proj : PeerConnection → A)
    (f : PeerConnection → PeerConnection) (c : nat)
    (ss : list PeerConnection) :
  (∀ s, proj (f s) = proj s) → proj <$> alter f c ss = proj <$> ss.
Proof.
  intros H. apply list_eq. intros i. rewrite !list_lookup_fmap.
  destruct (decide (i = c)) as [->|Hne].
  - rewrite list_lookup_alter_eq. destruct (ss !! c); cbn; [|done].
    by rewrite H.
  - by rewrite list_lookup_alter_ne.
Qed.

Ltac kept_field :=
  first [ reflexivity
        | apply fmap_alter_kept; intros ?; reflexivity
        | unfold transfer_view, interval_counters, registry_view;
          cbn [file_manager connections sessions set_sessions];
          f_equal; apply fmap_alter_kept; intros ?; reflexivity ].

Ltac kept_side :=
  lazymatch goal with
  | |- PreOrder _ => apply same_view_po
  | |- ∀ e p, same_view _ p (emit e p) => intros; reflexivity
  | |- _ => idtac
  end.

Ltac kept_step :=
  lazymatch goal with
  | |- preserves _ (mret _) => apply preserves_ret
  | |- preserves _ (lift _) => apply preserves_lift
  | |- preserves _ get_peer => apply preserves_get_peer
  | |- preserves _ (conn _) => apply preserves_conn
  | |- preserves _ (log _) => apply preserves_log
  | |- preserves _ (checkpoint _) => apply preserves_checkpoint
  | |- preserves _ (send _ _ _) => apply preserves_send
  | |- preserves _ (update_conn _ _) =>
      unfold update_conn; apply preserves_modify_view; intros ?; kept_field
  | |- preserves _ (modify _) =>
      apply preserves_modify_view; intros ?; kept_field
  | |- preserves _ (with_lock _) => apply preserves_with_lock
  | |- preserves _ (for_in _ _) => apply preserves_for_in; [ | intros ? ]
  | |- preserves _ (mbind _ _) => apply preserves_bind; [ | | intros ? ]
  | |- preserves _ (if ?b then _ else _) => destruct b
  | |- preserves _ (match ?x with _ => _ end) => destruct x
  end;
  kept_side.

Ltac kept := repeat kept_step.

Lemma check_interest_decisions c :
  preserves (same_view choke_decisions) (check_interest c).
Proof. unfold check_interest. kept. Qed.

Lemma request_piece_decisions draws c :
  preserves (same_view choke_decisions) (request_piece draws c).
Proof. unfold request_piece. kept. Qed.

Lemma process_message_decisions draws c msg_type payload :
  preserves (same_view choke_decisions)
    (process_message draws c msg_type payload).
Proof.
  unfold process_message, on_choke, on_unchoke, on_interested,
    on_not_interested, on_have, on_bitfield, on_request, on_piece,
    broadcast_have.
  kept;
    first [ apply request_piece_decisions | apply check_interest_decisions ].
Qed.

Lemma leave_handler_kept {A} (view : Peer → A) (c : nat)
    (raised : option exn) :
  (∀ e p, view (emit e p) = view p) →
  preserves (same_view view) (close_conn c) →
  preserves (same_view view) (leave_handler c raised).
Proof.
  intros He Hc. unfold leave_handler.
  apply preserves_bind; [apply same_view_po|done|]. intros _.
  destruct raised as [[]|];
    first [apply preserves_ret | apply preserves_lift]; apply same_view_po.
Qed.

(** A view that the processing of every message and the closing of the
    session keep is kept by the receive loop. *)
Lemma message_handler_kept {A} (view : Peer → A) (c : nat) :
  (∀ e p, view (emit e p) = view p) →
  (∀ draws msg_type payload,
     preserves (same_view view) (process_message draws c msg_type payload)) →
  preserves (same_view view) (close_conn c) →
  ∀ input, preserves (same_view view) (message_handler c input).
Proof.
  intros He Hp Hc input.
  induction input as [|[item draws] rest IH]; intros p; [done|].
  cbn [message_handler].
  destruct (running p); [|by apply leave_handler_kept].
  destruct item as [[|msg_type payload]|e];
    [apply IH| |by apply leave_handler_kept].
  pose proof (Hp draws msg_type payload p) as H.
  destruct (process_message draws c msg_type payload p) as [p' [[]|e]];
    cbn [fst] in H.
  - pose proof (IH p') as H2. unfold same_view in *. congruence.
  - pose proof (leave_handler_kept view c (Some e) He Hc p') as H2.
    unfold same_view in *. congruence.
Qed.

Lemma close_conn_decisions c :
  preserves (same_view choke_decisions) (close_conn c).
Proof. unfold close_conn. kept. Qed.

(** X12. No message a neighbor sends makes the peer choke or unchoke
    anyone: processing a frame of any type and payload, on any session,
    leaves the [am_choking] flag and the optimistic mark of every session
    as they were; so does a whole receive loop, also when it ends by
    closing its session. *)
Theorem messages_keep_choke_decisions (c : nat)
    (input : list (recv * list nat)) (p : Peer) :
  choke_decisions (message_handler c input p).1 = choke_decisions p.
Proof.
  apply (message_handler_kept choke_decisions c); [done| |].
  - intros draws msg_type payload. apply process_message_decisions.
  - apply close_conn_decisions.
Qed.

(** * Interest and requests *)

(** The scan answers whether the neighbor announces a piece that is
    missing here. *)
Lemma scan_interest_spec (fm : FileManager) (nb : list Z)
    (idxs : list nat) :
  (∀ i, i ∈ idxs → i < length nb ∧ i < length (bitfield fm)) →
  ∃ b, scan_interest fm nb idxs = Ret b
       ∧ (b = true ↔ ∃ i, i ∈ idxs ∧ nb !! i = Some 1%Z
                          ∧ bitfield fm !! i ≠ Some 1%Z).
Proof.
  induction idxs as [|k idxs IH]; intros Hin; cbn [scan_interest].
  { exists false. split; [done|]. split; [done|].
    intros (i & Hi & _). by apply elem_of_nil in Hi. }
  destruct (Hin k ltac:(left)) as [Hk1 Hk2].
  destruct IH as (b & Eb & Hb).
  { intros i Hi. apply Hin. by right. }
  destruct (lookup_lt_is_Some_2 nb k Hk1) as [x Hx].
  unfold list_get. rewrite Hx. res_simpl.
  rewrite has_piece_lookup by done. res_simpl.
  destruct (decide (x = 1%Z)) as [->|Hne].
  - case_bool_decide as Hheld; cbn [negb].
    + exists b. split; [done|]. rewrite Hb. split.
      * intros (i & Hi & ?). exists i. split; [by right|done].
      * intros (i & [->|Hi]%elem_of_cons & H1 & H2); [done|].
        by exists i.
    + exists true. split; [done|]. split; [|done]. intros _.
      exists k. split; [by left|done].
  - exists b. split; [done|]. rewrite Hb. split.
    + intros (i & Hi & ?). exists i. split; [by right|done].
    + intros (i & [->|Hi]%elem_of_cons & H1 & H2); [congruence|].
      by exists i.
Qed.

Lemma scan_interest_all (fm : FileManager) (nb : list Z) :
  length nb ≤ length (bitfield fm) →
  ∃ b, scan_interest fm nb (seq 0 (length nb)) = Ret b
       ∧ (b = true ↔ ∃ i, nb !! i = Some 1%Z
                          ∧ bitfield fm !! i ≠ Some 1%Z).
Proof.
  intros Hl.
  destruct (scan_interest_spec fm nb (seq 0 (length nb))) as (b & E & Hb).
  { intros i Hi%elem_of_seq. lia. }
  exists b. split; [done|]. rewrite Hb. split.
  - intros (i & _ & ?). by exists i.
  - intros (i & H1 & H2). exists i. split; [|done].
    apply elem_of_seq. apply lookup_lt_Some in H1. lia.
Qed.

(** X13. The reply to a BITFIELD message: the neighbor bitmap becomes the
    decoded payload, and exactly one frame is sent back, INTERESTED when
    the neighbor announces a piece that is missing here and NOT_INTERESTED
    otherwise; [am_interested] is set accordingly. *)
Theorem bitfield_reply (draws : list nat) (c : nat) (payload : list Z)
    (p : Peer) :
  c < length (sessions p) →
  length (bitfield (file_manager p)) = num_pieces (file_manager p) →
  let s := sessions p !!! c in
  let nb := update_bitfield_from_bytes (file_manager p) payload in
  let ok := negb (sock_closed (socket s) || sock_broken (socket s)) in
  ∃ b p',
    (b = true ↔ ∃ i, nb !! i = Some 1%Z
                     ∧ bitfield (file_manager p) !! i ≠ Some 1%Z)
    ∧ process_message draws c MSG_BITFIELD payload p = (p', Ret tt)
    ∧ neighbor_bitfield (sessions p' !!! c) = nb
    ∧ am_interested (sessions p' !!! c) = b
    ∧ trace p'
      = trace p
        ++ [EvSendall c
              (if b then interested_frame else not_interested_frame) ok]
    ∧ file_manager p' = file_manager p
    ∧ connections p' = connections p.
Proof.
  intros Hc Hl s nb ok.
  destruct (scan_interest_all (file_manager p) nb) as (b & E & Hb).
  { unfold nb, update_bitfield_from_bytes.
    destruct (decode_bits_wf (num_pieces (file_manager p)) payload)
      as [_ ->]. lia. }
  exists b.
  change (process_message draws c MSG_BITFIELD payload)
    with (on_bitfield c payload).
  unfold on_bitfield. run_M. cbn [file_manager set_sessions]. fold nb.
  rewrite E.
  assert (Hs : socket (alter (set_neighbor_bitfield nb) c (sessions p) !!! c)
               = socket s).
  { by rewrite list_lookup_total_alter_eq. }
  destruct b.
  - rewrite (send_result c MSG_INTERESTED [] interested_frame)
      by reflexivity.
    eexists. split; [done|]. split; [reflexivity|].
    cbn [sessions set_sessions emit trace file_manager connections].
    rewrite Hs.
    rewrite !list_lookup_total_alter_eq by (rewrite ?length_alter; done).
    done.
  - rewrite (send_result c MSG_NOT_INTERESTED [] not_interested_frame)
      by reflexivity.
    eexists. split; [done|]. split; [reflexivity|].
    cbn [sessions set_sessions emit trace file_manager connections].
    rewrite Hs.
    rewrite !list_lookup_total_alter_eq by (rewrite ?length_alter; done).
    done.
Qed.

Lemma bitfield_reply_witness :
  let p := announced_example in
  let nb := update_bitfield_from_bytes (file_manager p) [160%Z] in
  ∃ b p',
    (b = true ↔ ∃ i, nb !! i = Some 1%Z
                     ∧ bitfield (file_manager p) !! i ≠ Some 1%Z)
    ∧ process_message [] 0 MSG_BITFIELD [160%Z] p = (p', Ret tt)
    ∧ neighbor_bitfield (sessions p' !!! 0) = nb
    ∧ am_interested (sessions p' !!! 0) = b
    ∧ trace p'
      = trace p
        ++ [EvSendall 0
              (if b then interested_frame else not_interested_frame)
              (negb (sock_closed (socket (sessions p !!! 0))
                     || sock_broken (socket (sessions p !!! 0))))]
    ∧ file_manager p' = file_manager p
    ∧ connections p' = connections p.
Proof.
  apply (bitfield_reply [] 0 [160%Z] announced_example).
  - vm_compute. lia.
  - reflexivity.
Defined.

(** X14. After a piece arrived, interest in a neighbor is withdrawn
    exactly when it was declared and the neighbor announces no piece that
    is still missing: NOT_INTERESTED is sent and [am_interested] cleared.
    In every other case nothing is sent and nothing changes; interest is
    never declared here. *)
Theorem check_interest_effect (c : nat) (p : Peer) :
  let s := sessions p !!! c in
  let ok := negb (sock_closed (socket s) || sock_broken (socket s)) in
  length (neighbor_bitfield s) ≤ length (bitfield (file_manager p)) →
  let wanted :=
    ∃ i, neighbor_bitfield s !! i = Some 1%Z
         ∧ bitfield (file_manager p) !! i ≠ Some 1%Z in
  (wanted ∨ am_interested s = false → check_interest c p = (p, Ret tt))
  ∧ (¬ wanted → am_interested s = true →
     check_interest c p
     = (set_sessions (alter (set_am_interested false) c (sessions p))
          (emit (EvSendall c not_interested_frame ok) p),
        Ret tt)).
Proof.
  intros s ok Hl wanted.
  destruct (scan_interest_all (file_manager p) (neighbor_bitfield s) Hl)
    as (b & E & Hb).
  unfold check_interest. run_M. fold s. rewrite E.
  split.
  - intros [Hw|Hi].
    + apply Hb in Hw as ->. done.
    + rewrite Hi. by rewrite andb_false_r.
  - intros Hw Hi. rewrite Hi.
    destruct b; [exfalso; by apply Hw, Hb|]. cbn [negb andb].
    by rewrite (send_result c MSG_NOT_INTERESTED [] not_interested_frame)
      by reflexivity.
Qed.

Lemma check_interest_effect_witness :
  let p := announced_example in
  let s := sessions p !!! 0 in
  let wanted :=
    ∃ i, neighbor_bitfield s !! i = Some 1%Z
         ∧ bitfield (file_manager p) !! i ≠ Some 1%Z in
  (wanted ∨ am_interested s = false → check_interest 0 p = (p, Ret tt))
  ∧ (¬ wanted → am_interested s = true →
     check_interest 0 p
     = (set_sessions (alter (set_am_interested false) 0 (sessions p))
          (emit (EvSendall 0 not_interested_frame
                   (negb (sock_closed (socket s)
                          || sock_broken (socket s)))) p),
        Ret tt)).
Proof.
  apply (check_interest_effect 0 announced_example).
  vm_compute. lia.
Defined.

(** The candidates of a request are exactly the pieces the neighbor
    announces that are neither held nor requested. *)
Lemma available_pieces_complete (fm : FileManager) (nb : list Z)
    (idxs : list nat) :
  (∀ i, i ∈ idxs → i < length nb ∧ i < length (bitfield fm)) →
  ∃ l, available_pieces fm nb idxs = Ret l
       ∧ ∀ i, i ∈ l ↔ i ∈ idxs ∧ nb !! i = Some 1%Z
                       ∧ bitfield fm !! i ≠ Some 1%Z
                       ∧ i ∉ requested_pieces fm.
Proof.
  induction idxs as [|k idxs IH]; intros Hin; cbn [available_pieces].
  { exists []. split; [done|]. intros i. split.
    - by intros ?%elem_of_nil.
    - by intros [?%elem_of_nil _]. }
  destruct (Hin k ltac:(left)) as [Hk1 Hk2].
  destruct IH as (l & El & Hl).
  { intros i Hi. apply Hin. by right. }
  destruct (lookup_lt_is_Some_2 nb k Hk1) as [x Hx].
  unfold list_get. rewrite Hx. res_simpl.
  rewrite has_piece_lookup by done. rewrite El. res_simpl.
  destruct (decide (x = 1%Z)) as [->|Hne]; res_simpl.
  - case_bool_decide as Hheld; cbn [negb andb].
    + exists l. split; [done|]. intros i. rewrite Hl, elem_of_cons.
      split; [tauto|]. intros ([->|?] & ? & ? & ?); [done|tauto].
    + case_bool_decide as Hreq.
      * exists (k :: l). split; [done|]. intros i.
        rewrite !elem_of_cons, Hl. split.
        { intros [->|?]; tauto. }
        { intros ([->|?] & ? & ? & ?); tauto. }
      * exists l. split; [done|]. intros i. rewrite Hl, elem_of_cons.
        split; [tauto|]. intros ([->|?] & ? & ? & ?); [done|tauto].
  - exists l. split; [done|]. intros i. rewrite Hl, elem_of_cons.
    split; [tauto|]. intros ([->|?] & ? & ? & ?); [congruence|tauto].
Qed.

(** X15. A request picks a piece that the neighbor announces and that is
    neither held nor requested already: when there is none, nothing is
    sent and nothing changes; otherwise one such piece becomes outstanding
    and one REQUEST frame for it is sent on the session.  Every such piece
    is picked for some draw of the generator. *)
Theorem request_piece_outcome (draws : list nat) (c : nat) (p : Peer) :
  let s := sessions p !!! c in
  let fm := file_manager p in
  let ok := negb (sock_closed (socket s) || sock_broken (socket s)) in
  let candidate i :=
    neighbor_bitfield s !! i = Some 1%Z ∧ bitfield fm !! i ≠ Some 1%Z
    ∧ i ∉ requested_pieces fm in
  let requests idx q :=
    ∃ hd bytes,
      pack_I (Z.of_nat idx) = Ret hd
      ∧ frame MSG_REQUEST hd = Ret bytes
      ∧ q = (emit (EvSendall c bytes ok)
               (set_file_manager
                  (set_requested_pieces ({[idx]} ∪ requested_pieces fm) fm)
                  p),
             Ret tt) in
  length (neighbor_bitfield s) ≤ length (bitfield fm) →
  (Z.of_nat (length (neighbor_bitfield s)) ≤ 2 ^ 32)%Z →
  ((∀ i, ¬ candidate i) → request_piece draws c p = (p, Ret tt))
  ∧ (∀ i, candidate i →
       (∃ idx, candidate idx ∧ requests idx (request_piece draws c p))
       ∧ ∃ draws', requests i (request_piece draws' c p)).
Proof.
  intros s fm ok candidate requests Hl H32.
  destruct (available_pieces_complete fm (neighbor_bitfield s)
              (seq 0 (length (neighbor_bitfield s)))) as (l & El & Hav).
  { intros i Hi%elem_of_seq. lia. }
  assert (Hcand : ∀ i, i ∈ l ↔ candidate i).
  { intros i. rewrite Hav. unfold candidate. split; [tauto|].
    intros (H1 & H2 & H3). repeat split; try done.
    apply elem_of_seq. apply lookup_lt_Some in H1. lia. }
  assert (Hrun : ∀ d idx, choice l d = Some idx →
            requests idx (request_piece d c p)).
  { intros d idx Ec. unfold request_piece. run_M. fold s fm.
    rewrite El. rewrite decide_False.
    2:{ intros ->. unfold choice in Ec. by rewrite lookup_nil in Ec. }
    rewrite Ec. cbn [fst snd].
    assert (Hi : idx < length (neighbor_bitfield s)).
    { apply choice_elem, Hcand in Ec as (H1 & _).
      by apply lookup_lt_Some in H1. }
    destruct (pack_I (Z.of_nat idx)) as [hd|e] eqn:Ep.
    2:{ unfold pack_I in Ep. by rewrite decide_True in Ep by lia. }
    assert (Hhd : length hd = 4).
    { unfold pack_I in Ep. rewrite decide_True in Ep by lia.
      by injection Ep as <-. }
    destruct (frame_ok MSG_REQUEST hd) as (header & E & Ef).
    { unfold MSG_REQUEST. lia. }
    { rewrite Hhd. lia. }
    exists hd, (header ++ hd). split; [done|]. split; [done|].
    by rewrite (send_result c MSG_REQUEST hd header _ E). }
  split.
  - intros Hnone. unfold request_piece. run_M. fold s fm. rewrite El.
    rewrite decide_True; [done|].
    destruct l as [|i l]; [done|]. destruct (Hnone i).
    apply Hcand. by left.
  - intros i Hi. apply Hcand in Hi. split.
    + destruct (choice l draws) as [idx|] eqn:Ec.
      * exists idx. split; [by apply Hcand, (choice_elem l draws)|].
        by apply Hrun.
      * unfold choice in Ec. apply lookup_ge_None in Ec.
        apply list_elem_of_lookup in Hi as [k Hk].
        apply lookup_lt_Some in Hk.
        unfold randbelow in Ec. destruct draws as [|r draws]; cbn in Ec.
        { lia. }
        { pose proof (Nat.mod_upper_bound r (length l) ltac:(lia)). lia. }
    + apply list_elem_of_lookup in Hi as [k Hk].
      exists [k]. apply Hrun. unfold choice, randbelow. cbn [fst].
      apply lookup_lt_Some in Hk as Hlt.
      by rewrite Nat.mod_small.
Qed.

Lemma request_piece_outcome_witness :
  let p := announced_example in
  let s := sessions p !!! 0 in
  let fm := file_manager p in
  let ok := negb (sock_closed (socket s) || sock_broken (socket s)) in
  let candidate i :=
    neighbor_bitfield s !! i = Some 1%Z ∧ bitfield fm !! i ≠ Some 1%Z
    ∧ i ∉ requested_pieces fm in
  let requests idx q :=
    ∃ hd bytes,
      pack_I (Z.of_nat idx) = Ret hd
      ∧ frame MSG_REQUEST hd = Ret bytes
      ∧ q = (emit (EvSendall 0 bytes ok)
               (set_file_manager
                  (set_requested_pieces ({[idx]} ∪ requested_pieces fm) fm)
                  p),
             Ret tt) in
  ((∀ i, ¬ candidate i) → request_piece [] 0 p = (p, Ret tt))
  ∧ (∀ i, candidate i →
       (∃ idx, candidate idx ∧ requests idx (request_piece [] 0 p))
       ∧ ∃ draws', requests i (request_piece draws' 0 p)).
Proof.
  apply (request_piece_outcome [] 0 announced_example).
  - vm_compute. lia.
  - vm_compute. discriminate.
Defined.

Lemma run_steps (actions : list action) (p : Peer) :
  rtc (tau true (fun _ => True)) p (run actions p).
Proof.
  revert p. induction actions as [|a actions IH]; intros p; [done|].
  unfold run. cbn [foldl]. etrans; [apply perform_steps_any|]. apply IH.
Qed.

Lemma run_well_formed (actions : list action) (pid k : Z)
    (peers : list Z) (has_file : bool) (fsize psize : Z)
    (seed_file : option (list Z)) :
  well_formed
    (run actions (Peer_init pid k peers has_file fsize psize seed_file)).
Proof.
  eapply well_formed_steps; [apply run_steps|apply well_formed_init].
Qed.



(** * A piece that is stored *)

Lemma bind_ret_eq {A B} (m : M A) (f : A → M B) (p q : Peer) (a : A) :
  m p = (q, Ret a) → (m ≫= f) p = f a q.
Proof. intros E. unfold mbind, M_bind. by rewrite E. Qed.

Lemma neighbor_bitfield_fits (p : Peer) (c : nat) :
  well_formed p →
  length (neighbor_bitfield (sessions p !!! c))
  ≤ length (bitfield (file_manager p)).
Proof.
  intros (_ & Hl & Hs & _).
  destruct (sessions p !! c) as [s|] eqn:E.
  - rewrite (list_lookup_total_correct _ _ _ E).
    destruct (Hs c s E) as [_ ->]. lia.
  - rewrite lookup_total_outside; [cbn; lia|].
    by apply lookup_ge_None.
Qed.

Lemma check_interest_returns (c : nat) (p : Peer) :
  well_formed p → (check_interest c p).2 = Ret tt.
Proof.
  intros Hwf.
  destruct (scan_interest_all (file_manager p)
              (neighbor_bitfield (sessions p !!! c))
              (neighbor_bitfield_fits p c Hwf)) as (b & E & _).
  unfold check_interest. run_M. rewrite E.
  destruct (negb b && am_interested (sessions p !!! c)); [|done].
  by rewrite (send_result c MSG_NOT_INTERESTED [] not_interested_frame)
    by reflexivity.
Qed.

Lemma request_piece_returns (draws : list nat) (c : nat) (p : Peer) :
  well_formed p →
  (Z.of_nat (num_pieces (file_manager p)) ≤ 2 ^ 32)%Z →
  (request_piece draws c p).2 = Ret tt.
Proof.
  intros Hwf H32. pose proof (neighbor_bitfield_fits p c Hwf) as Hl.
  pose proof Hwf as (_ & Hn & _).
  set (nb := neighbor_bitfield (sessions p !!! c)) in *.
  destruct (available_pieces_complete (file_manager p) nb
              (seq 0 (length nb))) as (l & El & Hav).
  { intros i Hi%elem_of_seq. lia. }
  unfold request_piece. run_M. fold nb. rewrite El.
  case_decide; [done|].
  destruct (choice l draws) as [idx|] eqn:Ec; [|done]. cbn [fst snd].
  apply choice_elem, Hav in Ec as (Hi%elem_of_seq & _).
  destruct (pack_I (Z.of_nat idx)) as [hd|e] eqn:Ep.
  2:{ unfold pack_I in Ep. by rewrite decide_True in Ep by lia. }
  assert (Hhd : length hd = 4).
  { unfold pack_I in Ep. rewrite decide_True in Ep by lia.
    by injection Ep as <-. }
  destruct (frame_ok MSG_REQUEST hd) as (header & E & _).
  { unfold MSG_REQUEST. lia. }
  { rewrite Hhd. lia. }
  by rewrite (send_result c MSG_REQUEST hd header _ E).
Qed.

Lemma have_loop (hd : list Z) (xs : list nat) :
  length hd = 4 →
  ∀ p, well_formed p →
  ∃ q tr,
    for_in xs (fun peer => _ ← send peer MSG_HAVE hd; check_interest peer) p
    = (q, Ret tt)
    ∧ rtc (tau false (fun _ => False)) p q
    ∧ trace q = trace p ++ tr
    ∧ ∀ x, x ∈ xs → ∃ ok, EvSendall x (have_header ++ hd) ok ∈ tr.
Proof.
  intros Hhd. induction xs as [|x xs IH]; intros p Hwf.
  { exists p, []. split; [done|]. split; [done|].
    split; [by rewrite app_nil_r|]. by intros x ?%elem_of_nil. }
  cbn [for_in].
  assert (E : pack_IB (1 + Z.of_nat (length hd)) MSG_HAVE = Ret have_header).
  { by rewrite Hhd. }
  set (ev := EvSendall x (have_header ++ hd)
               (negb (sock_closed (socket (sessions p !!! x))
                      || sock_broken (socket (sessions p !!! x))))).
  pose proof (check_interest_returns x (emit ev p)) as Hr.
  pose proof (check_interest_steps false (fun _ => False) x (emit ev p))
    as Hs.
  destruct (check_interest x (emit ev p)) as [p2 r] eqn:E2.
  cbn [fst snd] in Hr, Hs. rewrite Hr in E2 by done. clear Hr.
  destruct (trace_steps _ _ _ _ Hs) as [tr1 Ht1].
  destruct (IH p2) as (q & tr2 & Eq & Hq & Ht2 & Hev).
  { eapply well_formed_steps; [exact Hs|]. done. }
  exists q, (ev :: tr1 ++ tr2). split; [|split; [|split]].
  - rewrite (bind_ret_eq _ _ p p2 tt); [done|].
    rewrite (bind_ret_eq _ _ p (emit ev p) tt); [done|].
    by apply send_result.
  - etrans; [apply rtc_once, (tau_emit _ _ _ ev)|]. by etrans.
  - rewrite Ht2, Ht1. cbn [trace emit].
    by rewrite <- !app_assoc.
  - intros y [->|Hy]%elem_of_cons.
    + eexists. left.
    + destruct (Hev y Hy) as [ok Hok]. exists ok.
      right. apply elem_of_app. by right.
Qed.

Lemma broadcast_have_result (hd : list Z) (p : Peer) :
  length hd = 4 → well_formed p →
  ∃ q tr,
    broadcast_have hd p = (q, Ret tt)
    ∧ rtc (tau false (fun _ => False)) p q
    ∧ trace q = trace p ++ tr
    ∧ ∀ x, x ∈ dict_values (connections p) →
           ∃ ok, EvSendall x (have_header ++ hd) ok ∈ tr.
Proof.
  intros Hhd Hwf.
  destruct (have_loop hd (dict_values (connections p)) Hhd
              (emit EvAcquire p) Hwf) as (q & tr & E & Hs & Ht & Hev).
  exists (emit EvRelease q), (EvAcquire :: tr ++ [EvRelease]).
  split; [|split; [|split]].
  - unfold broadcast_have, with_lock.
    rewrite (bind_ret_eq _ _ (emit EvAcquire p) (emit EvAcquire p)
               (emit EvAcquire p)) by reflexivity.
    cbn [connections emit]. cbn [connections emit] in E. by rewrite E.
  - etrans; [apply rtc_once, (tau_emit _ _ _ EvAcquire)|].
    etrans; [exact Hs|]. apply rtc_once, tau_emit.
  - cbn [trace emit]. rewrite Ht. cbn [trace emit].
    by rewrite <- !app_assoc.
  - intros x Hx. destruct (Hev x Hx) as [ok Hok]. exists ok.
    right. apply elem_of_app. by left.
Qed.

Lemma check_interest_transfer c :
  preserves (same_view transfer_view) (check_interest c).
Proof. unfold check_interest. kept. Qed.

Lemma request_piece_transfer draws c :
  preserves (same_view transfer_view) (request_piece draws c).
Proof. unfold request_piece. kept. Qed.

Lemma broadcast_have_transfer hd :
  preserves (same_view transfer_view) (broadcast_have hd).
Proof. unfold broadcast_have. kept. apply check_interest_transfer. Qed.

(** X17. A PIECE frame whose data is stored: the piece is written and
    held, the length of the data is added to the interval counter of the
    sending session, the download is logged, and a HAVE frame for the
    piece is handed to every session of the registry, the sender
    included; the handler returns normally. *)
Theorem piece_accepted (draws : list nat) (c : nat) (payload : list Z)
    (p : Peer) (idx : nat) (fm' : FileManager) :
  well_formed p →
  (Z.of_nat (num_pieces (file_manager p)) ≤ 2 ^ 32)%Z →
  unpack_I (take 4 payload) = Ret idx →
  write_piece (file_manager p) idx (drop 4 payload) = (fm', Ret true) →
  ∃ p' hd tr,
    process_message draws c MSG_PIECE payload p = (p', Ret tt)
    ∧ pack_I (Z.of_nat idx) = Ret hd
    ∧ disk (file_manager p') = disk fm'
    ∧ bitfield (file_manager p')
      = <[idx:=1%Z]> (bitfield (file_manager p))
    ∧ interval_counters p'
      = alter (fun z => z + Z.of_nat (length (drop 4 payload)))%Z c
          (interval_counters p)
    ∧ trace p'
      = trace p
        ++ EvLog (log_download_piece (neighbor_id (sessions p !!! c)) idx
                    (sum_list (bitfield fm')))
           :: tr
    ∧ ∀ x, x ∈ dict_values (connections p) →
           ∃ ok, EvSendall x (have_header ++ hd) ok ∈ tr.
Proof.
  intros Hwf H32 Hu Hw.
  pose proof Hwf as (_ & Hn & _).
  pose proof (write_piece_cases (file_manager p) idx (drop 4 payload)) as Hc.
  rewrite Hw in Hc. cbn [fst snd] in Hc.
  destruct Hc as (_ & _ & _ & [(_ & _ & ?)|(Hidx & Hb & _)]); [done|].
  destruct (pack_I (Z.of_nat idx)) as [hd|e] eqn:Ep.
  2:{ unfold pack_I in Ep. by rewrite decide_True in Ep by lia. }
  assert (Hhd : length hd = 4).
  { unfold pack_I in Ep. rewrite decide_True in Ep by lia.
    by injection Ep as <-. }
  set (s := sessions p !!! c).
  set (ev := EvLog (log_download_piece (neighbor_id s) idx
                      (sum_list (bitfield fm')))).
  set (credit := fun s : PeerConnection =>
         set_downloaded_bytes_interval
           (downloaded_bytes_interval s
            + Z.of_nat (length (drop 4 payload)))%Z s).
  set (p3 := set_sessions (alter credit c (sessions p))
               (emit ev (set_file_manager fm' p))).
  assert (Hs3 : rtc (tau false (fun _ => False)) p p3).
  { etrans; [apply rtc_once, (tau_write _ _ _ idx (drop 4 payload))|].
    rewrite Hw. cbn [fst].
    etrans; [apply rtc_once, (tau_emit _ _ _ ev)|].
    apply rtc_once.
    apply (tau_update _ _ (emit ev (set_file_manager fm' p)) c credit).
    by intros []. }
  assert (Hwf3 : well_formed p3) by (by eapply well_formed_steps).
  destruct (broadcast_have_result hd p3 Hhd Hwf3)
    as (p4 & tr4 & E4 & Hs4 & Ht4 & Hev).
  pose proof (broadcast_have_transfer hd p3) as Hv4.
  rewrite E4 in Hv4. cbn [fst] in Hv4.
  assert (Hwf4 : well_formed p4) by (by eapply well_formed_steps).
  destruct ((if has_complete_file (file_manager p4)
             then log log_download_complete else mret tt) p4)
    as [p5 r5] eqn:E5.
  assert (H5 : r5 = Ret tt ∧ rtc (tau false (fun _ => False)) p4 p5
               ∧ transfer_view p5 = transfer_view p4).
  { destruct (has_complete_file (file_manager p4));
      injection E5 as <- <-.
    - split; [done|]. split; [apply rtc_once, tau_emit|done].
    - done. }
  destruct H5 as (-> & Hs5 & Hv5).
  assert (Hwf5 : well_formed p5) by (by eapply well_formed_steps).
  set (last := if negb (peer_choking (sessions p5 !!! c))
               then request_piece draws c else mret tt).
  assert (H6 : (last p5).2 = Ret tt
               ∧ rtc (tau false (fun _ => False)) p5 (last p5).1
               ∧ transfer_view (last p5).1 = transfer_view p5).
  { subst last. destruct (negb (peer_choking (sessions p5 !!! c))).
    - split; [|split].
      + apply request_piece_returns; [done|].
        assert (E : num_pieces (file_manager p5)
                    = num_pieces (file_manager p)); [|by rewrite E].
        pose proof Hwf5 as (_ & <- & _).
        assert (Hv : transfer_view p5 = transfer_view p3)
          by (by rewrite Hv5, Hv4).
        injection Hv as _ -> _. subst p3.
        cbn [file_manager set_sessions emit set_file_manager].
        by rewrite Hb, length_insert.
      + apply request_piece_steps.
      + apply request_piece_transfer.
    - done. }
  destruct (last p5) as [p6 r6] eqn:E6. cbn [fst snd] in H6.
  destruct H6 as (-> & Hs6 & Hv6).
  destruct (trace_steps _ _ _ _ Hs5) as [tr5 Ht5].
  destruct (trace_steps _ _ _ _ Hs6) as [tr6 Ht6].
  exists p6, hd, (tr4 ++ tr5 ++ tr6).
  split; [|split; [done|]].
  { change (process_message draws c MSG_PIECE payload)
      with (on_piece draws c payload).
    unfold on_piece.
    rewrite (bind_ret_eq _ _ p p s) by reflexivity.
    rewrite (bind_ret_eq _ _ p p idx) by (unfold lift; by rewrite Hu).
    rewrite (bind_ret_eq _ _ p p p) by reflexivity.
    rewrite Hw.
    rewrite (bind_ret_eq _ _ p (set_file_manager fm' p) tt)
      by reflexivity.
    rewrite (bind_ret_eq _ _ _ (set_file_manager fm' p) true)
      by reflexivity.
    rewrite (bind_ret_eq _ _ _ (emit ev (set_file_manager fm' p)) tt)
      by reflexivity.
    rewrite (bind_ret_eq _ _ _ p3 tt) by reflexivity.
    rewrite (bind_ret_eq _ _ p3 p3 hd) by (unfold lift; by rewrite Ep).
    rewrite (bind_ret_eq _ _ p3 p4 tt) by done.
    rewrite (bind_ret_eq _ _ p4 p4 p4) by reflexivity.
    rewrite (bind_ret_eq _ _ p4 p5 tt) by exact E5.
    rewrite (bind_ret_eq _ _ p5 p5 (sessions p5 !!! c)) by reflexivity.
    exact E6. }
  assert (Hv : transfer_view p6 = transfer_view p3)
    by (by rewrite Hv6, Hv5, Hv4).
  injection Hv as Hd6 Hb6 Hc6.
  split; [by rewrite Hd6|]. split; [by rewrite Hb6|].
  split; [|split].
  - rewrite Hc6. subst p3. unfold interval_counters.
    cbn [sessions set_sessions emit set_file_manager].
    apply list_fmap_alter. by apply Forall_true.
  - rewrite Ht6, Ht5, Ht4. subst p3. cbn [trace set_sessions emit
      set_file_manager]. rewrite <- !app_assoc. done.
  - intros x Hx. destruct (Hev x Hx) as [ok Hok]. exists ok.
    apply elem_of_app. by left.
Qed.

Lemma piece_accepted_witness :
  let p := announced_example in
  let payload := ([0; 0; 0; 1] ++ replicate 10 7)%Z in
  let fm' := (write_piece (file_manager p) 1 (drop 4 payload)).1 in
  ∃ p' hd tr,
    process_message [] 0 MSG_PIECE payload p = (p', Ret tt)
    ∧ pack_I (Z.of_nat 1) = Ret hd
    ∧ disk (file_manager p') = disk fm'
    ∧ bitfield (file_manager p')
      = <[1:=1%Z]> (bitfield (file_manager p))
    ∧ interval_counters p'
      = alter (fun z => z + Z.of_nat (length (drop 4 payload)))%Z 0
          (interval_counters p)
    ∧ trace p'
      = trace p
        ++ EvLog (log_download_piece (neighbor_id (sessions p !!! 0)) 1
                    (sum_list (bitfield fm')))
           :: tr
    ∧ ∀ x, x ∈ dict_values (connections p) →
           ∃ ok, EvSendall x (have_header ++ hd) ok ∈ tr.
Proof.
  apply (piece_accepted [] 0 ([0; 0; 0; 1] ++ replicate 10 7)%Z
           announced_example 1
           (write_piece (file_manager announced_example) 1
              (drop 4 ([0; 0; 0; 1] ++ replicate 10 7)%Z)).1).
  - apply reachable_well_formed. unfold announced_example.
    apply reachable_step;
      [apply reachable_step; [apply reachable_init|done]|].
    vm_compute. lia.
  - vm_compute. discriminate.
  - reflexivity.
  - vm_compute. reflexivity.
Defined.

(** * The unchoke scheduler *)

Lemma emits_app (t1 t2 : list event) (p : Peer) :
  emits (t1 ++ t2) p = emits t2 (emits t1 p).
Proof. unfold emits. by rewrite foldl_app. Qed.

Lemma emits_fields (tr : list event) (p : Peer) :
  sessions (emits tr p) = sessions p
  ∧ connections (emits tr p) = connections p
  ∧ file_manager (emits tr p) = file_manager p
  ∧ running (emits tr p) = running p
  ∧ server_socket (emits tr p) = server_socket p
  ∧ trace (emits tr p) = trace p ++ tr.
Proof.
  revert p. induction tr as [|e tr IH]; intros p.
  { by rewrite app_nil_r. }
  change (emits (e :: tr) p) with (emits tr (emit e p)).
  destruct (IH (emit e p)) as (-> & -> & -> & -> & -> & ->).
  cbn [trace emit]. by rewrite <- app_assoc.
Qed.

Lemma set_sessions_emits (tr : list event) (ss : list PeerConnection)
    (p : Peer) :
  emits tr (set_sessions ss p) = set_sessions ss (emits tr p).
Proof.
  revert p. induction tr as [|e tr IH]; intros p; [done|].
  apply (IH (emit e p)).
Qed.

Lemma set_sessions_twice (a b : list PeerConnection) (p : Peer) :
  set_sessions a (set_sessions b p) = set_sessions a p.
Proof. done. Qed.

(** A loop over sessions whose body rewrites the session it visits and
    appends events that depend on that session only. *)
Section SessionLoop.

Variable D : nat → PeerConnection → PeerConnection.
Variable msg : nat → PeerConnection → list event.
Variable body : nat → M unit.

Hypothesis body_eq : ∀ c p,
  body c p
  = (set_sessions (alter (D c) c (sessions p))
       (emits (msg c (sessions p !!! c)) p), Ret tt).
Hypothesis D_idem : ∀ c s, D c (D c s) = D c s.
Hypothesis msg_sub : ∀ c s ev, ev ∈ msg c (D c s) → ev ∈ msg c s.

Lemma for_in_sessions (xs : list nat) :
  ∀ p, (∀ x, x ∈ xs → x < length (sessions p)) →
  ∃ ss' tr,
    for_in xs body p = (set_sessions ss' (emits tr p), Ret tt)
    ∧ length ss' = length (sessions p)
    ∧ (∀ c, ss' !!! c = if decide (c ∈ xs) then D c (sessions p !!! c)
                        else sessions p !!! c)
    ∧ (∀ ev, ev ∈ tr ↔ ∃ c, c ∈ xs ∧ ev ∈ msg c (sessions p !!! c)).
Proof using body_eq D_idem msg_sub.
  induction xs as [|x xs IH]; intros p Hin.
  { exists (sessions p), []. split; [by rewrite set_sessions_id|].
    split; [done|]. split; [done|]. intros ev. split.
    - by intros ?%elem_of_nil.
    - by intros (c & ?%elem_of_nil & _). }
  set (ss := sessions p) in *.
  set (p1 := set_sessions (alter (D x) x ss) (emits (msg x (ss !!! x)) p)).
  assert (Hx : x < length ss) by (apply Hin; by left).
  destruct (IH p1) as (ss' & tr & E & Hlen & Hss & Htr).
  { intros y Hy. subst p1. cbn [sessions set_sessions].
    rewrite length_alter. apply Hin. by right. }
  assert (Hat : ∀ c, sessions p1 !!! c
                     = if decide (c = x) then D x (ss !!! x) else ss !!! c).
  { intros c. subst p1. cbn [sessions set_sessions].
    rewrite list_lookup_total_alter.
    destruct (decide (c = x)) as [->|Hne].
    - by rewrite decide_True.
    - rewrite decide_False; [done|]. by intros [-> _]. }
  exists ss', (msg x (ss !!! x) ++ tr).
  split; [|split; [|split]].
  - cbn [for_in]. rewrite (bind_ret_eq _ _ p p1 tt) by apply body_eq.
    rewrite E. subst p1.
    by rewrite set_sessions_emits, set_sessions_twice, emits_app.
  - rewrite Hlen. subst p1. cbn [sessions set_sessions].
    by rewrite length_alter.
  - intros c. rewrite Hss, Hat.
    destruct (decide (c = x)) as [->|Hne].
    + rewrite (decide_True (P:=x ∈ x :: xs)) by (by left).
      by destruct (decide (x ∈ xs)).
    + destruct (decide (c ∈ xs)) as [Hc|Hc].
      * by rewrite decide_True by (by right).
      * rewrite decide_False; [done|].
        by intros [?|?]%elem_of_cons.
  - intros ev. rewrite elem_of_app, Htr. split.
    + intros [Hev|(c & Hc & Hev)].
      * exists x. split; [by left|done].
      * exists c. split; [by right|]. rewrite Hat in Hev.
        destruct (decide (c = x)) as [->|Hne]; [|done].
        by apply msg_sub.
    + intros (c & [->|Hc]%elem_of_cons & Hev); [by left|].
      destruct (decide (c = x)) as [->|Hne]; [by left|].
      right. exists c. split; [done|]. rewrite Hat.
      by rewrite decide_False.
Qed.

End SessionLoop.

Lemma alter_at (f g : PeerConnection → PeerConnection) (c : nat)
    (ss : list PeerConnection) :
  f (ss !!! c) = g (ss !!! c) → alter f c ss = alter g c ss.
Proof.
  intros H. apply list_alter_ext; [|done]. intros x Hx.
  by rewrite (list_lookup_total_correct _ _ _ Hx) in H.
Qed.

Lemma alter_twice (f g : PeerConnection → PeerConnection) (c : nat)
    (ss : list PeerConnection) :
  alter f c (alter g c ss) = alter (f ∘ g) c ss.
Proof.
  apply list_eq. intros i. destruct (decide (c = i)) as [->|Hne].
  - rewrite !list_lookup_alter_eq. by destruct (ss !! i).
  - by rewrite !list_lookup_alter_ne.
Qed.

Lemma sendable_alter (f : PeerConnection → PeerConnection) (c : nat)
    (ss : list PeerConnection) :
  (∀ s, socket (f s) = socket s) →
  socket (alter f c ss !!! c) = socket (ss !!! c).
Proof.
  intros H. rewrite list_lookup_total_alter. by case_decide.
Qed.

Lemma set_am_choking_id (s : PeerConnection) :
  set_am_choking (am_choking s) s = s.
Proof. by destruct s. Qed.

Lemma apply_choke_eq (preferred : list nat) (c : nat) (p : Peer) :
  apply_choke preferred c p
  = (set_sessions
       (alter (fun s =>
                 set_downloaded_bytes_interval 0
                   (set_am_choking (choke_flag preferred c s) s))
              c (sessions p))
       (emits (choke_frames preferred c (sessions p !!! c)) p),
     Ret tt).
Proof.
  set (s := sessions p !!! c).
  unfold apply_choke, choke_frames. run_M. fold s.
  destruct (decide (c ∈ preferred)) as [Hc|Hc].
  - destruct (am_choking s) eqn:Ea.
    + rewrite (send_result c MSG_UNCHOKE [] unchoke_frame) by reflexivity.
      cbn [sessions set_sessions emit fst snd app].
      rewrite sendable_alter by done. fold s.
      unfold emits, sendable. cbn [foldl]. unfold set_sessions, emit.
      cbn. f_equal. f_equal. rewrite alter_twice. apply alter_at.
      unfold choke_flag. by rewrite decide_True.
    + cbn [fst snd]. unfold emits. cbn [foldl]. f_equal. f_equal.
      apply alter_at. fold s. unfold choke_flag.
      rewrite decide_True by done. by rewrite <- Ea, set_am_choking_id.
  - destruct (negb (am_choking s) && negb (default false (is_optimistic s)))
      eqn:Eb.
    + rewrite (send_result c MSG_CHOKE [] choke_frame) by reflexivity.
      cbn [sessions set_sessions emit fst snd app].
      rewrite sendable_alter by done. fold s.
      unfold emits, sendable. cbn [foldl]. unfold set_sessions, emit.
      cbn. f_equal. f_equal. rewrite alter_twice. apply alter_at.
      unfold choke_flag. rewrite decide_False by done. fold s.
      cbn. apply andb_true_iff in Eb as [Ha Ho].
      apply negb_true_iff in Ha, Ho. by rewrite Ha, Ho.
    + cbn [fst snd]. unfold emits. cbn [foldl]. f_equal. f_equal.
      apply alter_at. fold s. unfold choke_flag.
      rewrite decide_False by done.
      assert (E : am_choking s || negb (default false (is_optimistic s))
                  = am_choking s).
      { destruct (am_choking s), (default false (is_optimistic s)); done. }
      by rewrite E, set_am_choking_id.
Qed.

(** X18. What a cycle of the preferred-neighbor timer does.  With no
    interested neighbor in the registry it does nothing at all: no session
    is choked and no interval counter is reset.  Otherwise, for every
    session of the registry, the counter is reset and the session is
    unchoked when preferred, choked when neither preferred nor marked
    optimistic, and left as it is when marked optimistic; UNCHOKE goes
    exactly to the preferred sessions that were choked and CHOKE exactly
    to the sessions that become choked; nothing else changes. *)
Theorem choking_cycle_effect (draws : list nat) (p : Peer) :
  well_formed p →
  let snapshot := interested_neighbors p in
  let preferred := select_preferred draws p snapshot in
  let registry := dict_values (connections p) in
  let preferred_ids :=
    (fun c => neighbor_id (sessions p !!! c)) <$> preferred in
  (snapshot = [] →
   choking_timer_turn draws p = (emits [EvAcquire; EvRelease] p, Ret tt))
  ∧ (snapshot ≠ [] →
     ∃ ss' msgs,
       choking_timer_turn draws p
       = (set_sessions ss'
            (emits ([EvAcquire;
                     EvLog (log_change_preferred_neighbors preferred_ids)]
                    ++ msgs ++ [EvRelease]) p),
          Ret tt)
       ∧ length ss' = length (sessions p)
       ∧ (∀ c, c ∈ registry →
            let s := sessions p !!! c in
            ss' !!! c
            = set_downloaded_bytes_interval 0
                (set_am_choking
                   (if decide (c ∈ preferred) then false
                    else am_choking s
                         || negb (default false (is_optimistic s))) s))
       ∧ (∀ c, c ∉ registry → ss' !!! c = sessions p !!! c)
       ∧ (∀ ev, ev ∈ msgs ↔
            ∃ c, c ∈ registry ∧
              let s := sessions p !!! c in
              (c ∈ preferred ∧ am_choking s = true
               ∧ ev = EvSendall c unchoke_frame (sendable s))
              ∨ ((c ∉ preferred) ∧ am_choking s = false
                 ∧ default false (is_optimistic s) = false
                 ∧ ev = EvSendall c choke_frame (sendable s)))).
Proof.
  intros Hwf snapshot preferred registry preferred_ids.
  unfold choking_timer_turn, with_lock.
  rewrite (bind_ret_eq _ _ (emit EvAcquire p) (emit EvAcquire p)
             (emit EvAcquire p)) by reflexivity.
  change (interested_neighbors (emit EvAcquire p)) with snapshot.
  split.
  { intros ->. by rewrite decide_True by done. }
  intros Hne. rewrite decide_False by done.
  change (select_preferred draws (emit EvAcquire p) snapshot)
    with preferred.
  set (ev := EvLog (log_change_preferred_neighbors preferred_ids)).
  rewrite (bind_ret_eq _ _ (emit EvAcquire p) (emit ev (emit EvAcquire p))
             tt) by reflexivity.
  set (D := fun c s =>
         set_downloaded_bytes_interval 0
           (set_am_choking (choke_flag preferred c s) s)).
  destruct (for_in_sessions D (choke_frames preferred)
              (apply_choke preferred)) with
    (xs := registry) (p := emit ev (emit EvAcquire p))
    as (ss' & msgs & E & Hlen & Hss & Hmsgs).
  { intros c q. apply apply_choke_eq. }
  { intros c s. unfold D, choke_flag.
    destruct (decide (c ∈ preferred)); destruct s as [? ? a ? ? ? ? ? ? o];
      cbn; [done|].
    by destruct a, (default false o). }
  { intros c s e. unfold D, choke_frames, choke_flag.
    destruct (decide (c ∈ preferred)); destruct s as [? ? a ? ? ? ? ? ? o];
      cbn; [by intros ?%elem_of_nil|].
    destruct a, (default false o); cbn; by intros ?%elem_of_nil. }
  { intros c Hc. destruct Hwf as (_ & _ & _ & Hreg).
    apply list_elem_of_fmap in Hc as ([nid c'] & -> & Hin).
    by apply (Hreg nid). }
  change (connections (emit EvAcquire p)) with (connections p).
  fold registry. rewrite E. exists ss', msgs.
  split; [|split; [done|split; [|split]]].
  - f_equal. rewrite !emits_app. reflexivity.
  - intros c Hc. cbn zeta. rewrite Hss. by rewrite decide_True.
  - intros c Hc. rewrite Hss. by rewrite decide_False.
  - intros e. rewrite Hmsgs.
    change (sessions (emit ev (emit EvAcquire p))) with (sessions p).
    split.
    + intros (c & Hc & He). exists c. split; [done|]. cbn zeta.
      unfold choke_frames in He.
      destruct (decide (c ∈ preferred)) as [Hp|Hp].
      * destruct (am_choking (sessions p !!! c)) eqn:Ea;
          [|by apply elem_of_nil in He].
        apply list_elem_of_singleton in He. left. done.
      * destruct (am_choking (sessions p !!! c)) eqn:Ea;
          [by apply elem_of_nil in He|].
        destruct (default false (is_optimistic (sessions p !!! c))) eqn:Eo;
          [by apply elem_of_nil in He|].
        apply list_elem_of_singleton in He. right. done.
    + intros (c & Hc & He). exists c. split; [done|]. cbn zeta in He.
      unfold choke_frames.
      destruct He as [(Hp & Ha & ->)|(Hp & Ha & Ho & ->)].
      * rewrite decide_True by done. rewrite Ha. by left.
      * rewrite decide_False by done. rewrite Ha, Ho. by left.
Qed.

Lemma choking_cycle_effect_witness :
  let p := unchoke_example in
  let snapshot := interested_neighbors p in
  let preferred := select_preferred [] p snapshot in
  let registry := dict_values (connections p) in
  let preferred_ids :=
    (fun c => neighbor_id (sessions p !!! c)) <$> preferred in
  (snapshot = [] →
   choking_timer_turn [] p = (emits [EvAcquire; EvRelease] p, Ret tt))
  ∧ (snapshot ≠ [] →
     ∃ ss' msgs,
       choking_timer_turn [] p
       = (set_sessions ss'
            (emits ([EvAcquire;
                     EvLog (log_change_preferred_neighbors preferred_ids)]
                    ++ msgs ++ [EvRelease]) p),
          Ret tt)
       ∧ length ss' = length (sessions p)
       ∧ (∀ c, c ∈ registry →
            let s := sessions p !!! c in
            ss' !!! c
            = set_downloaded_bytes_interval 0
                (set_am_choking
                   (if decide (c ∈ preferred) then false
                    else am_choking s
                         || negb (default false (is_optimistic s))) s))
       ∧ (∀ c, c ∉ registry → ss' !!! c = sessions p !!! c)
       ∧ (∀ ev, ev ∈ msgs ↔
            ∃ c, c ∈ registry ∧
              let s := sessions p !!! c in
              (c ∈ preferred ∧ am_choking s = true
               ∧ ev = EvSendall c unchoke_frame (sendable s))
              ∨ ((c ∉ preferred) ∧ am_choking s = false
                 ∧ default false (is_optimistic s) = false
                 ∧ ev = EvSendall c choke_frame (sendable s)))).
Proof.
  apply (choking_cycle_effect [] unchoke_example).
  apply run_well_formed.
Defined.

Lemma choice_nonempty {A} (xs : list A) (draws : list nat) :
  xs ≠ [] → ∃ x, choice xs draws = Some x.
Proof.
  intros Hne. apply lookup_lt_is_Some_2.
  assert (0 < length xs) by (destruct xs; [done|cbn; lia]).
  unfold randbelow. destruct draws as [|r draws]; cbn [fst]; [done|].
  apply Nat.mod_upper_bound. lia.
Qed.

(** X19. What a cycle of the optimistic timer does.  Without a choked
    and interested neighbor in the registry it does nothing at all, so
    an earlier mark stays.  Otherwise the session it draws was choked and
    interested; it is marked, unchoked and sent one UNCHOKE frame, every
    other session of the registry has its mark cleared and keeps its
    [am_choking] flag, and nothing else changes. *)
Theorem optimistic_cycle_effect (draws : list nat) (p : Peer) :
  well_formed p →
  let candidates := optimistic_candidates p in
  let registry := dict_values (connections p) in
  (candidates = [] →
   optimistic_unchoking_timer_turn draws p
   = (emits [EvAcquire; EvRelease] p, Ret tt))
  ∧ (candidates ≠ [] →
     ∃ chosen ss',
       let s := sessions p !!! chosen in
       choice candidates draws = Some chosen
       ∧ chosen ∈ registry
       ∧ am_choking s = true ∧ peer_interested s = true
       ∧ optimistic_unchoking_timer_turn draws p
         = (set_sessions ss'
              (emits [EvAcquire;
                      EvLog (log_change_optimistically_unchoked
                               (neighbor_id s));
                      EvSendall chosen unchoke_frame (sendable s);
                      EvRelease] p),
            Ret tt)
       ∧ length ss' = length (sessions p)
       ∧ ss' !!! chosen
         = set_am_choking false (set_is_optimistic (Some true) s)
       ∧ (∀ c, c ∈ registry → c ≠ chosen →
            ss' !!! c = set_is_optimistic (Some false) (sessions p !!! c))
       ∧ (∀ c, c ∉ registry → ss' !!! c = sessions p !!! c)).
Proof.
  intros Hwf candidates registry.
  unfold optimistic_unchoking_timer_turn, with_lock.
  rewrite (bind_ret_eq _ _ (emit EvAcquire p) (emit EvAcquire p)
             (emit EvAcquire p)) by reflexivity.
  change (optimistic_candidates (emit EvAcquire p)) with candidates.
  change (connections (emit EvAcquire p)) with (connections p).
  fold registry.
  split.
  { intros ->. by rewrite decide_True by done. }
  intros Hne. rewrite decide_False by done.
  destruct (choice_nonempty candidates draws Hne) as [chosen Ec].
  rewrite Ec. exists chosen.
  pose proof (choice_elem _ _ _ Ec) as Hin.
  apply list_elem_of_filter in Hin as [[Ha Hi] Hreg].
  assert (Hlt : chosen < length (sessions p)).
  { destruct Hwf as (_ & _ & _ & Hr).
    apply list_elem_of_fmap in Hreg as ([nid c'] & -> & Hin).
    by apply (Hr nid). }
  set (s := sessions p !!! chosen) in *.
  set (ss1 := alter (set_is_optimistic (Some true)) chosen (sessions p)).
  set (ss3 := alter (set_am_choking false) chosen ss1).
  set (p1 := set_sessions ss1 (emit EvAcquire p)).
  set (p2 := emit (EvLog (log_change_optimistically_unchoked
                            (neighbor_id s))) p1).
  set (p3 := emit (EvSendall chosen unchoke_frame (sendable s))
               (set_sessions ss3 p2)).
  assert (Hs1 : sessions p1 !!! chosen = set_is_optimistic (Some true) s).
  { subst p1 ss1. cbn [sessions set_sessions].
    by rewrite list_lookup_total_alter_eq. }
  rewrite (bind_ret_eq _ _ _ p1 tt) by reflexivity.
  rewrite (bind_ret_eq _ _ p1 p1 (sessions p1 !!! chosen)) by reflexivity.
  rewrite Hs1. cbn [neighbor_id am_choking set_is_optimistic]. rewrite Ha.
  rewrite (bind_ret_eq _ _ p1 p2 tt) by reflexivity.
  rewrite (bind_ret_eq _ _ p2 p3 tt).
  2:{ rewrite (bind_ret_eq _ _ p2 (set_sessions ss3 p2) tt) by reflexivity.
      rewrite (send_result chosen MSG_UNCHOKE [] unchoke_frame)
        by reflexivity.
      subst p3. do 3 f_equal. unfold sendable. do 2 f_equal.
      all: subst ss3 ss1; cbn [sessions set_sessions];
        rewrite !list_lookup_total_alter_eq by (rewrite ?length_alter; done);
        done. }
  set (D := fun c s =>
         if decide (c ≠ chosen) then set_is_optimistic (Some false) s
         else s).
  destruct (for_in_sessions D (fun _ _ => [])
              (fun c => if decide (c ≠ chosen)
                        then update_conn c (set_is_optimistic (Some false))
                        else mret tt)) with
    (xs := registry) (p := p3)
    as (ss' & msgs & E & Hlen & Hss & Hmsgs).
  { intros c q. unfold D. case_decide; [done|].
    cbn [emits foldl]. by rewrite list_alter_id, set_sessions_id. }
  { intros c x. unfold D. by case_decide. }
  { by intros c x e ?%elem_of_nil. }
  { intros c Hc. subst p3 ss3 ss1. cbn [sessions set_sessions emit].
    rewrite !length_alter. destruct Hwf as (_ & _ & _ & Hr).
    apply list_elem_of_fmap in Hc as ([nid c'] & -> & Hin).
    by apply (Hr nid). }
  assert (Hnil : msgs = []).
  { destruct msgs as [|ev msgs]; [done|].
    destruct (proj1 (Hmsgs ev) ltac:(left)) as (? & _ & ?%elem_of_nil).
    done. }
  subst msgs. rewrite E. exists ss'.
  change (sessions p3) with ss3 in Hlen, Hss.
  repeat split; try done.
  - rewrite Hlen. subst ss3 ss1. by rewrite !length_alter.
  - rewrite Hss. unfold D. rewrite decide_True by done.
    rewrite decide_False by (by intros ?). subst ss3 ss1.
    rewrite !list_lookup_total_alter_eq by (rewrite ?length_alter; done).
    done.
  - intros c Hc Hne'. rewrite Hss. unfold D.
    rewrite decide_True by done. rewrite decide_True by done.
    subst ss3 ss1. by rewrite !list_lookup_total_alter_ne.
  - intros c Hc. rewrite Hss. rewrite decide_False by done.
    assert (c ≠ chosen) by (by intros ->).
    subst ss3 ss1. by rewrite !list_lookup_total_alter_ne.
Qed.

Lemma optimistic_cycle_effect_witness :
  let p := unchoke_example in
  let candidates := optimistic_candidates p in
  let registry := dict_values (connections p) in
  (candidates = [] →
   optimistic_unchoking_timer_turn [0] p
   = (emits [EvAcquire; EvRelease] p, Ret tt))
  ∧ (candidates ≠ [] →
     ∃ chosen ss',
       let s := sessions p !!! chosen in
       choice candidates [0] = Some chosen
       ∧ chosen ∈ registry
       ∧ am_choking s = true ∧ peer_interested s = true
       ∧ optimistic_unchoking_timer_turn [0] p
         = (set_sessions ss'
              (emits [EvAcquire;
                      EvLog (log_change_optimistically_unchoked
                               (neighbor_id s));
                      EvSendall chosen unchoke_frame (sendable s);
                      EvRelease] p),
            Ret tt)
       ∧ length ss' = length (sessions p)
       ∧ ss' !!! chosen
         = set_am_choking false (set_is_optimistic (Some true) s)
       ∧ (∀ c, c ∈ registry → c ≠ chosen →
            ss' !!! c = set_is_optimistic (Some false) (sessions p !!! c))
       ∧ (∀ c, c ∉ registry → ss' !!! c = sessions p !!! c)).
Proof.
  apply (optimistic_cycle_effect [0] unchoke_example).
  apply run_well_formed.
Defined.

(** * The exit of the termination detector *)

Lemma set_running_emits (tr : list event) (b : bool) (p : Peer) :
  emits tr (set_running b p) = set_running b (emits tr p).
Proof.
  revert p. induction tr as [|e tr IH]; intros p; [done|].
  apply (IH (emit e p)).
Qed.

Lemma close_conn_eq (c : nat) (p : Peer) :
  close_conn c p
  = (set_sessions (alter close c (sessions p)) (emits [EvClose c] p),
     Ret tt).
Proof. reflexivity. Qed.

(** X20. A poll of the termination detector at which the local store is
    complete, every neighbor bitmap of the registry is full and the
    registry has one session per other configured peer ends the process:
    it clears [running], closes the socket of every session of the
    registry and the listening socket, and raises [SystemExit 0].
    Sessions that are not in the registry are not closed, and nothing is
    removed from the registry.  A poll at which one of the three tests
    fails only adds its checks to the trace. *)
Theorem termination_poll_effect (p : Peer) :
  well_formed p →
  let registry := dict_values (connections p) in
  let go := has_complete_file (file_manager p) && all_neighbors_done p
            && session_count_ok p in
  let q := (termination_check_loop_turn p).1 in
  (go = false →
   ∃ tr, termination_check_loop_turn p = (emits tr p, Ret tt))
  ∧ (go = true →
     (termination_check_loop_turn p).2 = Raise (SystemExit 0)
     ∧ running q = false
     ∧ (∀ c, c ∈ registry → sessions q !!! c = close (sessions p !!! c))
     ∧ (∀ c, c ∉ registry → sessions q !!! c = sessions p !!! c)
     ∧ server_socket q
       = (fun s => mkSocket true (sock_broken s)) <$> server_socket p
     ∧ file_manager q = file_manager p
     ∧ connections q = connections p
     ∧ ∃ closing,
         trace q
         = trace p ++ poll_events ++ closing
           ++ (match server_socket p with Some _ => [EvCloseServer] | None => [] end)
         ∧ ∀ ev, ev ∈ closing ↔ ∃ c, c ∈ registry ∧ ev = EvClose c).
Proof.
  intros Hwf registry go q. subst q go.
  unfold termination_check_loop_turn, with_lock. run_M.
  destruct (has_complete_file (file_manager p)); cbn [negb andb].
  2:{ split; [|done]. intros _. by exists [EvCheck CheckLocalComplete]. }
  cbn [fst snd emit sessions connections file_manager].
  change (all_neighbors_done (emit _ (emit _ (emit _ p))))
    with (all_neighbors_done p).
  destruct (all_neighbors_done p); cbn [andb].
  2:{ split; [|done]. intros _.
      by exists [EvCheck CheckLocalComplete; EvAcquire;
                 EvCheck CheckNeighborsComplete; EvRelease]. }
  change (session_count_ok (emit _ (emit _ (emit _ (emit _ (emit _ p))))))
    with (session_count_ok p).
  destruct (session_count_ok p).
  2:{ split; [|done]. intros _. by exists poll_events. }
  split; [done|]. intros _.
  change (emit _ (emit _ (emit _ (emit _ (emit _ p)))))
    with (emits poll_events p).
  set (p3 := emits poll_events p).
  destruct (emits_fields poll_events p) as (Hs3 & Hc3 & Hf3 & _ & Hv3 & Ht3).
  fold p3 in Hs3, Hc3, Hf3, Hv3, Ht3.
  unfold shutdown.
  rewrite (bind_ret_eq _ _ p3 (set_running false p3) tt) by reflexivity.
  rewrite (bind_ret_eq _ _ _ (set_running false p3) (set_running false p3))
    by reflexivity.
  destruct (for_in_sessions (fun _ => close) (fun c _ => [EvClose c])
              close_conn) with
    (xs := registry) (p := set_running false p3)
    as (ss' & closing & E & Hlen & Hss & Hcl).
  { intros c q. apply close_conn_eq. }
  { by intros c []. }
  { done. }
  { intros c Hc. cbn [sessions set_running]. rewrite Hs3.
    destruct Hwf as (_ & _ & _ & Hr).
    apply list_elem_of_fmap in Hc as ([nid c'] & -> & Hin).
    by apply (Hr nid). }
  cbn [connections set_running]. rewrite Hc3. fold registry.
  rewrite (bind_ret_eq _ _ _ _ tt E).
  set (q4 := set_sessions ss' (emits closing (set_running false p3))).
  rewrite (bind_ret_eq _ _ q4 q4 q4) by reflexivity.
  destruct (emits_fields closing (set_running false p3))
    as (Hs4 & Hc4 & Hf4 & Hr4 & Hv4 & Ht4).
  cbn [sessions set_running] in Hss. rewrite Hs3 in Hss.
  assert (Hcl' : ∀ ev, ev ∈ closing ↔ ∃ c, c ∈ registry ∧ ev = EvClose c).
  { intros ev. rewrite Hcl. split; intros (c & Hc & Hev); exists c.
    - by apply list_elem_of_singleton in Hev.
    - split; [done|]. subst. by left. }
  assert (Hq4 : server_socket q4 = server_socket p
                ∧ running q4 = false
                ∧ sessions q4 = ss'
                ∧ file_manager q4 = file_manager p
                ∧ connections q4 = connections p
                ∧ trace q4 = trace p ++ poll_events ++ closing).
  { unfold q4.
    change (server_socket (emits closing (set_running false p3))
            = server_socket p
            ∧ running (emits closing (set_running false p3)) = false
            ∧ ss' = ss'
            ∧ file_manager (emits closing (set_running false p3))
              = file_manager p
            ∧ connections (emits closing (set_running false p3))
              = connections p
            ∧ trace (emits closing (set_running false p3))
              = trace p ++ poll_events ++ closing).
    rewrite Hv4, Hr4, Hf4, Hc4, Ht4.
    cbn [server_socket running file_manager connections trace set_running].
    rewrite Hv3, Hf3, Hc3, Ht3. by rewrite <- app_assoc. }
  destruct Hq4 as (Hv & Hr & Hs & Hf & Hc & Ht).
  unfold mbind, M_bind. rewrite Hv.
  destruct (server_socket p) as [srv|]; cbn [modify lift fst snd fmap
    option_fmap option_map].
  - cbn [running sessions server_socket file_manager connections trace
      emit set_server_socket].
    rewrite Hr, Hs, Hf, Hc, Ht.
    split; [done|]. split; [done|]. split.
    { intros c Hin. rewrite Hss. by rewrite decide_True. }
    split.
    { intros c Hin. rewrite Hss. by rewrite decide_False. }
    split; [done|]. split; [done|]. split; [done|].
    exists closing. split; [|done]. by rewrite <- !app_assoc.
  - unfold mret, M_ret. cbn [lift fst snd].
    rewrite Hr, Hs, Hf, Hc, Ht, Hv.
    split; [done|]. split; [done|]. split.
    { intros c Hin. rewrite Hss. by rewrite decide_True. }
    split.
    { intros c Hin. rewrite Hss. by rewrite decide_False. }
    split; [done|]. split; [done|]. split; [done|].
    exists closing. split; [|done]. by rewrite app_nil_r.
Qed.

Lemma termination_poll_effect_witness :
  let p := all_complete_example in
  let registry := dict_values (connections p) in
  let go := has_complete_file (file_manager p) && all_neighbors_done p
            && session_count_ok p in
  let q := (termination_check_loop_turn p).1 in
  (go = false →
   ∃ tr, termination_check_loop_turn p = (emits tr p, Ret tt))
  ∧ (go = true →
     (termination_check_loop_turn p).2 = Raise (SystemExit 0)
     ∧ running q = false
     ∧ (∀ c, c ∈ registry → sessions q !!! c = close (sessions p !!! c))
     ∧ (∀ c, c ∉ registry → sessions q !!! c = sessions p !!! c)
     ∧ server_socket q
       = (fun s => mkSocket true (sock_broken s)) <$> server_socket p
     ∧ file_manager q = file_manager p
     ∧ connections q = connections p
     ∧ ∃ closing,
         trace q
         = trace p ++ poll_events ++ closing
           ++ (match server_socket p with Some _ => [EvCloseServer] | None => [] end)
         ∧ ∀ ev, ev ∈ closing ↔ ∃ c, c ∈ registry ∧ ev = EvClose c).
Proof.
  apply (termination_poll_effect all_complete_example).
  apply reachable_well_formed. unfold all_complete_example.
  repeat (apply reachable_step; [|vm_compute; try lia; done]).
  apply reachable_init.
Defined.

(** * Establishing sessions *)

Lemma get_bitfield_bytes_returns (fm : FileManager) :
  length (bitfield fm) = num_pieces fm →
  ∃ bf, get_bitfield_bytes fm = Ret bf
        ∧ length bf = (num_pieces fm + 7) / 8.
Proof.
  intros Hl. unfold get_bitfield_bytes, encode_bits. rewrite ceil_div_8.
  destruct (pack_loop (bitfield fm) (seq 0 (num_pieces fm))
              (replicate ((num_pieces fm + 7) / 8) 0%Z))
    as (bf & E & L & _).
  { intros i Hi%elem_of_seq. rewrite length_replicate.
    split; [lia|]. apply byte_index_lt. lia. }
  exists bf. split; [done|]. by rewrite L, length_replicate.
Qed.

(** Registration of a new session: the session object is appended to the
    store, the registry maps the neighbor to it, and the bitfield is
    sent. *)
Lemma register_connection_result (sock : Socket) (nid : Z) (p : Peer) :
  well_formed p →
  (Z.of_nat (num_pieces (file_manager p)) < 2 ^ 32)%Z →
  let c := length (sessions p) in
  ∃ bf header,
    get_bitfield_bytes (file_manager p) = Ret bf
    ∧ pack_IB (1 + Z.of_nat (length bf)) MSG_BITFIELD = Ret header
    ∧ register_connection sock nid p
      = (emit (EvSendall c (header ++ bf)
                 (negb (sock_closed sock || sock_broken sock)))
           (emit EvRelease
              (set_connections (dict_set (connections p) nid c)
                 (emit EvAcquire
                    (set_sessions
                       (sessions p
                        ++ [PeerConnection_init sock nid
                              (num_pieces (file_manager p))]) p)))),
         Ret c).
Proof.
  intros (_ & Hl & _) H32 c.
  destruct (get_bitfield_bytes_returns (file_manager p) Hl) as (bf & E & L).
  assert (Hbf : (Z.of_nat (length bf) + 1 < 2 ^ 32)%Z).
  { rewrite L.
    pose proof (Nat.Div0.div_le_upper_bound (num_pieces (file_manager p) + 7)
                  8 (num_pieces (file_manager p) + 7)) as Hd.
    pose proof (Nat.div_mod_eq (num_pieces (file_manager p) + 7) 8).
    lia. }
  destruct (frame_ok MSG_BITFIELD bf) as (header & Eh & _).
  { unfold MSG_BITFIELD. lia. }
  { done. }
  exists bf, header. split; [done|]. split; [done|].
  unfold register_connection, with_lock. run_M.
  cbn [file_manager set_sessions emit set_connections].
  rewrite E.
  rewrite (send_result c MSG_BITFIELD bf header _ Eh).
  cbn [fst snd sessions set_sessions emit set_connections].
  fold c. do 4 f_equal.
  rewrite lookup_total_app_r by (subst c; lia).
  by rewrite Nat.sub_diag.
Qed.

Lemma handshake_in_range (nid : Z) (msg : list Z) :
  create_handshake_message nid = Ret msg →
  (0 ≤ nid < 2 ^ 32)%Z
  ∧ length msg = 32
  ∧ parse_handshake_message msg = Ret (Some (Z.to_nat nid)).
Proof.
  intros E.
  assert (Hn : (0 ≤ nid < 2 ^ 32)%Z).
  { unfold create_handshake_message in E.
    destruct (pack_I nid) as [bs|e] eqn:Ep; [|done].
    by apply pack_I_range in Ep. }
  split; [done|].
  destruct (handshake_create_parse nid Hn) as (msg' & E' & Hl & Hp).
  rewrite E in E'. by injection E' as <-.
Qed.

Lemma create_handshake_raises (nid : Z) (e : exn) :
  create_handshake_message nid = Raise e → e = StructError.
Proof.
  unfold create_handshake_message, pack_I. case_decide; [done|].
  by intros [= <-].
Qed.

Lemma read_handshake (inbound : Inbound) (msg rest : list Z) :
  delivers inbound → length msg = 32 → pending inbound = msg ++ rest →
  (read_n_bytes inbound 32).2 = Ret msg.
Proof.
  intros Hd Hl Hp.
  destruct (read_n_bytes_take inbound 32 Hd) as (s' & E & _).
  { rewrite Hp, length_app. lia. }
  rewrite E, Hp. cbn [snd]. f_equal.
  rewrite take_app_le by lia. apply take_ge. lia.
Qed.

(** X21. A dial registers a session only with the peer it was meant for.
    When the other end answers with the handshake of the target, the
    dialer logs the connection, registers a new session under the
    target's identifier, sends its bitfield and starts the receive loop.
    When the answer carries another identifier, is shorter than a
    handshake, or the connect or the send fails, nothing changes and
    nothing is retried. *)
Theorem dial_outcome (target : Z) (sock : Socket) (inbound : Inbound)
    (p : Peer) :
  well_formed p →
  (Z.of_nat (num_pieces (file_manager p)) < 2 ^ 32)%Z →
  delivers inbound →
  let r := connect_to_peer target (DialOpen sock inbound) p in
  (∀ msg rest,
     (0 ≤ peer_id p < 2 ^ 32)%Z →
     sock_closed sock || sock_broken sock = false →
     create_handshake_message target = Ret msg →
     pending inbound = msg ++ rest →
     r = (perform (ActConnect sock target) p,
          Ret (Some (length (sessions p)))))
  ∧ (∀ other msg rest,
       other ≠ target →
       create_handshake_message other = Ret msg →
       pending inbound = msg ++ rest →
       r = (p, Ret None))
  ∧ (length (pending inbound) < 32 → r = (p, Ret None))
  ∧ (sock_closed sock || sock_broken sock = true → r = (p, Ret None))
  ∧ (∀ e, (∀ code, e ≠ SystemExit code) →
       connect_to_peer target (DialError e) p = (p, Ret None)).
Proof.
  intros Hwf H32 Hd r. subst r.
  unfold connect_to_peer, try_except. run_M. cbn [fst snd].
  split; [|split; [|split; [|split]]].
  - intros msg rest Hid Hsock Hc Hp.
    destruct (handshake_create_parse (peer_id p) Hid) as (mine & -> & _).
    unfold sendall. rewrite Hsock.
    destruct (handshake_in_range target msg Hc) as (Ht & Hl & Hparse).
    rewrite (read_handshake inbound msg rest Hd Hl Hp), Hparse.
    cbn [fmap option_fmap option_map]. rewrite Z2Nat.id by lia.
    rewrite decide_False by (by intros H).
    destruct (register_connection_result sock target
                (emit (EvLog (log_tcp_connect target)) p))
      as (bf & header & _ & _ & E); [done|done|].
    cbn [emit sessions] in E.
    cbn [perform]. run_M. rewrite E. done.
  - intros other msg rest Hne Hc Hp.
    destruct (create_handshake_message (peer_id p)) as [mine|e] eqn:Em;
      [|by apply create_handshake_raises in Em as ->].
    unfold sendall. destruct (sock_closed sock || sock_broken sock); [done|].
    destruct (handshake_in_range other msg Hc) as (Ht & Hl & Hparse).
    rewrite (read_handshake inbound msg rest Hd Hl Hp), Hparse.
    cbn [fmap option_fmap option_map]. rewrite Z2Nat.id by lia.
    rewrite decide_True; [done|]. by intros [= ?].
  - intros Hshort.
    destruct (create_handshake_message (peer_id p)) as [mine|e] eqn:Em;
      [|by apply create_handshake_raises in Em as ->].
    unfold sendall. destruct (sock_closed sock || sock_broken sock); [done|].
    destruct (read_n_bytes_short inbound 32 Hd Hshort) as (s' & ->). done.
  - intros Hsock.
    destruct (create_handshake_message (peer_id p)) as [mine|e] eqn:Em;
      [|by apply create_handshake_raises in Em as ->].
    unfold sendall. by rewrite Hsock.
  - intros e He. unfold connect_to_peer, try_except. run_M.
    destruct e; try done. by destruct (He code).
Qed.

Lemma dial_outcome_witness :
  let r := connect_to_peer 1001 (DialOpen open_socket answer_example)
             dialer_example in
  (∀ msg rest,
     (0 ≤ peer_id dialer_example < 2 ^ 32)%Z →
     sock_closed open_socket || sock_broken open_socket = false →
     create_handshake_message 1001 = Ret msg →
     pending answer_example = msg ++ rest →
     r = (perform (ActConnect open_socket 1001) dialer_example,
          Ret (Some (length (sessions dialer_example)))))
  ∧ (∀ other msg rest,
       other ≠ 1001%Z →
       create_handshake_message other = Ret msg →
       pending answer_example = msg ++ rest →
       r = (dialer_example, Ret None))
  ∧ (length (pending answer_example) < 32 → r = (dialer_example, Ret None))
  ∧ (sock_closed open_socket || sock_broken open_socket = true →
     r = (dialer_example, Ret None))
  ∧ (∀ e, (∀ code, e ≠ SystemExit code) →
       connect_to_peer 1001 (DialError e) dialer_example
       = (dialer_example, Ret None)).
Proof.
  apply (dial_outcome 1001 open_socket answer_example dialer_example).
  - apply well_formed_init.
  - vm_compute. reflexivity.
  - unfold delivers, answer_example. cbn [outcomes].
    repeat constructor; eexists; reflexivity.
Defined.



Lemma register_connection_peer_id sock nid :
  preserves (same_view peer_id) (register_connection sock nid).
Proof. unfold register_connection. kept. Qed.

Lemma connect_to_peer_peer_id (target : Z) (d : dial_result) (p : Peer) :
  peer_id (connect_to_peer target d p).1 = peer_id p.
Proof.
  unfold connect_to_peer, try_except.
  match goal with
  | |- peer_id (match ?m p with _ => _ end).1 = _ =>
      assert (H : preserves (same_view peer_id) m);
        [|specialize (H p); unfold same_view in H;
          destruct (m p) as [p' [a|e]]; [done|by destruct e]]
  end.
  kept. apply register_connection_peer_id.
Qed.

Lemma connect_to_predecessors_loop_eq (dials : Z → dial_result)
    (peers : list Z) (p : Peer) :
  connect_to_predecessors_loop peers dials p
  = for_in (before (peer_id p) peers)
      (fun t => _ ← connect_to_peer t (dials t); mret tt) p.
Proof.
  revert p. induction peers as [|peer peers IH]; intros p; [done|].
  cbn [connect_to_predecessors_loop before].
  rewrite (bind_ret_eq _ _ p p p) by reflexivity.
  case_decide as E; [done|]. cbn [for_in].
  pose proof (connect_to_peer_peer_id peer (dials peer) p) as Hid.
  unfold mbind, M_bind, mret, M_ret.
  destruct (connect_to_peer peer (dials peer) p) as [p' [a|e]];
    cbn [fst] in Hid; [|done].
  rewrite IH. by rewrite Hid.
Qed.

Lemma before_spec {A} `{EqDecision A} (x : A) (xs : list A) :
  (x ∉ before x xs) ∧ ∀ y, y ∈ before x xs → y ∈ xs.
Proof.
  induction xs as [|z xs [IH1 IH2]]; cbn [before].
  { split; [by intros ?%elem_of_nil|done]. }
  case_decide as E.
  - split; [by intros ?%elem_of_nil|]. by intros y ?%elem_of_nil.
  - split.
    + intros [->|?]%elem_of_cons; done.
    + intros y [->|?]%elem_of_cons; [by left|]. right. by apply IH2.
Qed.

(** X23. At startup a peer dials exactly the peers listed before it in
    the configuration, in that order, and never itself.  So of two
    different peers of a configuration without repeated identifiers
    exactly one dials the other: the one listed later. *)
Theorem predecessors_dialed (dials : Z → dial_result) (p : Peer) :
  connect_to_predecessors dials p
  = for_in (before (peer_id p) (config_peers p))
      (fun t => _ ← connect_to_peer t (dials t); mret tt) p
  ∧ (peer_id p ∉ before (peer_id p) (config_peers p))
  ∧ (∀ t, t ∈ before (peer_id p) (config_peers p) → t ∈ config_peers p)
  ∧ ∀ a b, NoDup (config_peers p) →
      a ∈ config_peers p → b ∈ config_peers p → a ≠ b →
      (a ∈ before b (config_peers p) ↔ b ∉ before a (config_peers p)).
Proof.
  split; [|split; [|split]].
  - unfold connect_to_predecessors.
    rewrite (bind_ret_eq _ _ p p p) by reflexivity.
    apply connect_to_predecessors_loop_eq.
  - apply before_spec.
  - apply before_spec.
  - generalize (config_peers p). intros peers a b Hnd Ha Hb Hne.
    induction peers as [|z peers IH]; [by apply elem_of_nil in Ha|].
    apply NoDup_cons in Hnd as [Hz Hnd]. cbn [before].
    destruct (decide (z = b)) as [->|Hzb].
    + rewrite decide_False by done. split; [by intros ?%elem_of_nil|].
      intros H. destruct H. by left.
    + destruct (decide (z = a)) as [->|Hza].
      * split; [by intros _ ?%elem_of_nil|]. intros _. by left.
      * apply elem_of_cons in Ha as [->|Ha]; [done|].
        apply elem_of_cons in Hb as [->|Hb]; [done|].
        rewrite !elem_of_cons. specialize (IH Hnd Ha Hb).
        split.
        { intros [->|H]; [done|]. intros [->|H']; [done|]. by apply IH. }
        { intros H. right. apply IH. intros H'. apply H. by right. }
Qed.

(** * The registry *)

Lemma check_interest_registry c :
  preserves (same_view registry_view) (check_interest c).
Proof. unfold check_interest. kept. Qed.

Lemma request_piece_registry draws c :
  preserves (same_view registry_view) (request_piece draws c).
Proof. unfold request_piece. kept. Qed.

Lemma process_message_registry draws c msg_type payload :
  preserves (same_view registry_view)
    (process_message draws c msg_type payload).
Proof.
  unfold process_message, on_choke, on_unchoke, on_interested,
    on_not_interested, on_have, on_bitfield, on_request, on_piece,
    broadcast_have.
  kept;
    first [ apply request_piece_registry | apply check_interest_registry ].
Qed.

Lemma close_conn_registry c :
  preserves (same_view registry_view) (close_conn c).
Proof. unfold close_conn. kept. Qed.

Lemma choking_timer_turn_registry draws :
  preserves (same_view registry_view) (choking_timer_turn draws).
Proof. unfold choking_timer_turn, apply_choke. kept. Qed.

Lemma optimistic_unchoking_timer_turn_registry draws :
  preserves (same_view registry_view) (optimistic_unchoking_timer_turn draws).
Proof. unfold optimistic_unchoking_timer_turn. kept. Qed.

Lemma termination_check_loop_turn_registry :
  preserves (same_view registry_view) termination_check_loop_turn.
Proof.
  unfold termination_check_loop_turn, shutdown. kept.
  apply close_conn_registry.
Qed.

(** Only a registration changes the registry or the neighbor a session
    object belongs to. *)
Lemma perform_registry (a : action) (p : Peer) :
  (∀ sock nid, a ≠ ActConnect sock nid ∧ a ≠ ActAccept sock nid) →
  registry_view (perform a p) = registry_view p.
Proof.
  intros Ha. destruct a; cbn [perform].
  - done.
  - by destruct (Ha sock nid) as [? _].
  - by destruct (Ha sock nid) as [_ ?].
  - apply (message_handler_kept registry_view c); [done| |].
    + intros d t pl. apply process_message_registry.
    + apply close_conn_registry.
  - apply choking_timer_turn_registry.
  - apply optimistic_unchoking_timer_turn_registry.
  - apply termination_check_loop_turn_registry.
  - unfold registry_view. cbn [connections sessions set_sessions].
    f_equal. by apply fmap_alter_kept.
Qed.

Lemma register_connection_registry (sock : Socket) (nid : Z) (p : Peer) :
  registry_view (register_connection sock nid p).1
  = (dict_set (connections p) nid (length (sessions p)),
     (neighbor_id <$> sessions p) ++ [nid]).
Proof.
  unfold register_connection.
  rewrite (bind_ret_eq _ _ p p p) by reflexivity.
  set (p1 := set_sessions
               (sessions p
                ++ [PeerConnection_init sock nid
                      (num_pieces (file_manager p))]) p).
  rewrite (bind_ret_eq _ _ p p1 tt) by reflexivity.
  set (p2 := emit EvRelease
               (set_connections
                  (dict_set (connections p) nid (length (sessions p)))
                  (emit EvAcquire p1))).
  rewrite (bind_ret_eq _ _ p1 p2 tt) by reflexivity.
  match goal with
  | |- registry_view (?m p2).1 = _ =>
      assert (H : preserves (same_view registry_view) m)
  end.
  { kept. }
  rewrite (H p2). unfold registry_view, p2, p1.
  cbn [connections sessions emit set_connections set_sessions].
  by rewrite fmap_app.
Qed.

Lemma dict_set_NoDup_keys {V} (d : list (Z * V)) (k : Z) (v : V) :
  NoDup d.*1 → NoDup (dict_set d k v).*1.
Proof.
  induction d as [|[k0 v0] d IH]; cbn [dict_set fmap list_fmap fst].
  { intros _. apply NoDup_singleton. }
  intros [Hk Hd]%NoDup_cons. case_decide as E; cbn [fmap list_fmap fst].
  - subst. by apply NoDup_cons.
  - apply NoDup_cons. split; [|by apply IH].
    intros Hin. apply list_elem_of_fmap in Hin as ([k1 v1] & -> & Hin).
    apply elem_of_dict_set in Hin as [Hin|[= -> ->]]; [|done].
    apply Hk. apply list_elem_of_fmap. by exists (k1, v1).
Qed.

Lemma dict_set_NoDup_values {V} (d : list (Z * V)) (k : Z) (v : V) :
  NoDup d.*2 → v ∉ d.*2 → NoDup (dict_set d k v).*2.
Proof.
  induction d as [|[k0 v0] d IH]; cbn [dict_set fmap list_fmap snd].
  { intros _ _. apply NoDup_singleton. }
  intros [Hv Hd]%NoDup_cons Hnew. apply not_elem_of_cons in Hnew as [? Hnew].
  case_decide as E; cbn [fmap list_fmap snd].
  - by apply NoDup_cons.
  - apply NoDup_cons. split; [|by apply IH].
    intros Hin. apply list_elem_of_fmap in Hin as ([k1 v1] & -> & Hin).
    apply elem_of_dict_set in Hin as [Hin|[= -> ->]]; [|done].
    apply Hv. apply list_elem_of_fmap. by exists (k1, v1).
Qed.

Lemma registry_sound_alt (p : Peer) :
  registry_sound p
  ↔ NoDup (registry_view p).1.*1
    ∧ NoDup (registry_view p).1.*2
    ∧ ∀ nid c, (nid, c) ∈ (registry_view p).1 →
        (registry_view p).2 !! c = Some nid.
Proof.
  unfold registry_sound, registry_view, dict_values. cbn [fst snd].
  split; intros (H1 & H2 & H3); (split; [done|split; [done|]]);
    intros nid c Hin.
  - destruct (H3 nid c Hin) as (s & Hs & <-).
    by rewrite list_lookup_fmap, Hs.
  - specialize (H3 nid c Hin). rewrite list_lookup_fmap in H3.
    apply fmap_Some in H3 as (s & Hs & ->). by exists s.
Qed.

Lemma registry_sound_kept (p q : Peer) :
  registry_view q = registry_view p → registry_sound p → registry_sound q.
Proof. rewrite !registry_sound_alt. by intros ->. Qed.

Lemma registry_sound_register (p q : Peer) (nid : Z) :
  registry_view q
  = (dict_set (connections p) nid (length (sessions p)),
     (neighbor_id <$> sessions p) ++ [nid]) →
  registry_sound p → registry_sound q.
Proof.
  rewrite !registry_sound_alt. intros ->. cbn [fst snd].
  unfold registry_view. cbn [fst snd]. intros (H1 & H2 & H3).
  assert (Hlt : ∀ k c, (k, c) ∈ connections p → c < length (sessions p)).
  { intros k c Hin. apply H3 in Hin. apply lookup_lt_Some in Hin.
    by rewrite length_fmap in Hin. }
  split; [by apply dict_set_NoDup_keys|]. split.
  - apply dict_set_NoDup_values; [done|].
    intros Hin. apply list_elem_of_fmap in Hin as ([k c] & Hc & Hin).
    cbn [snd] in Hc. subst c. apply Hlt in Hin. lia.
  - intros k c [Hin|[= -> ->]]%elem_of_dict_set.
    + rewrite lookup_app_l by (rewrite length_fmap; by eapply Hlt).
      by apply H3.
    + rewrite lookup_app_r by (by rewrite length_fmap).
      by rewrite length_fmap, Nat.sub_diag.
Qed.

(** X24. In every reachable state the registry names every neighbor
    once, no two neighbors share a session object, and the session
    registered for a neighbor is one that was created for that neighbor.
    Only a completed handshake changes the registry: every other action
    leaves it, and the neighbor of every session object, as they are. *)
Theorem registry_sound_reachable (p : Peer) :
  reachable p →
  registry_sound p
  ∧ ∀ a, (∀ sock nid, a ≠ ActConnect sock nid ∧ a ≠ ActAccept sock nid) →
      connections (perform a p) = connections p
      ∧ neighbor_id <$> sessions (perform a p) = neighbor_id <$> sessions p.
Proof.
  intros Hr. split.
  - induction Hr as [|a p _ IH _].
    { repeat split; try apply NoDup_nil_2.
      by intros nid c ?%elem_of_nil. }
    destruct a;
      try (apply (registry_sound_kept p); [|done];
           apply perform_registry; by intros).
    + apply (registry_sound_register p _ nid); [|done]. cbn [perform].
      rewrite (bind_ret_eq _ _ p (emit (EvLog (log_tcp_connect nid)) p) tt)
        by reflexivity.
      by rewrite register_connection_registry.
    + apply (registry_sound_register p _ nid); [|done]. cbn [perform].
      rewrite (bind_ret_eq _ _ p (emit (EvLog (log_tcp_connected nid)) p) tt)
        by reflexivity.
      by rewrite register_connection_registry.
  - intros a Ha. pose proof (perform_registry a p Ha) as H.
    unfold registry_view in H. by injection H.
Qed.

Lemma registry_sound_reachable_witness :
  registry_sound unchoke_example
  ∧ ∀ a, (∀ sock nid, a ≠ ActConnect sock nid ∧ a ≠ ActAccept sock nid) →
      connections (perform a unchoke_example) = connections unchoke_example
      ∧ neighbor_id <$> sessions (perform a unchoke_example)
        = neighbor_id <$> sessions unchoke_example.
Proof.
  apply (registry_sound_reachable unchoke_example).
  unfold unchoke_example, run. cbn [foldl].
  repeat (apply reachable_step; [|vm_compute; try lia; done]).
  apply reachable_init.
Defined.

(** * The dimensions of the store *)

Lemma sized_tau stop allow (p q : Peer) :
  tau stop allow p q → sized (file_manager p) → sized (file_manager q).
Proof.
  intros Ht Hs.
  destruct Ht as [e|c f Hf|c j Hj|c payload _|j data|idx Hh Hr|sock nid
                 |nid c Hc|s|_]; try done.
  cbn [file_manager set_file_manager].
  destruct (write_piece_cases (file_manager p) j data)
    as (HF & HS & Hn & [(Hb & _)|(_ & Hb & _)]);
    apply (sized_ext (file_manager p)); try done.
  - by rewrite Hb.
  - by rewrite Hb, length_insert.
Qed.

(** X25. A store is sized when its sizes are positive, [num_pieces] is
    the exact ceiling of [file_size / piece_size] and the bitmap has
    [num_pieces] entries.  (The constructor computes the ceiling with a
    floating-point division; that the store it leaves is sized is the
    hypothesis here.)  Every run from a peer whose store is sized keeps
    the sizes, the number of pieces and the length of the bitmap: the
    store stays sized, it has at least one piece, all pieces but the last
    span [piece_size] bytes, and the last one is not empty. *)
Theorem store_dimensions (actions : list action) (p0 : Peer) :
  sized (file_manager p0) →
  let fm0 := file_manager p0 in
  let fm := file_manager (run actions p0) in
  file_size fm = file_size fm0 ∧ piece_size fm = piece_size fm0
  ∧ num_pieces fm = num_pieces fm0
  ∧ length (bitfield fm) = num_pieces fm
  ∧ sized fm
  ∧ 0 < num_pieces fm
  ∧ (Z.of_nat (num_pieces fm - 1) * piece_size fm < file_size fm
     ≤ Z.of_nat (num_pieces fm) * piece_size fm)%Z
  ∧ (∀ i, i < num_pieces fm →
       (0 < piece_length fm i ≤ piece_size fm)%Z
       ∧ (i < num_pieces fm - 1 → piece_length fm i = piece_size fm)).
Proof.
  intros H0 fm0 fm.
  assert (H : sized fm ∧ file_size fm = file_size fm0
              ∧ piece_size fm = piece_size fm0
              ∧ num_pieces fm = num_pieces fm0).
  { subst fm fm0. pose proof (run_steps actions p0) as Hrun.
    induction Hrun as [p|p q r Ht _ IH]; [done|].
    destruct (IH (sized_tau _ _ _ _ Ht H0)) as (Hs & -> & -> & ->).
    split; [done|].
    destruct Ht as [e|c f Hf|c j Hj|c payload _|j data|idx Hh Hr|sock nid
                   |nid c Hc|s|_]; try done.
    cbn [file_manager set_file_manager].
    by destruct (write_piece_cases (file_manager p) j data)
      as (-> & -> & -> & _). }
  clearbody fm. destruct H as (Hs & Hf & Hp & Hn).
  pose proof (num_pieces_bounds fm Hs) as (Hb & _ & Hpos).
  destruct (Hs) as (HS' & HF' & Hnum & Hlen).
  split; [done|]. split; [done|]. split; [done|]. split; [done|].
  split; [done|]. split; [done|].
  set (psize := piece_size fm) in *. set (fsize := file_size fm) in *.
  assert (Hb' : (Z.of_nat (num_pieces fm - 1) * psize < fsize
                 ≤ Z.of_nat (num_pieces fm) * psize)%Z).
  { rewrite <- (Z2Nat.id psize), <- (Z2Nat.id fsize) by lia.
    rewrite <- !Nat2Z.inj_mul. lia. }
  split; [done|].
  intros i Hi. unfold piece_length. fold psize fsize. split.
  - assert ((Z.of_nat i * psize ≤ Z.of_nat (num_pieces fm - 1) * psize)%Z)
      by (apply Z.mul_le_mono_nonneg_r; lia).
    lia.
  - intros Hlast.
    assert ((Z.of_nat (i + 1) * psize
             ≤ Z.of_nat (num_pieces fm - 1) * psize)%Z)
      by (apply Z.mul_le_mono_nonneg_r; lia).
    lia.
Qed.

Lemma store_dimensions_witness :
  let fm0 := short_last_example in
  let fm := file_manager unchoke_example in
  file_size fm = file_size fm0 ∧ piece_size fm = piece_size fm0
  ∧ num_pieces fm = num_pieces fm0
  ∧ length (bitfield fm) = num_pieces fm
  ∧ sized fm
  ∧ 0 < num_pieces fm
  ∧ (Z.of_nat (num_pieces fm - 1) * piece_size fm < file_size fm
     ≤ Z.of_nat (num_pieces fm) * piece_size fm)%Z
  ∧ (∀ i, i < num_pieces fm →
       (0 < piece_length fm i ≤ piece_size fm)%Z
       ∧ (i < num_pieces fm - 1 → piece_length fm i = piece_size fm)).
Proof.
  apply (store_dimensions
           [ ActAccept (mkSocket false false) 1002;
             ActAccept (mkSocket false false) 1003;
             ActAccept (mkSocket false false) 1004;
             ActRecv 0 (RecvFrame [MSG_INTERESTED]) [];
             ActRecv 1 (RecvFrame [MSG_INTERESTED]) [];
             ActRecv 2 (RecvFrame [MSG_INTERESTED]) [];
             ActOptimistic [2];
             ActChoking [] ]
           (Peer_init 1001 1 [1001; 1002; 1003; 1004]%Z false 25 10 None)).
  unfold sized. vm_compute. repeat split; lia.
Defined.
